(** * SPIJ norma tracker: a shallow embedding of [app.py] and its properties

    The program tracks successive versions of a legal norm: the markup
    fetched from the portal is normalised to plain text
    ([extract_norma_text]), fingerprinted ([hash_content]), stored in an
    append-only SQLite table when the fingerprint differs from the latest
    stored one ([save_if_changed]), and two stored versions are compared
    line by line ([iter_changes]). The page ([main]) captures a version
    at the press of a button and shows the history of an identifier and
    the comparison of two of its versions.

    The first part of the file embeds the program: the functions of
    [app.py] keep their names, and the library calls they make
    ([re.sub], [str.strip], [str.splitlines], [hashlib.sha256],
    [difflib.unified_diff], the SQLite queries) are modelled next to them.
    The second part states and proves the properties. *)

From Stdlib Require Import Strings.String Strings.Ascii.
From Stdlib Require Import ZArith List Bool Lia Arith PeanoNat.
From Stdlib Require Import Sorting.Permutation Sorting.Sorted.
Import ListNotations.

Local Open Scope Z_scope.

(** ** Python strings

    A Python [str] is a sequence of Unicode code points; [len] counts code
    points, and the character classes of [re] and of the [str] methods are
    classes of code points. *)

Module PyStr.

Definition str := list Z.

(** ASCII literals: the code points of a Rocq string literal. *)
Definition lit (s : String.string) : str :=
  map (fun a => Z.of_N (Ascii.N_of_ascii a)) (String.list_ascii_of_string s).

Definition LF : Z := 10.
Definition CR : Z := 13.
Definition SP : Z := 32.

Fixpoint str_eqb (a b : str) : bool :=
  match a, b with
  | [], [] => true
  | x :: a', y :: b' => (x =? y) && str_eqb a' b'
  | _, _ => false
  end.

(** [s.startswith(p)] *)
Fixpoint startswith (p s : str) : bool :=
  match p, s with
  | [], _ => true
  | x :: p', y :: s' => (x =? y) && startswith p' s'
  | _ :: _, [] => false
  end.

(** [str.isspace] on one character, which is also the class [\s] of [re]
    on [str] patterns: the code points whose bidirectional type is WS, B or
    S, or whose category is Zs. *)
Definition isspace (c : Z) : bool :=
  ((9 <=? c) && (c <=? 13)) || ((28 <=? c) && (c <=? 32))
  || (c =? 133) || (c =? 160) || (c =? 5760)
  || ((8192 <=? c) && (c <=? 8202))
  || (c =? 8232) || (c =? 8233) || (c =? 8239) || (c =? 8287) || (c =? 12288).

(** The line boundaries of [str.splitlines]. *)
Definition is_linebreak (c : Z) : bool :=
  ((10 <=? c) && (c <=? 13)) || ((28 <=? c) && (c <=? 30))
  || (c =? 133) || (c =? 8232) || (c =? 8233).

(** [re.sub(r"\s+", " ", text)]: scanning left to right, each maximal run
    of whitespace is replaced by one space; [in_run] says that the previous
    character belonged to the run being replaced. *)
Fixpoint re_sub_ws (in_run : bool) (text : str) : str :=
  match text with
  | [] => []
  | c :: rest =>
      if isspace c
      then (if in_run then re_sub_ws true rest else SP :: re_sub_ws true rest)
      else c :: re_sub_ws false rest
  end.

Fixpoint lstrip (s : str) : str :=
  match s with
  | [] => []
  | c :: rest => if isspace c then lstrip rest else s
  end.

Definition rstrip (s : str) : str := rev (lstrip (rev s)).

(** [s.strip()] *)
Definition strip (s : str) : str := rstrip (lstrip s).

(** [s.splitlines()]: [cur] holds the current line, last character first.
    A line ends at a line boundary, [\r\n] counting as one; the text after
    the last boundary is a line only when it is not empty. *)
Fixpoint splitlines_from (cur : str) (s : str) : list str :=
  match s with
  | [] => match cur with [] => [] | _ :: _ => [rev cur] end
  | c :: rest =>
      if is_linebreak c
      then rev cur ::
           match rest with
           | d :: rest' =>
               if (c =? CR) && (d =? LF) then splitlines_from [] rest'
               else splitlines_from [] rest
           | [] => splitlines_from [] rest
           end
      else splitlines_from (c :: cur) rest
  end.

Definition splitlines (s : str) : list str := splitlines_from [] s.

(** [sep.join(parts)] *)
Fixpoint join (sep : str) (parts : list str) : str :=
  match parts with
  | [] => []
  | [p] => p
  | p :: rest => p ++ sep ++ join sep rest
  end.

(** [len(s)] *)
Definition len (s : str) : Z := Z.of_nat (length s).

(** ASCII lower-casing, as the HTML parser and the selector engine apply it
    to tag names. *)
Definition ascii_lower_char (c : Z) : Z :=
  if (65 <=? c) && (c <=? 90) then c + 32 else c.

Definition ascii_lower (s : str) : str := map ascii_lower_char s.

(** [str(n)] for a natural number: decimal digits, most significant first.
    [fuel] bounds the number of digits. *)
Fixpoint digits_from (fuel : nat) (n : Z) (acc : str) : str :=
  match fuel with
  | O => acc
  | S fuel' =>
      let acc' := (48 + n mod 10) :: acc in
      if n / 10 =? 0 then acc' else digits_from fuel' (n / 10) acc'
  end.

Definition str_of_nat (n : nat) : str :=
  digits_from (S n) (Z.of_nat n) [].

End PyStr.

(** ** The parse tree of BeautifulSoup

    [extract_norma_text] uses three operations of the library on the tree:
    [select] with a type selector, [decompose] and [get_text]. *)

Module Soup.
Import PyStr.

(** A tree node: a text string, a string that [get_text] does not render
    (a comment, a doctype, the text of [script], [style] or [template]),
    or a tag with its contents. *)
#[local] Unset Elimination Schemes.
Inductive node : Type :=
| NavigableString (s : str)
| OtherString (s : str)
| Tag (name : str) (contents : list node).
#[local] Set Elimination Schemes.

(** Induction on trees: the property holds of a tag when it holds of all
    its contents. *)
Section NodeInduction.

Variable P : node -> Prop.
Hypothesis P_string : forall s, P (NavigableString s).
Hypothesis P_other : forall s, P (OtherString s).
Hypothesis P_tag : forall name contents, Forall P contents -> P (Tag name contents).

Fixpoint node_induction (n : node) : P n :=
  match n with
  | NavigableString s => P_string s
  | OtherString s => P_other s
  | Tag name contents =>
      P_tag name contents
        ((fix all (l : list node) : Forall P l :=
            match l with
            | [] => Forall_nil P
            | k :: l' => Forall_cons k (node_induction k) (all l')
            end) contents)
  end.

End NodeInduction.

(** The contents of the [BeautifulSoup] object itself. *)
Definition soup := list node.

(** [for node in soup.select(selector): node.decompose()] for a type
    selector: every tag whose name is the selector's, compared without
    case as the selector engine does for HTML, leaves the tree with all it
    contains; what is left of one node is no node or one. *)
Fixpoint decompose_selected (selector : str) (n : node) : list node :=
  match n with
  | Tag name contents =>
      if str_eqb (ascii_lower name) (ascii_lower selector) then []
      else [Tag name (flat_map (decompose_selected selector) contents)]
  | _ => [n]
  end.

Definition decompose_all (selector : str) (sp : soup) : soup :=
  flat_map (decompose_selected selector) sp.

(** The strings [get_text] joins, in document order. *)
Fixpoint all_strings (n : node) : list str :=
  match n with
  | NavigableString s => [s]
  | OtherString _ => []
  | Tag _ contents => flat_map all_strings contents
  end.

(** [soup.get_text(separator)] *)
Definition get_text (separator : str) (sp : soup) : str :=
  join separator (flat_map all_strings sp).

(** *** The tree builder on plain tag soup

    A model of [BeautifulSoup(html, "html.parser")] for markup made of
    text, start tags [<name>] and end tags [</name>] (no attributes,
    comments or character references): Python's [HTMLParser] cuts the
    markup into tags and data, lower-cases the names and reads the inside
    of [script] and [style] as data up to their end tag; the tree builder
    keeps a stack of open tags, closes a void element as soon as it opens,
    closes on an end tag every tag down to the innermost open one of that
    name, and turns the data between two tags into one string. The
    properties of [extract_norma_text] below are proved for every parser;
    this one serves the worked examples. *)

Inductive lexstate : Type :=
| LText
| LTag (closing : bool) (name : str).   (* after "<" or "</": the name so far, reversed *)

Record frame : Type := { fname : str; fkids : list node (* reversed *) }.

Record pstate : Type := {
  tagStack : list frame;     (* open tags, innermost first *)
  root : list node;          (* contents of the document so far, reversed *)
  current_data : str;        (* reversed *)
  lex : lexstate;
  already_closed_empty_element : list str
}.

Definition mem_str (x : str) (l : list str) : bool := existsb (str_eqb x) l.

Definition empty_element_tags : list str :=
  map lit ["area"; "base"; "br"; "col"; "embed"; "hr"; "img"; "input";
           "keygen"; "link"; "menuitem"; "meta"; "param"; "source"; "track";
           "wbr"; "basefont"; "bgsound"; "command"; "frame"; "image";
           "isindex"; "nextid"; "spacer"]%string.

Definition cdata_content_elements : list str := map lit ["script"; "style"]%string.
Definition preserve_whitespace_tags : list str := map lit ["pre"; "textarea"]%string.
Definition string_containers : list str :=
  map lit ["rt"; "rp"; "style"; "script"; "template"]%string.

Definition is_ascii_space (c : Z) : bool :=
  (c =? 32) || (c =? 10) || (c =? 9) || (c =? 12) || (c =? 13).

Definition is_alpha (c : Z) : bool :=
  ((65 <=? c) && (c <=? 90)) || ((97 <=? c) && (c <=? 122)).

Definition is_digit (c : Z) : bool := (48 <=? c) && (c <=? 57).

Definition add_node (n : node) (st : pstate) : pstate :=
  match tagStack st with
  | [] =>
      {| tagStack := []; root := n :: root st; current_data := current_data st;
         lex := lex st; already_closed_empty_element := already_closed_empty_element st |}
  | f :: fs =>
      {| tagStack := {| fname := fname f; fkids := n :: fkids f |} :: fs;
         root := root st; current_data := current_data st;
         lex := lex st; already_closed_empty_element := already_closed_empty_element st |}
  end.

(** [endData]: the pending data becomes one string of the current tag; a
    string of ASCII white space alone shrinks to a newline or a space,
    except inside [pre] and [textarea]. *)
Definition endData (st : pstate) : pstate :=
  match current_data st with
  | [] => st
  | _ :: _ =>
      let data := rev (current_data st) in
      let open := map fname (tagStack st) in
      let data :=
        if forallb is_ascii_space data
           && negb (existsb (fun t => mem_str t preserve_whitespace_tags) open)
        then (if existsb (Z.eqb LF) data then [LF] else [SP])
        else data in
      let n :=
        if existsb (fun t => mem_str t string_containers) open
        then OtherString data else NavigableString data in
      add_node n
        {| tagStack := tagStack st; root := root st; current_data := [];
           lex := lex st; already_closed_empty_element := already_closed_empty_element st |}
  end.

Definition pushTag (name : str) (st : pstate) : pstate :=
  {| tagStack := {| fname := name; fkids := [] |} :: tagStack st;
     root := root st; current_data := current_data st;
     lex := lex st; already_closed_empty_element := already_closed_empty_element st |}.

Definition popTag (st : pstate) : pstate :=
  match tagStack st with
  | [] => st
  | f :: fs =>
      add_node (Tag (fname f) (rev (fkids f)))
        {| tagStack := fs; root := root st; current_data := current_data st;
           lex := lex st; already_closed_empty_element := already_closed_empty_element st |}
  end.

(** [_popToTag(name)]: nothing when no open tag has the name. *)
Fixpoint pop_through (name : str) (n : nat) (st : pstate) : pstate :=
  match n with
  | O => st
  | S n' =>
      match tagStack st with
      | [] => st
      | f :: _ =>
          if str_eqb (fname f) name then popTag st
          else pop_through name n' (popTag st)
      end
  end.

Definition popToTag (name : str) (st : pstate) : pstate :=
  if mem_str name (map fname (tagStack st))
  then pop_through name (length (tagStack st)) st
  else st.

Fixpoint remove_first (x : str) (l : list str) : list str :=
  match l with
  | [] => []
  | y :: l' => if str_eqb x y then l' else y :: remove_first x l'
  end.

Definition with_closed (l : list str) (st : pstate) : pstate :=
  {| tagStack := tagStack st; root := root st; current_data := current_data st;
     lex := lex st; already_closed_empty_element := l |}.

Definition handle_starttag (name : str) (st : pstate) : pstate :=
  let st := pushTag name (endData st) in
  if mem_str name empty_element_tags
  then let st := popToTag name (endData st) in
       with_closed (already_closed_empty_element st ++ [name]) st
  else st.

Definition handle_endtag (name : str) (st : pstate) : pstate :=
  if mem_str name (already_closed_empty_element st)
  then with_closed (remove_first name (already_closed_empty_element st)) st
  else popToTag name (endData st).

Definition with_lex (l : lexstate) (data : str) (st : pstate) : pstate :=
  {| tagStack := tagStack st; root := root st; current_data := data;
     lex := l; already_closed_empty_element := already_closed_empty_element st |}.

(** The element whose inside is read as data, when the innermost open tag
    is one. *)
Definition cdata_elem (st : pstate) : option str :=
  match tagStack st with
  | f :: _ => if mem_str (fname f) cdata_content_elements then Some (fname f) else None
  | [] => None
  end.

(** The text of an unfinished tag, reversed, as it stands in the markup. *)
Definition raw_rev (closing : bool) (name : str) : str :=
  name ++ (if closing then [47; 60] else [60]).

Definition feed_text (c : Z) (st : pstate) : pstate :=
  if c =? 60 then with_lex (LTag false []) (current_data st) st
  else with_lex LText (c :: current_data st) st.

Definition feed (st : pstate) (c : Z) : pstate :=
  match lex st with
  | LText => feed_text c st
  | LTag closing name =>
      let as_data := with_lex LText (raw_rev closing name ++ current_data st) st in
      match name with
      | [] =>
          if negb closing && (c =? 47) then with_lex (LTag true []) (current_data st) st
          else if is_alpha c then with_lex (LTag closing [c]) (current_data st) st
          else feed_text c as_data
      | _ :: _ =>
          if c =? 62 then
            let tag := ascii_lower (rev name) in
            let st' := with_lex LText (current_data st) st in
            match cdata_elem st with
            | Some e =>
                if closing && str_eqb tag e then handle_endtag tag st'
                else with_lex LText (62 :: raw_rev closing name ++ current_data st) st
            | None => if closing then handle_endtag tag st' else handle_starttag tag st'
            end
          else if is_alpha c || is_digit c
          then with_lex (LTag closing (c :: name)) (current_data st) st
          else feed_text c as_data
      end
  end.

Definition close (st : pstate) : soup :=
  let st :=
    match lex st with
    | LText => st
    | LTag closing name => with_lex LText (raw_rev closing name ++ current_data st) st
    end in
  let st := endData st in
  let st := fold_left (fun s _ => popTag s) (tagStack st) st in
  rev (root st).

Definition html_parser (markup : str) : soup :=
  close (fold_left feed markup
           {| tagStack := []; root := []; current_data := []; lex := LText;
              already_closed_empty_element := [] |}).

End Soup.

(** ** UTF-8

    [text.encode("utf-8")]: one to four bytes per code point; a surrogate
    (U+D800 to U+DFFF) has no encoding and raises [UnicodeEncodeError]. *)

Module Utf8.
Import PyStr.

Definition bytes := list Z.

Definition encode_char (c : Z) : option bytes :=
  if c <? 0 then None
  else if c <? 128 then Some [c]
  else if c <? 2048 then Some [192 + c / 64; 128 + c mod 64]
  else if (55296 <=? c) && (c <=? 57343) then None
  else if c <? 65536 then
    Some [224 + c / 4096; 128 + (c / 64) mod 64; 128 + c mod 64]
  else if c <? 1114112 then
    Some [240 + c / 262144; 128 + (c / 4096) mod 64;
          128 + (c / 64) mod 64; 128 + c mod 64]
  else None.

Fixpoint encode (text : str) : option bytes :=
  match text with
  | [] => Some []
  | c :: rest =>
      match encode_char c, encode rest with
      | Some b, Some bs => Some (b ++ bs)
      | _, _ => None
      end
  end.

(** The texts [encode] accepts: code points of the Unicode range that are
    no surrogates. *)
Definition scalar_value (c : Z) : Prop :=
  0 <= c < 1114112 /\ ~ (55296 <= c <= 57343).

End Utf8.

(** ** SHA-256 (FIPS 180-4), as [hashlib.sha256] computes it

    Words are 32-bit integers in [Z]; every addition is reduced modulo
    [2^32]. *)

Module Sha256.

Definition modulus : Z := 4294967296.

Definition add32 (x y : Z) : Z := (x + y) mod modulus.

Definition ROTR (n x : Z) : Z :=
  Z.lor (Z.shiftr x n) ((Z.shiftl x (32 - n)) mod modulus).

Definition SHR (n x : Z) : Z := Z.shiftr x n.

Definition Ch (x y z : Z) : Z :=
  Z.lxor (Z.land x y) (Z.land (Z.lxor x (modulus - 1)) z).

Definition Maj (x y z : Z) : Z :=
  Z.lxor (Z.lxor (Z.land x y) (Z.land x z)) (Z.land y z).

Definition Sigma0 (x : Z) : Z := Z.lxor (Z.lxor (ROTR 2 x) (ROTR 13 x)) (ROTR 22 x).
Definition Sigma1 (x : Z) : Z := Z.lxor (Z.lxor (ROTR 6 x) (ROTR 11 x)) (ROTR 25 x).
Definition sigma0 (x : Z) : Z := Z.lxor (Z.lxor (ROTR 7 x) (ROTR 18 x)) (SHR 3 x).
Definition sigma1 (x : Z) : Z := Z.lxor (Z.lxor (ROTR 17 x) (ROTR 19 x)) (SHR 10 x).

(** The round constants, eight to a line as the standard prints them. *)
Definition K : list Z :=
  [ 0x428A2F98 ; 0x71374491 ; 0xB5C0FBCF ; 0xE9B5DBA5 ; 0x3956C25B ; 0x59F111F1 ; 0x923F82A4 ; 0xAB1C5ED5
  ; 0xD807AA98 ; 0x12835B01 ; 0x243185BE ; 0x550C7DC3 ; 0x72BE5D74 ; 0x80DEB1FE ; 0x9BDC06A7 ; 0xC19BF174
  ; 0xE49B69C1 ; 0xEFBE4786 ; 0x0FC19DC6 ; 0x240CA1CC ; 0x2DE92C6F ; 0x4A7484AA ; 0x5CB0A9DC ; 0x76F988DA
  ; 0x983E5152 ; 0xA831C66D ; 0xB00327C8 ; 0xBF597FC7 ; 0xC6E00BF3 ; 0xD5A79147 ; 0x06CA6351 ; 0x14292967
  ; 0x27B70A85 ; 0x2E1B2138 ; 0x4D2C6DFC ; 0x53380D13 ; 0x650A7354 ; 0x766A0ABB ; 0x81C2C92E ; 0x92722C85
  ; 0xA2BFE8A1 ; 0xA81A664B ; 0xC24B8B70 ; 0xC76C51A3 ; 0xD192E819 ; 0xD6990624 ; 0xF40E3585 ; 0x106AA070
  ; 0x19A4C116 ; 0x1E376C08 ; 0x2748774C ; 0x34B0BCB5 ; 0x391C0CB3 ; 0x4ED8AA4A ; 0x5B9CCA4F ; 0x682E6FF3
  ; 0x748F82EE ; 0x78A5636F ; 0x84C87814 ; 0x8CC70208 ; 0x90BEFFFA ; 0xA4506CEB ; 0xBEF9A3F7 ; 0xC67178F2 ].

(** The eight working variables, and the hash value between blocks. *)
Record state : Type := mkState { sa : Z; sb : Z; sc : Z; sd : Z; se : Z; sf : Z; sg : Z; sh : Z }.

Definition H0 : state :=
  mkState 0x6A09E667 0xBB67AE85 0x3C6EF372 0xA54FF53A
          0x510E527F 0x9B05688C 0x1F83D9AB 0x5BE0CD19.

(** Padding: the byte [0x80], zero bytes up to 56 modulo 64, and the
    length of the message in bits as a 64-bit big-endian integer. *)
Fixpoint be_bytes (n : nat) (x : Z) : list Z :=
  match n with
  | O => []
  | S n' => (x / 256 ^ Z.of_nat n') mod 256 :: be_bytes n' x
  end.

Definition pad (msg : list Z) : list Z :=
  let l := Z.of_nat (length msg) in
  msg ++ [128] ++ repeat 0 (Z.to_nat ((55 - l) mod 64))
      ++ be_bytes 8 ((8 * l) mod 2 ^ 64).

(** Big-endian 32-bit words of a block. *)
Fixpoint words (n : nat) (bs : list Z) : list Z :=
  match n, bs with
  | S n', b0 :: b1 :: b2 :: b3 :: rest =>
      (((b0 * 256 + b1) * 256 + b2) * 256 + b3) :: words n' rest
  | _, _ => []
  end.

Fixpoint blocks (n : nat) (bs : list Z) : list (list Z) :=
  match n with
  | O => []
  | S n' => words 16 (firstn 64 bs) :: blocks n' (skipn 64 bs)
  end.

(** The message schedule, latest word first: [W t] for [t >= 16] is
    [sigma1 (W (t-2)) + W (t-7) + sigma0 (W (t-15)) + W (t-16)]. *)
Fixpoint extend (n : nat) (ws : list Z) : list Z :=
  match n with
  | O => ws
  | S n' =>
      let wt := add32 (add32 (add32 (sigma1 (nth 1 ws 0)) (nth 6 ws 0))
                             (sigma0 (nth 14 ws 0))) (nth 15 ws 0) in
      extend n' (wt :: ws)
  end.

Definition schedule (block : list Z) : list Z := rev (extend 48 (rev block)).

Definition round (s : state) (kw : Z * Z) : state :=
  let '(k, w) := kw in
  let T1 := add32 (add32 (add32 (add32 (sh s) (Sigma1 (se s))) (Ch (se s) (sf s) (sg s))) k) w in
  let T2 := add32 (Sigma0 (sa s)) (Maj (sa s) (sb s) (sc s)) in
  mkState (add32 T1 T2) (sa s) (sb s) (sc s) (add32 (sd s) T1) (se s) (sf s) (sg s).

Definition compress (h : state) (block : list Z) : state :=
  let s := fold_left round (combine K (schedule block)) h in
  mkState (add32 (sa h) (sa s)) (add32 (sb h) (sb s)) (add32 (sc h) (sc s))
          (add32 (sd h) (sd s)) (add32 (se h) (se s)) (add32 (sf h) (sf s))
          (add32 (sg h) (sg s)) (add32 (sh h) (sh s)).

(** [hashlib.sha256(msg).digest()]: 32 bytes. *)
Definition digest (msg : list Z) : list Z :=
  let p := pad msg in
  let h := fold_left compress (blocks (length p / 64) p) H0 in
  flat_map (be_bytes 4) [sa h; sb h; sc h; sd h; se h; sf h; sg h; sh h].

Definition hex_digit (d : Z) : Z := if d <? 10 then 48 + d else 87 + d.

(** [hashlib.sha256(msg).hexdigest()]: two lower-case hexadecimal digits
    per byte. *)
Definition hexdigest (msg : list Z) : PyStr.str :=
  flat_map (fun b => [hex_digit (b / 16); hex_digit (b mod 16)]) (digest msg).

End Sha256.

(** ** difflib

    [difflib.unified_diff] as the standard library computes it:
    [SequenceMatcher(None, a, b)] with its default [autojunk], the matching
    blocks, the opcodes, their grouping with three lines of context, and
    the lines of the unified format. Indices are positions in the two
    lists of lines. *)

Module Difflib.
Import PyStr.

Inductive tag : Type := Replace | Delete | Insert | Equal.

Definition tag_eqb (s t : tag) : bool :=
  match s, t with
  | Replace, Replace | Delete, Delete | Insert, Insert | Equal, Equal => true
  | _, _ => false
  end.

(** A match [(i, j, k)]: [a[i:i+k] == b[j:j+k]]. *)
Definition block : Type := nat * nat * nat.

(** An opcode [(tag, i1, i2, j1, j2)]. *)
Definition opcode : Type := tag * nat * nat * nat * nat.

Definition op_tag (o : opcode) : tag := let '(t, _, _, _, _) := o in t.

(** [l[i:j]] *)
Definition slice {A : Type} (l : list A) (i j : nat) : list A :=
  firstn (j - i) (skipn i l).

Section SequenceMatcher.

Variables a b : list str.

Definition item (l : list str) (i : nat) : str := nth i l [].

(** [__chain_b]: [b2j] maps a line of [b] to the positions where it
    stands, in increasing order. No line is junk ([isjunk] is [None]); when
    [b] has 200 lines or more, a line standing at more than
    [len(b) // 100 + 1] positions is popular and leaves the map. *)
Fixpoint indices_from (j : nat) (l : list str) (x : str) : list nat :=
  match l with
  | [] => []
  | y :: l' =>
      if str_eqb x y then j :: indices_from (S j) l' x
      else indices_from (S j) l' x
  end.

Definition popular (x : str) : bool :=
  (200 <=? length b)%nat
  && (length b / 100 + 1 <? length (indices_from 0 b x))%nat.

Definition b2j (x : str) : list nat :=
  if popular x then [] else indices_from 0 b x.

(** The dictionary [j2len]: [j2len.get(key, 0)]. *)
Fixpoint j2len_get (d : list (nat * nat)) (key : nat) : nat :=
  match d with
  | [] => O
  | (j, k) :: d' => if (j =? key)%nat then k else j2len_get d' key
  end.

(** The body of [for j in b2j.get(a[i], nothing)]: a position below [blo]
    is skipped, one at [bhi] or beyond ends the loop. *)
Fixpoint scan_row (i blo bhi : nat) (j2len : list (nat * nat)) (js : list nat)
    (newj2len : list (nat * nat)) (best : block) : list (nat * nat) * block :=
  match js with
  | [] => (newj2len, best)
  | j :: js' =>
      if (j <? blo)%nat then scan_row i blo bhi j2len js' newj2len best
      else if (bhi <=? j)%nat then (newj2len, best)
      else
        let k := S (match j with O => O | S j' => j2len_get j2len j' end) in
        let '(_, _, bestsize) := best in
        let best' := if (bestsize <? k)%nat then (S i - k, S j - k, k)%nat else best in
        scan_row i blo bhi j2len js' ((j, k) :: newj2len) best'
  end.

(** [for i in range(alo, ahi)], [n] rows starting at row [i]. *)
Fixpoint scan_rows (n i blo bhi : nat) (j2len : list (nat * nat)) (best : block) : block :=
  match n with
  | O => best
  | S n' =>
      let '(newj2len, best') := scan_row i blo bhi j2len (b2j (item a i)) [] best in
      scan_rows n' (S i) blo bhi newj2len best'
  end.

(** [while besti > alo and bestj > blo and a[besti-1] == b[bestj-1]] *)
Fixpoint extend_left (fuel alo blo : nat) (best : block) : block :=
  match fuel with
  | O => best
  | S fuel' =>
      let '(besti, bestj, bestsize) := best in
      if (alo <? besti)%nat && (blo <? bestj)%nat
         && str_eqb (item a (besti - 1)) (item b (bestj - 1))
      then extend_left fuel' alo blo (besti - 1, bestj - 1, S bestsize)%nat
      else best
  end.

(** [while besti+bestsize < ahi and bestj+bestsize < bhi and
    a[besti+bestsize] == b[bestj+bestsize]] *)
Fixpoint extend_right (fuel ahi bhi : nat) (best : block) : block :=
  match fuel with
  | O => best
  | S fuel' =>
      let '(besti, bestj, bestsize) := best in
      if (besti + bestsize <? ahi)%nat && (bestj + bestsize <? bhi)%nat
         && str_eqb (item a (besti + bestsize)) (item b (bestj + bestsize))
      then extend_right fuel' ahi bhi (besti, bestj, S bestsize)
      else best
  end.

(** [find_longest_match(alo, ahi, blo, bhi)]. The two loops that take in
    junk on each side never run: there is no junk. *)
Definition find_longest_match (alo ahi blo bhi : nat) : block :=
  let best := scan_rows (ahi - alo) alo blo bhi [] (alo, blo, O) in
  let best := extend_left (fst (fst best)) alo blo best in
  extend_right (ahi - (fst (fst best) + snd best)) ahi bhi best.

(** The loop of [get_matching_blocks]: [queue.pop()] takes the rectangle
    pushed last, so the head of the list is the end of Python's. [None]
    when [fuel] iterations did not empty the queue. *)
Fixpoint blocks_loop (fuel : nat) (queue : list (nat * nat * nat * nat))
    (matching_blocks : list block) : option (list block) :=
  match queue with
  | [] => Some matching_blocks
  | (alo, ahi, blo, bhi) :: queue' =>
      match fuel with
      | O => None
      | S fuel' =>
          let '(i, j, k) := find_longest_match alo ahi blo bhi in
          match k with
          | O => blocks_loop fuel' queue' matching_blocks
          | S _ =>
              let q1 := if (alo <? i)%nat && (blo <? j)%nat
                        then (alo, i, blo, j) :: queue' else queue' in
              let q2 := if (i + k <? ahi)%nat && (j + k <? bhi)%nat
                        then (i + k, ahi, j + k, bhi)%nat :: q1 else q1 in
              blocks_loop fuel' q2 (matching_blocks ++ [(i, j, k)])
          end
      end
  end.

(** [matching_blocks.sort()]: triples compare component by component. *)
Definition block_leb (x y : block) : bool :=
  let '(i1, j1, k1) := x in
  let '(i2, j2, k2) := y in
  (i1 <? i2)%nat
  || ((i1 =? i2)%nat && ((j1 <? j2)%nat || ((j1 =? j2)%nat && (k1 <=? k2)%nat))).

Fixpoint insert_block (x : block) (l : list block) : list block :=
  match l with
  | [] => [x]
  | y :: l' => if block_leb x y then x :: l else y :: insert_block x l'
  end.

Definition sort_blocks (l : list block) : list block :=
  fold_right insert_block [] l.

(** Adjacent equal blocks collapse into one. *)
Fixpoint collapse (cur : block) (l : list block) : list block :=
  let '(i1, j1, k1) := cur in
  match l with
  | [] => match k1 with O => [] | S _ => [cur] end
  | (i2, j2, k2) :: l' =>
      if ((i1 + k1 =? i2) && (j1 + k1 =? j2))%nat
      then collapse (i1, j1, k1 + k2)%nat l'
      else match k1 with
           | O => collapse (i2, j2, k2) l'
           | S _ => cur :: collapse (i2, j2, k2) l'
           end
  end.

(** [get_matching_blocks()]. The loop runs at most [2 * len(a) + 1] times
    ([blocks_loop_total] below), so the second case never occurs. *)
Definition get_matching_blocks : list block :=
  let la := length a in
  let lb := length b in
  match blocks_loop (2 * la + 1) [(O, la, O, lb)] [] with
  | Some matching_blocks => collapse (O, O, O) (sort_blocks matching_blocks) ++ [(la, lb, O)]
  | None => [(la, lb, O)]
  end.

(** [get_opcodes()] *)
Fixpoint opcodes_from (i j : nat) (blocks : list block) : list opcode :=
  match blocks with
  | [] => []
  | (ai, bj, size) :: rest =>
      let change :=
        if (i <? ai)%nat && (j <? bj)%nat then [(Replace, i, ai, j, bj)]
        else if (i <? ai)%nat then [(Delete, i, ai, j, bj)]
        else if (j <? bj)%nat then [(Insert, i, ai, j, bj)]
        else [] in
      let same :=
        match size with
        | O => []
        | S _ => [(Equal, ai, ai + size, bj, bj + size)%nat]
        end in
      change ++ same ++ opcodes_from (ai + size) (bj + size) rest
  end.

Definition get_opcodes : list opcode := opcodes_from O O get_matching_blocks.

(** The first step of [get_grouped_opcodes(n)]: a leading and a trailing
    [equal] keep [n] lines next to the changes. *)
Definition trim_first (n : nat) (codes : list opcode) : list opcode :=
  match codes with
  | (Equal, i1, i2, j1, j2) :: rest =>
      (Equal, Nat.max i1 (i2 - n), i2, Nat.max j1 (j2 - n), j2) :: rest
  | _ => codes
  end.

Fixpoint trim_last (n : nat) (codes : list opcode) : list opcode :=
  match codes with
  | [] => []
  | [(Equal, i1, i2, j1, j2)] =>
      [(Equal, i1, Nat.min i2 (i1 + n), j1, Nat.min j2 (j1 + n))]
  | c :: rest => c :: trim_last n rest
  end.

(** The loop of [get_grouped_opcodes]: a long [equal] ends the group and
    starts the next one. *)
Fixpoint group_loop (n : nat) (codes : list opcode) (group : list opcode)
    : list (list opcode) :=
  match codes with
  | [] =>
      match group with
      | [] => []
      | [(Equal, _, _, _, _)] => []
      | _ => [group]
      end
  | (t, i1, i2, j1, j2) :: rest =>
      if tag_eqb t Equal && (n + n <? i2 - i1)%nat
      then (group ++ [(t, i1, Nat.min i2 (i1 + n), j1, Nat.min j2 (j1 + n))])
           :: group_loop n rest [(t, Nat.max i1 (i2 - n), i2, Nat.max j1 (j2 - n), j2)]
      else group_loop n rest (group ++ [(t, i1, i2, j1, j2)])
  end.

Definition get_grouped_opcodes (n : nat) : list (list opcode) :=
  let codes := match get_opcodes with
               | [] => [(Equal, 0, 1, 0, 1)%nat]
               | c :: cs => c :: cs
               end in
  group_loop n (trim_last n (trim_first n codes)) [].

(** [_format_range_unified(start, stop)] *)
Definition format_range_unified (start stop : nat) : str :=
  let length := (stop - start)%nat in
  match length with
  | 1%nat => str_of_nat (start + 1)
  | O => str_of_nat start ++ lit "," ++ str_of_nat length
  | _ => str_of_nat (start + 1) ++ lit "," ++ str_of_nat length
  end.

(** The lines of one opcode in a hunk. *)
Definition opcode_lines (o : opcode) : list str :=
  let '(t, i1, i2, j1, j2) := o in
  match t with
  | Equal => map (fun line => lit " " ++ line) (slice a i1 i2)
  | Replace =>
      map (fun line => lit "-" ++ line) (slice a i1 i2)
      ++ map (fun line => lit "+" ++ line) (slice b j1 j2)
  | Delete => map (fun line => lit "-" ++ line) (slice a i1 i2)
  | Insert => map (fun line => lit "+" ++ line) (slice b j1 j2)
  end.

Definition hunk (group : list opcode) : list str :=
  match group, rev group with
  | (_, f1, _, f3, _) :: _, (_, _, l2, _, l4) :: _ =>
      (lit "@@ -" ++ format_range_unified f1 l2 ++ lit " +"
         ++ format_range_unified f3 l4 ++ lit " @@")
      :: flat_map opcode_lines group
  | _, _ => []
  end.

(** [unified_diff(a, b, fromfile, tofile, lineterm="")] with the default
    three lines of context and no file dates: the two header lines come
    with the first hunk. *)
Definition unified_diff (fromfile tofile : str) : list str :=
  match get_grouped_opcodes 3 with
  | [] => []
  | groups =>
      (lit "--- " ++ fromfile) :: (lit "+++ " ++ tofile) :: flat_map hunk groups
  end.

End SequenceMatcher.

End Difflib.

(** ** The program: [app.py] *)

Module App.
Import PyStr Soup.

(** *** Exceptions

    The calls of [save_if_changed] raise on two conditions of their
    arguments and of the table: a string with a surrogate cannot be encoded
    (by [hash_content], or when SQLite binds a parameter), and a table
    whose [AUTOINCREMENT] key has reached the largest 64-bit integer takes
    no more rows. *)
Inductive exn : Type := UnicodeEncodeError | DatabaseFull.

Inductive result (A : Type) : Type :=
| Ok (x : A)
| Raise (e : exn).
Arguments Ok {A} x.
Arguments Raise {A} e.

Definition bind {A B : Type} (m : result A) (f : A -> result B) : result B :=
  match m with
  | Ok x => f x
  | Raise e => Raise e
  end.

Notation "x <- m ;; k" := (bind m (fun x => k))
  (at level 61, m at next level, right associativity).

(** *** The dataclass and the table *)

Record NormaVersion : Type := {
  id : Z;
  norma_id : str;
  fetched_at : str;
  source_url : str;
  content_hash : str;
  content_text : str
}.

(** The table [norma_versions], its rows in the order of their key, and
    the counter SQLite keeps for [AUTOINCREMENT]: the largest key the table
    ever held. [init_db] creates the table and the index
    [idx_norma_versions_lookup] on [(norma_id, fetched_at)] when they do
    not exist. *)
Record db : Type := {
  norma_versions : list NormaVersion;
  sqlite_sequence : Z
}.

Definition empty_db : db := {| norma_versions := []; sqlite_sequence := 0 |}.

Definition max_rowid : Z := 9223372036854775807.

(** *** [normalize_text] (lines 51-53) *)
Definition normalize_text (text : str) : str :=
  let compact := re_sub_ws false text in
  strip compact.

(** *** [extract_norma_text] (lines 56-66)

    [BeautifulSoup] stands for [BeautifulSoup(html, "html.parser")]. *)
Definition selectors : list str :=
  map lit ["script"; "style"; "nav"; "footer"; "header"]%string.

Section Normalizer.

Variable BeautifulSoup : str -> soup.

Definition extract_norma_text (html : str) : str :=
  let sp := BeautifulSoup html in
  let sp := fold_left (fun sp selector => decompose_all selector sp) selectors sp in
  let text := get_text [LF] sp in
  let lines := map normalize_text (splitlines text) in
  let cleaned_lines := filter (fun line => 2 <? len line) lines in
  join [LF] cleaned_lines.

End Normalizer.

(** *** [hash_content] (lines 69-70) *)
Definition hash_content (content_text : str) : result str :=
  match Utf8.encode content_text with
  | Some data => Ok (Sha256.hexdigest data)
  | None => Raise UnicodeEncodeError
  end.

(** *** The queries

    SQLite binds a [str] parameter as its UTF-8 encoding. *)
Definition bind_text (s : str) : result unit :=
  match Utf8.encode s with
  | Some _ => Ok tt
  | None => Raise UnicodeEncodeError
  end.

(** The order of [TEXT] values: byte by byte on the UTF-8 encoding, which
    orders strings as their code points do, a proper prefix first. *)
Fixpoint text_compare (x y : str) : comparison :=
  match x, y with
  | [], [] => Eq
  | [], _ :: _ => Lt
  | _ :: _, [] => Gt
  | c :: x', d :: y' =>
      match c ?= d with
      | Eq => text_compare x' y'
      | o => o
      end
  end.

(** The order of the entries of [idx_norma_versions_lookup] that share a
    [norma_id]: by [fetched_at], then by the key of the row. *)
Definition index_leb (r1 r2 : NormaVersion) : bool :=
  match text_compare (fetched_at r1) (fetched_at r2) with
  | Lt => true
  | Eq => id r1 <=? id r2
  | Gt => false
  end.

Fixpoint index_insert (r : NormaVersion) (entries : list NormaVersion) : list NormaVersion :=
  match entries with
  | [] => [r]
  | e :: rest => if index_leb r e then r :: entries else e :: index_insert r rest
  end.

(** [WHERE norma_id = ? ORDER BY fetched_at ASC]: the entries of the index
    for the identifier, walked forwards. *)
Definition index_scan (norma : str) (d : db) : list NormaVersion :=
  fold_right index_insert []
    (filter (fun r => str_eqb (norma_id r) norma) (norma_versions d)).

(** *** [get_latest_version] (lines 79-96)

    [ORDER BY fetched_at DESC LIMIT 1]: the index walked backwards, first
    entry. *)
Definition get_latest_version (d : db) (norma : str) : result (option NormaVersion) :=
  _ <- bind_text norma ;;
  Ok (hd_error (rev (index_scan norma d))).

(** *** [list_versions] (lines 124-137) *)
Definition list_versions (d : db) (norma : str) : result (list NormaVersion) :=
  _ <- bind_text norma ;;
  Ok (index_scan norma d).

(** *** The clock

    [datetime.utcnow().isoformat(timespec="seconds") + "Z"] *)
Record datetime : Type := {
  year : Z; month : Z; day : Z; hour : Z; minute : Z; second : Z; microsecond : Z
}.

(** ["%0*d"] for a number that is not negative. *)
Definition zero_pad (width : nat) (n : Z) : str :=
  let digits := str_of_nat (Z.to_nat n) in
  repeat 48 (width - length digits) ++ digits.

Definition isoformat_seconds (t : datetime) : str :=
  zero_pad 4 (year t) ++ lit "-" ++ zero_pad 2 (month t) ++ lit "-" ++ zero_pad 2 (day t)
  ++ lit "T" ++ zero_pad 2 (hour t) ++ lit ":" ++ zero_pad 2 (minute t)
  ++ lit ":" ++ zero_pad 2 (second t).

(** *** [save_if_changed] (lines 99-121)

    [utcnow] is the reading of the clock at the call. The result comes
    with the table after the call; an exception leaves the table as it
    was. *)
Definition next_rowid (d : db) : Z :=
  fold_right Z.max (sqlite_sequence d) (map id (norma_versions d)) + 1.

Definition insert_row (d : db) (norma fetched url hash text : str) : result db :=
  _ <- bind_text norma ;;
  _ <- bind_text fetched ;;
  _ <- bind_text url ;;
  _ <- bind_text hash ;;
  _ <- bind_text text ;;
  if max_rowid <? next_rowid d then Raise DatabaseFull
  else
    let row := {| id := next_rowid d; norma_id := norma; fetched_at := fetched;
                  source_url := url; content_hash := hash; content_text := text |} in
    Ok {| norma_versions := norma_versions d ++ [row];
          sqlite_sequence := next_rowid d |}.

Definition save_if_changed (d : db) (utcnow : datetime)
    (norma url content : str) : result (bool * str) * db :=
  match hash_content content with
  | Raise e => (Raise e, d)
  | Ok new_hash =>
      match get_latest_version d norma with
      | Raise e => (Raise e, d)
      | Ok latest =>
          let unchanged :=
            match latest with
            | Some v => str_eqb (content_hash v) new_hash
            | None => false
            end in
          if unchanged then (Ok (false, new_hash), d)
          else
            match insert_row d norma (isoformat_seconds utcnow ++ lit "Z")
                             url new_hash content with
            | Raise e => (Raise e, d)
            | Ok d' => (Ok (true, new_hash), d')
            end
      end
  end.

(** *** [iter_changes] (lines 147-156) *)
Definition fromfile : str := lit "versi" ++ [243] ++ lit "n anterior".
Definition tofile : str := lit "versi" ++ [243] ++ lit "n nueva".

Definition is_change_line (line : str) : bool :=
  (startswith (lit "+") line || startswith (lit "-") line)
  && negb (startswith (lit "+++") line || startswith (lit "---") line).

Definition iter_changes (old_text new_text : str) : list str :=
  filter is_change_line
    (Difflib.unified_diff (splitlines old_text) (splitlines new_text) fromfile tofile).

End App.

(** ** The page: [init_db], [fetch_norma], [html_diff] and [main] *)

Module Page.
Import PyStr Soup App.

(** *** requests

    What [requests.get] returns: the status line, the URL and the decoded
    body of the response. *)
Record Response : Type := {
  status_code : Z;
  reason : str;
  url : str;
  text : str
}.

(** The exceptions of a run of the page: [requests.RequestException] and
    its subclasses ([HTTPError], [ConnectionError], [Timeout], ...), with
    the text [str(exc)] gives, and the exceptions of the store. *)
Inductive exception : Type :=
| RequestException (message : str)
| StoreException (e : exn).

Inductive outcome (A : Type) : Type :=
| Return (x : A)
| Raised (e : exception).
Arguments Return {A} x.
Arguments Raised {A} e.

(** [response.raise_for_status()] *)
Definition raise_for_status (response : Response) : outcome unit :=
  let status := str_of_nat (Z.to_nat (status_code response)) in
  if (400 <=? status_code response) && (status_code response <? 500) then
    Raised (RequestException
              (status ++ lit " Client Error: " ++ reason response
                 ++ lit " for url: " ++ url response))
  else if (500 <=? status_code response) && (status_code response <? 600) then
    Raised (RequestException
              (status ++ lit " Server Error: " ++ reason response
                 ++ lit " for url: " ++ url response))
  else Return tt.

(** *** Streamlit

    The elements a run writes to the page, in the order of the calls. The
    widgets are the inputs of the run: the two text inputs, the button and
    the two select boxes, [None] for a select box the user has not
    touched. The configuration of the page, the columns and the spinner
    write no element. *)
Inductive element : Type :=
| title (body : str)
| caption (body : str)
| subheader (body : str)
| write (body : str)
| markdown (body : str) (unsafe_allow_html : bool)
| success (body : str)
| info (body : str)
| warning (body : str)
| error (body : str)
| components_html (body : str) (height : Z) (scrolling : bool).

Record session : Type := {
  input_norma_id : str;
  input_norma_url : str;
  button_capturar : bool;
  select_old_idx : option nat;
  select_new_idx : option nat
}.

(** [st.selectbox(options=range(n), index=index)]: the option the user
    chose, or the one at [index]. *)
Definition selectbox (n index : nat) (choice : option nat) : nat :=
  match choice with
  | Some i => if (i <? n)%nat then i else index
  | None => index
  end.

(** *** The run

    A run reads and changes the table and writes to the page; it ends with
    a value or with an exception. *)
Record world : Type := {
  database : db;
  page : list element
}.

Definition script (A : Type) : Type := world -> outcome A * world.

Definition ret {A : Type} (x : A) : script A := fun w => (Return x, w).

Definition and_then {A B : Type} (m : script A) (f : A -> script B) : script B :=
  fun w =>
    match m w with
    | (Return x, w') => f x w'
    | (Raised e, w') => (Raised e, w')
    end.

Notation "x <~ m ;; k" := (and_then m (fun x => k))
  (at level 61, m at next level, right associativity).

Definition emit (e : element) : script unit :=
  fun w => (Return tt, {| database := database w; page := page w ++ [e] |}).

Definition lift {A : Type} (r : outcome A) : script A := fun w => (r, w).

Definition of_result {A : Type} (r : result A) : outcome A :=
  match r with
  | Ok x => Return x
  | Raise e => Raised (StoreException e)
  end.

(** A call that reads the table, and one that may change it. *)
Definition query {A : Type} (f : db -> result A) : script A :=
  fun w => (of_result (f (database w)), w).

Definition update {A : Type} (f : db -> result A * db) : script A :=
  fun w =>
    (of_result (fst (f (database w))),
     {| database := snd (f (database w)); page := page w |}).

(** [try: body except requests.RequestException as exc: handler] *)
Definition try_except {A : Type} (body : script A) (handler : str -> script A) : script A :=
  fun w =>
    match body w with
    | (Raised (RequestException message), w') => handler message w'
    | other => other
    end.

(** [enumerate(l, start)] *)
Fixpoint enumerate {A : Type} (start : nat) (l : list A) : list (nat * A) :=
  match l with
  | [] => []
  | x :: l' => (start, x) :: enumerate (S start) l'
  end.

(** *** [init_db] (lines 29-48)

    The file of the database holds the table or does not hold it yet:
    [CREATE TABLE IF NOT EXISTS] and [CREATE INDEX IF NOT EXISTS]. *)
Definition init_db (file : option db) : db :=
  match file with
  | Some d => d
  | None => empty_db
  end.

Section Run.

(** The parser, the network, [HtmlDiff(tabsize=2, wrapcolumn=120).make_table]
    with [context=True, numlines=4], and the reading of the clock. *)
Variable BeautifulSoup : str -> soup.
Variable requests_get : str -> Z -> outcome Response.
Variable make_table : list str -> list str -> str.
Variable utcnow : datetime.

(** *** [fetch_norma] (lines 73-76) *)
Definition fetch_norma (url : str) (timeout_s : Z) : outcome str :=
  match requests_get url timeout_s with
  | Raised e => Raised e
  | Return response =>
      match raise_for_status response with
      | Raised e => Raised e
      | Return _ => Return (extract_norma_text BeautifulSoup (text response))
      end
  end.

(** *** [html_diff] (lines 140-144) *)
Definition html_diff (old_text new_text : str) : str :=
  let old_lines := splitlines old_text in
  let new_lines := splitlines new_text in
  make_table old_lines new_lines.

(** *** [main] (lines 159-248) *)

(** Lines 177-190: the button. *)
Definition capture (norma_id norma_url : str) : script unit :=
  match norma_id, norma_url with
  | [], _ | _, [] => emit (error (lit "Debes ingresar ID y URL."))
  | _, _ =>
      try_except
        (content <~ lift (fetch_norma norma_url 30) ;;
         saved <~ update (fun d => save_if_changed d utcnow norma_id norma_url content) ;;
         let '(inserted, content_hash) := saved in
         if inserted : bool
         then emit (success (lit "Nueva versi" ++ [243] ++ lit "n guardada. Hash: "
                               ++ firstn 12 content_hash))
         else emit (info (lit "No hubo cambios respecto de la " ++ [250]
                            ++ lit "ltima versi" ++ [243] ++ lit "n guardada.")))
        (fun exc => emit (error (lit "Error al descargar la norma: " ++ exc)))
  end.

(** Lines 199-200: the history. *)
Definition history_line (idx : nat) (version : NormaVersion) : element :=
  write (str_of_nat idx ++ lit ". " ++ fetched_at version ++ lit " " ++ [8212]
           ++ lit " hash " ++ firstn 12 (content_hash version)).

(** Lines 237-241: the lines of the summary. *)
Definition change_elements (line : str) : list element :=
  if startswith (lit "+") line then
    [markdown (lit "<span style='color:#008000'>" ++ line ++ lit "</span>") true]
  else if startswith (lit "-") line then
    [markdown (lit "<span style='color:#cc0000'>" ++ line ++ lit "</span>") true]
  else [].

(** Lines 232-244: the summary. *)
Definition summary (changes : list str) : list element :=
  markdown (lit "#### Cambios relevantes (resumen)") false
  :: match changes with
     | [] => [info (lit "No se detectaron cambios de texto.")]
     | _ :: _ =>
         flat_map change_elements (firstn 200 changes)
         ++ (if (200 <? length changes)%nat
             then [caption (lit "Se muestran 200 de " ++ str_of_nat (length changes)
                              ++ lit " cambios detectados.")]
             else [])
     end.

(** Lines 206-248: the comparator, for two versions or more. *)
Definition comparator (versions : list NormaVersion) (s : session) : list element :=
  let old_idx := selectbox (length versions) (length versions - 2) (select_old_idx s) in
  let new_idx := selectbox (length versions) (length versions - 1) (select_new_idx s) in
  subheader (lit "Comparador")
  :: if (new_idx <=? old_idx)%nat then
       [error (lit "La versi" ++ [243] ++ lit "n base debe ser anterior a la versi"
                 ++ [243] ++ lit "n nueva.")]
     else
       match nth_error versions old_idx, nth_error versions new_idx with
       | Some old_version, Some new_version =>
           summary (iter_changes (content_text old_version) (content_text new_version))
           ++ [markdown (lit "#### Vista detallada") false;
               components_html
                 (html_diff (content_text old_version) (content_text new_version))
                 600 true]
       | _, _ => []
       end.

(** Lines 194-204: the history and, for two versions or more, the
    comparator. *)
Definition versions_view (versions : list NormaVersion) (s : session) : list element :=
  subheader (lit "Historial de versiones")
  :: match versions with
     | [] => [info (lit "A" ++ [250] ++ lit "n no hay versiones para este ID.")]
     | _ :: _ =>
         map (fun entry => history_line (fst entry) (snd entry)) (enumerate 1 versions)
         ++ (if (length versions <? 2)%nat
             then [warning (lit "Se necesitan al menos 2 versiones para mostrar diferencias.")]
             else comparator versions s)
     end.

Definition emit_all (elements : list element) : script unit :=
  fun w => (Return tt, {| database := database w; page := page w ++ elements |}).

Definition main_script (s : session) : script unit :=
  _ <~ emit (title (lit "SPIJ Tracker de normas")) ;;
  _ <~ emit (caption
               (lit "Monitorea versiones de una norma y resalta cambios hist" ++ [243]
                  ++ lit "ricos. " ++ [218] ++ lit "salo con URLs p" ++ [250]
                  ++ lit "blicas y respetando los t" ++ [233]
                  ++ lit "rminos de uso del portal.")) ;;
  let norma_id := input_norma_id s in
  let norma_url := input_norma_url s in
  _ <~ (if button_capturar s then capture norma_id norma_url else ret tt) ;;
  versions <~ match norma_id with
              | [] => ret []
              | _ :: _ => query (fun d => list_versions d norma_id)
              end ;;
  emit_all (versions_view versions s).

(** The run of [main] on the file of the database: its end, the table and
    the page. *)
Definition main (file : option db) (s : session) : outcome unit * world :=
  main_script s {| database := init_db file; page := [] |}.

End Run.

End Page.

(** ** Vocabulary of the specification

    The definitions of this module follow the words of the specification;
    the theorems compare them with the program. *)

Module Spec.
Import PyStr Soup App.

(** The maximal runs of characters that are no white space, in order:
    Python's [text.split()]. *)
Fixpoint split_ws (s : str) : list str :=
  match s with
  | [] => []
  | c :: rest =>
      if isspace c then split_ws rest
      else match split_ws rest with
           | w :: ws => if match rest with d :: _ => isspace d | [] => true end
                        then [c] :: w :: ws else (c :: w) :: ws
           | [] => [[c]]
           end
  end.

(** A line in canonical form: longer than two characters, no white space
    at either end, and no white space inside but single spaces. *)
Record canonical_line (l : str) : Prop := {
  cl_long : 2 < len l;
  cl_no_leading : forall c rest, l = c :: rest -> isspace c = false;
  cl_no_trailing : forall c pre, l = pre ++ [c] -> isspace c = false;
  cl_no_newline : ~ In LF l;
  cl_only_spaces : forall c, In c l -> isspace c = true -> c = SP;
  cl_no_run : forall pre c d post,
      l = pre ++ c :: d :: post -> isspace c = true -> isspace d = false
}.

(** A tag that opens one of the regions named by [regions]. *)
Definition in_regions (regions : list str) (name : str) : bool :=
  existsb (fun r => str_eqb (ascii_lower name) (ascii_lower r)) regions.

(** The strings of the text outside the regions, in document order. *)
Fixpoint strings_outside (regions : list str) (n : node) : list str :=
  match n with
  | NavigableString s => [s]
  | OtherString _ => []
  | Tag name contents =>
      if in_regions regions name then []
      else flat_map (strings_outside regions) contents
  end.

(** The regions the normalizer removes: script, style, nav, footer and
    header. *)
Definition content_strings : node -> list str := strings_outside selectors.

(** The markup of the example of the specification, and the text the
    specification gives for it. *)
Definition example_markup : str :=
  lit "<p>Hello   world</p>" ++ [LF] ++ lit "<script>ignore()</script>"
  ++ [LF] ++ lit "<p>ok</p>".

Definition example_text_of_spec : str := lit "Hello world" ++ [LF] ++ lit "ok".

(** Reading UTF-8 back: the code points of a byte string, when it is the
    shortest encoding of code points that are no surrogates. *)
Definition continuation (b : Z) : bool := (128 <=? b) && (b <? 192).

Fixpoint utf8_decode (data : list Z) : option str :=
  match data with
  | [] => Some []
  | b0 :: r0 =>
      if (0 <=? b0) && (b0 <? 128) then option_map (cons b0) (utf8_decode r0)
      else if (192 <=? b0) && (b0 <? 224) then
        match r0 with
        | b1 :: r1 =>
            let c := (b0 - 192) * 64 + (b1 - 128) in
            if continuation b1 && (128 <=? c)
            then option_map (cons c) (utf8_decode r1) else None
        | _ => None
        end
      else if (224 <=? b0) && (b0 <? 240) then
        match r0 with
        | b1 :: b2 :: r2 =>
            let c := ((b0 - 224) * 64 + (b1 - 128)) * 64 + (b2 - 128) in
            if continuation b1 && continuation b2 && (2048 <=? c)
               && negb ((55296 <=? c) && (c <=? 57343))
            then option_map (cons c) (utf8_decode r2) else None
        | _ => None
        end
      else if (240 <=? b0) && (b0 <? 248) then
        match r0 with
        | b1 :: b2 :: b3 :: r3 =>
            let c := (((b0 - 240) * 64 + (b1 - 128)) * 64 + (b2 - 128)) * 64 + (b3 - 128) in
            if continuation b1 && continuation b2 && continuation b3
               && (65536 <=? c) && (c <? 1114112)
            then option_map (cons c) (utf8_decode r3) else None
        | _ => None
        end
      else None
  end.

(** Reading hexadecimal back: the bytes of a string of lower-case
    hexadecimal digits, two digits to a byte. *)
Definition is_lower_hex (c : Z) : Prop := 48 <= c <= 57 \/ 97 <= c <= 102.

Definition hex_value (c : Z) : option Z :=
  if (48 <=? c) && (c <=? 57) then Some (c - 48)
  else if (97 <=? c) && (c <=? 102) then Some (c - 87)
  else None.

Fixpoint unhex (s : str) : option (list Z) :=
  match s with
  | [] => Some []
  | hi :: lo :: rest =>
      match hex_value hi, hex_value lo, unhex rest with
      | Some x, Some y, Some data => Some (16 * x + y :: data)
      | _, _, _ => None
      end
  | _ => None
  end.

Definition is_byte (b : Z) : Prop := 0 <= b < 256.

(** The time stamp of a capture, the row it appends, and the table with
    the row. *)
Definition stamp (utcnow : datetime) : str := isoformat_seconds utcnow ++ lit "Z".

Definition new_version (d : db) (utcnow : datetime) (norma url content hash : str)
    : NormaVersion :=
  {| id := next_rowid d; norma_id := norma; fetched_at := stamp utcnow;
     source_url := url; content_hash := hash; content_text := content |}.

Definition with_version (d : db) (row : NormaVersion) : db :=
  {| norma_versions := norma_versions d ++ [row]; sqlite_sequence := id row |}.

(** The history of an identifier: its rows, in the order of the table. *)
Definition history (norma : str) (d : db) : list NormaVersion :=
  filter (fun r => str_eqb (norma_id r) norma) (norma_versions d).

(** The order of [fetched_at] values. *)
Definition text_lt (x y : str) : Prop := text_compare x y = Lt.
Definition text_le (x y : str) : Prop := text_compare x y <> Gt.

(** [r1] comes no later than [r2]: an earlier [fetched_at], or the same
    and a key that is not greater. *)
Definition version_le (r1 r2 : NormaVersion) : Prop :=
  text_lt (fetched_at r1) (fetched_at r2)
  \/ (fetched_at r1 = fetched_at r2 /\ id r1 <= id r2).

(** The rows of the table stand in the order of their keys, which differ. *)
Definition rowid_ordered (d : db) : Prop :=
  StronglySorted (fun r1 r2 => id r1 < id r2) (norma_versions d).

(** The clock never ran backwards between two captures of the identifier. *)
Definition chronological (norma : str) (d : db) : Prop :=
  StronglySorted (fun r1 r2 => text_le (fetched_at r1) (fetched_at r2)) (history norma d).

(** The invariant of the table: the hash of every row is the fingerprint
    of its text. *)
Definition hashes_match (d : db) : Prop :=
  Forall (fun r => hash_content (content_text r) = Ok (content_hash r)) (norma_versions d).

(** A capture: the reading of the clock and the arguments of one call of
    [save_if_changed]; and the table after a sequence of captures. *)
Record capture : Type := {
  cap_clock : datetime;
  cap_norma : str;
  cap_url : str;
  cap_text : str
}.

Definition capture_all (calls : list capture) (d : db) : db :=
  fold_left
    (fun d c => snd (save_if_changed d (cap_clock c) (cap_norma c) (cap_url c) (cap_text c)))
    calls d.

(** The entries of the change summary an opcode gives: the removed lines
    that do not begin with "--" and the added lines that do not begin with
    "++", each after its mark. *)
Definition removed_entries (lines : list str) : list str :=
  map (fun line => lit "-" ++ line)
    (filter (fun line => negb (startswith (lit "--") line)) lines).

Definition added_entries (lines : list str) : list str :=
  map (fun line => lit "+" ++ line)
    (filter (fun line => negb (startswith (lit "++") line)) lines).

Definition summary_entries (a b : list str) (o : Difflib.opcode) : list str :=
  let '(t, i1, i2, j1, j2) := o in
  match t with
  | Difflib.Equal => []
  | Difflib.Replace =>
      removed_entries (Difflib.slice a i1 i2) ++ added_entries (Difflib.slice b j1 j2)
  | Difflib.Delete => removed_entries (Difflib.slice a i1 i2)
  | Difflib.Insert => added_entries (Difflib.slice b j1 j2)
  end.

(** The number a string of decimal digits writes. *)
Definition digits_value (s : str) : Z :=
  fold_left (fun v d => 10 * v + (d - 48)) s 0.

(** A text that does not begin with white space. *)
Definition starts_nonspace (l : str) : Prop :=
  match l with
  | c :: _ => isspace c = false
  | [] => True
  end.

(** A text after [re.sub]: every white-space character is a space
    followed by a character that is none. *)
Fixpoint collapsed (l : str) : Prop :=
  match l with
  | [] => True
  | c :: rest => (isspace c = true -> c = SP /\ starts_nonspace rest) /\ collapsed rest
  end.

(** The lines [extract_norma_text] keeps. *)
Definition cleaned_lines (BeautifulSoup : str -> soup) (html : str) : list str :=
  filter (fun line => 2 <? len line)
    (map normalize_text
       (splitlines (join [LF] (flat_map content_strings (BeautifulSoup html))))).

(** Bytes in hexadecimal, as [hexdigest] writes the digest. *)
Definition hex_of_bytes (data : list Z) : str :=
  flat_map (fun b => [Sha256.hex_digit (b / 16); Sha256.hex_digit (b mod 16)]) data.

End Spec.

(** ** Vocabulary of the matcher

    The notions the proofs about [SequenceMatcher] are stated with. *)

Module MatcherSpec.
Import PyStr Difflib.

Local Open Scope nat_scope.

(** A rectangle [(alo, ahi, blo, bhi)] of positions of the two sequences;
    the rectangle a block covers; a rectangle wholly before another, in
    both sequences; two rectangles apart; a rectangle inside another. *)
Definition rect : Type := (nat * nat * nat * nat)%type.

Definition block_rect (x : block) : rect :=
  let '(i, j, k) := x in (i, i + k, j, j + k).

Definition before (r1 r2 : rect) : Prop :=
  let '(_, ahi1, _, bhi1) := r1 in
  let '(alo2, _, blo2, _) := r2 in
  ahi1 <= alo2 /\ bhi1 <= blo2.

Definition apart (r1 r2 : rect) : Prop := before r1 r2 \/ before r2 r1.

Definition inside (r outer : rect) : Prop :=
  let '(alo, ahi, blo, bhi) := r in
  let '(alo', ahi', blo', bhi') := outer in
  alo' <= alo /\ ahi <= ahi' /\ blo' <= blo /\ bhi <= bhi'.

(** Rectangles that are apart, each from every other. *)
Fixpoint pairwise (l : list rect) : Prop :=
  match l with
  | [] => True
  | r :: l' => Forall (apart r) l' /\ pairwise l'
  end.

Definition bbefore (x y : block) : Prop := before (block_rect x) (block_rect y).

Definition starts_from (cur e : block) : Prop :=
  fst (fst cur) <= fst (fst e) /\ snd (fst cur) <= snd (fst e).

(** The blocks follow one another from [(i, j)] on. *)
Fixpoint chain (i j : nat) (blocks : list block) : Prop :=
  match blocks with
  | [] => True
  | (ai, bj, size) :: rest => i <= ai /\ j <= bj /\ chain (ai + size) (bj + size) rest
  end.

(** The measure that bounds the loop of [get_matching_blocks]. *)
Definition queue_measure (queue : list rect) : nat :=
  fold_right (fun r m => let '(alo, ahi, _, _) := r in 2 * (ahi - alo) + 1 + m) 0 queue.

(** An opcode that is no [equal]. *)
Definition is_change (o : opcode) : bool := negb (tag_eqb (op_tag o) Equal).

(** [j2len.get(j - 1, 0)] *)
Definition prev_len (j2len : list (nat * nat)) (j : nat) : nat :=
  match j with
  | O => O
  | S j' => j2len_get j2len j'
  end.

Section Sequences.

Variables a b : list str.

(** A block lies in a rectangle and matches line for line. *)
Definition match_in (alo ahi blo bhi : nat) (x : block) : Prop :=
  let '(i, j, k) := x in
  alo <= i /\ i + k <= ahi /\ blo <= j /\ j + k <= bhi
  /\ forall t, t < k -> item a (i + t) = item b (j + t).

(** The dictionary of a row maps a position [j] of [b] to the length of
    the match that ends at the row and at [j]; [n] is the row that
    follows. *)
Definition dict_ok (alo blo bhi n : nat) (d : list (nat * nat)) : Prop :=
  forall j,
    let k := j2len_get d j in
    k <= n - alo /\ k <= S j - blo /\ (0 < k -> j < bhi)
    /\ forall t, t < k -> item a (n - 1 - t) = item b (j - t).

Definition rect_ok (r : rect) : Prop :=
  let '(alo, ahi, blo, bhi) := r in
  alo <= ahi /\ ahi <= length a /\ blo <= bhi /\ bhi <= length b.

(** A block, perhaps empty, that matches; and one that is not empty. *)
Definition matching (x : block) : Prop := match_in 0 (length a) 0 (length b) x.

Definition good_block (x : block) : Prop :=
  0 < snd x /\ match_in 0 (length a) 0 (length b) x.

(** The conditions of the two loops that extend a match. *)
Definition extends_left (alo blo : nat) (x : block) : bool :=
  let '(i, j, k) := x in
  (alo <? i) && (blo <? j) && str_eqb (item a (i - 1)) (item b (j - 1)).

Definition extends_right (ahi bhi : nat) (x : block) : bool :=
  let '(i, j, k) := x in
  (i + k <? ahi) && (j + k <? bhi) && str_eqb (item a (i + k)) (item b (j + k)).

End Sequences.

Section Diagonal.

Variable a : list str.

(** The length of the run of lines that are not popular and ends at [x]. *)
Fixpoint run_to (x : nat) : nat :=
  match x with
  | O => if popular a (item a 0) then 0 else 1
  | S x' => if popular a (item a (S x')) then 0 else S (run_to x')
  end.

Definition run_before (i : nat) : nat :=
  match i with
  | O => O
  | S i' => run_to i'
  end.

(** What the search keeps, row after row, when the two sequences are the
    same: the dictionary holds, on the diagonal, the length of the run, and
    nowhere more; the best match is on the diagonal and as long as every
    run met so far. *)
Definition dict_diag (i : nat) (d : list (nat * nat)) : Prop :=
  forall j, prev_len d j <= run_before j /\ prev_len d j <= run_before i
  /\ prev_len d i = run_before i.

Definition best_diag (i : nat) (best : block) : Prop :=
  let '(bi, bj, bs) := best in
  bi = bj /\ bi + bs <= i /\ forall x, x < i -> run_to x <= bs.

End Diagonal.

End MatcherSpec.

(** ** The worked example

    The example of the specification: the norm LEY-1, captured with its
    original text and, half a minute later, with a modified one. *)

Module Examples.
Import PyStr App Spec.

Definition noon : datetime :=
  {| year := 2024; month := 5; day := 1; hour := 12; minute := 0; second := 0;
     microsecond := 250000 |}.
Definition half_past : datetime :=
  {| year := 2024; month := 5; day := 1; hour := 12; minute := 0; second := 30;
     microsecond := 0 |}.
Definition one_past : datetime :=
  {| year := 2024; month := 5; day := 1; hour := 12; minute := 1; second := 0;
     microsecond := 0 |}.
Definition ley : str := lit "LEY-1".
Definition portal : str := lit "https://spij.example/ley-1".
Definition original : str := lit "Art 1. Texto original".
Definition modified : str := lit "Art 1. Texto modificado".

Definition one_version : db :=
  capture_all [ {| cap_clock := noon; cap_norma := ley; cap_url := portal;
                   cap_text := original |} ] empty_db.

Definition two_versions : db :=
  capture_all [ {| cap_clock := half_past; cap_norma := ley; cap_url := portal;
                   cap_text := modified |} ] one_version.

Definition original_hash : str := Eval vm_compute in Sha256.hexdigest original.
Definition modified_hash : str := Eval vm_compute in Sha256.hexdigest modified.

End Examples.

(** ** Tactics *)

Module ProofTactics.

(** Decides the comparisons of the goal that linear arithmetic, with the
    equations of division, settles. *)
Ltac decide_tests :=
  repeat match goal with
         | |- context [(?x <=? ?y)] =>
             first [ replace (x <=? y) with true
                       by (symmetry; apply Z.leb_le; Z.to_euclidean_division_equations; lia)
                   | replace (x <=? y) with false
                       by (symmetry; apply Z.leb_gt; Z.to_euclidean_division_equations; lia) ]
         | |- context [(?x <? ?y)] =>
             first [ replace (x <? y) with true
                       by (symmetry; apply Z.ltb_lt; Z.to_euclidean_division_equations; lia)
                   | replace (x <? y) with false
                       by (symmetry; apply Z.ltb_ge; Z.to_euclidean_division_equations; lia) ]
         end.

End ProofTactics.

(** ** Further vocabulary

    The notions the other properties of the program are stated with. *)

Module Notions.
Import PyStr Soup Difflib App Page Spec.

(** *** Texts *)

(** The characters of a text that are no white space, in order. *)
Definition visible (text : str) : str := filter (fun c => negb (isspace c)) text.

(** A code point of the range of Unicode, and a surrogate. *)
Definition code_point (c : Z) : Prop := 0 <= c < 1114112.
Definition surrogate (c : Z) : Prop := 55296 <= c <= 57343.

(** Two texts whose encodings differ and have the same SHA-256 digest. *)
Definition collision (x y : str) : Prop :=
  exists dx dy,
    Utf8.encode x = Some dx /\ Utf8.encode y = Some dy
    /\ dx <> dy /\ Sha256.digest dx = Sha256.digest dy.

(** *** The table *)

(** The row a capture appends has its identifier, its URL, its text, the
    fingerprint of the text and the time stamp of its clock. *)
Definition row_of (c : capture) (r : NormaVersion) : Prop :=
  norma_id r = cap_norma c /\ source_url r = cap_url c
  /\ content_text r = cap_text c /\ fetched_at r = stamp (cap_clock c)
  /\ hash_content (cap_text c) = Ok (content_hash r).

(** The keys of the table are the numbers from 1 to the number of rows, in
    order, and the counter of the table is the last of them. *)
Definition numbered (d : db) : Prop :=
  map id (norma_versions d) = map Z.of_nat (seq 1 (length (norma_versions d)))
  /\ sqlite_sequence d = Z.of_nat (length (norma_versions d)).

(** No two neighbours of the list are equal. *)
Fixpoint no_repeat (hashes : list str) : Prop :=
  match hashes with
  | x :: (y :: _) as rest => x <> y /\ no_repeat rest
  | _ => True
  end.

(** The readings of the clock of a sequence of captures never go
    backwards, to the second. *)
Definition clock_monotone (calls : list capture) : Prop :=
  StronglySorted
    (fun c1 c2 => text_le (stamp (cap_clock c1)) (stamp (cap_clock c2))) calls.

(** No row of the table is later than the clock of a capture to come. *)
Definition ahead (d : db) (calls : list capture) : Prop :=
  forall r c, In r (norma_versions d) -> In c calls ->
              text_le (fetched_at r) (stamp (cap_clock c)).

(** *** The clock *)

(** The fields of a date: four digits at most for the year, two for the
    others. [datetime] keeps the year between 1 and 9999. *)
Definition datetime_fields (t : datetime) : Prop :=
  0 <= year t < 10000 /\ 0 <= month t < 100 /\ 0 <= day t < 100
  /\ 0 <= hour t < 100 /\ 0 <= minute t < 100 /\ 0 <= second t < 100.

(** The order of two dates, to the second: the first field that differs
    decides. *)
Definition lex (c rest : comparison) : comparison :=
  match c with
  | Eq => rest
  | o => o
  end.

Definition compare_seconds (t1 t2 : datetime) : comparison :=
  lex (year t1 ?= year t2)
    (lex (month t1 ?= month t2)
       (lex (day t1 ?= day t2)
          (lex (hour t1 ?= hour t2)
             (lex (minute t1 ?= minute t2)
                (lex (second t1 ?= second t2) Eq))))).

(** *** Opcodes *)

(** An opcode takes in the position [x] of the first sequence, or the
    position [y] of the second. *)
Definition covers_a (o : opcode) (x : nat) : Prop :=
  let '(_, i1, i2, _, _) := o in (i1 <= x < i2)%nat.

Definition covers_b (o : opcode) (y : nat) : Prop :=
  let '(_, _, _, j1, j2) := o in (j1 <= y < j2)%nat.

(** What an opcode says of its two ranges: they lie in the sequences; an
    [equal] pairs each line of one with the same line of the other; a
    [delete] has no line of the second sequence, an [insert] none of the
    first. *)
Definition opcode_ok (a b : list str) (o : opcode) : Prop :=
  let '(t, i1, i2, j1, j2) := o in
  (i2 <= length a)%nat /\ (j2 <= length b)%nat
  /\ match t with
     | Equal => (i2 - i1 = j2 - j1)%nat /\ (i1 <= i2)%nat /\ (j1 <= j2)%nat
                /\ forall k, (k < i2 - i1)%nat -> item a (i1 + k) = item b (j1 + k)
     | Replace => True
     | Delete => j1 = j2
     | Insert => i1 = i2
     end.

(** The lines an opcode takes from each sequence, and those it removes
    and adds. *)
Definition a_lines (a : list str) (o : opcode) : list str :=
  let '(_, i1, i2, _, _) := o in slice a i1 i2.

Definition b_lines (b : list str) (o : opcode) : list str :=
  let '(_, _, _, j1, j2) := o in slice b j1 j2.

Definition removed_lines (a : list str) (o : opcode) : list str :=
  match op_tag o with
  | Replace | Delete => a_lines a o
  | _ => []
  end.

Definition added_lines (b : list str) (o : opcode) : list str :=
  match op_tag o with
  | Replace | Insert => b_lines b o
  | _ => []
  end.

(** *** The page *)

(** The two elements every run writes first. *)
Definition heading : list element :=
  [title (lit "SPIJ Tracker de normas");
   caption (lit "Monitorea versiones de una norma y resalta cambios hist" ++ [243]
              ++ lit "ricos. " ++ [218] ++ lit "salo con URLs p" ++ [250]
              ++ lit "blicas y respetando los t" ++ [233]
              ++ lit "rminos de uso del portal.")].

(** The element that shows an entry of the summary: green for an added
    line, red for a removed one. *)
Definition coloured (line : str) : element :=
  markdown
    (lit "<span style='color:"
       ++ (if startswith (lit "+") line then lit "#008000" else lit "#cc0000")
       ++ lit "'>" ++ line ++ lit "</span>") true.

(** A run ends with a value or with an exception of the store, not with
    an exception of the download. *)
Definition download_caught {A : Type} (r : outcome A) : Prop :=
  match r with
  | Raised (RequestException _) => False
  | _ => True
  end.

End Notions.

(** ** Tactics for decimal digits *)

Module DigitTactics.

(** Decides the tests [x =? 0] of the goal, and proves two lists of
    digits equal, with linear arithmetic and the equations of division. *)
Ltac decide_digit_tests :=
  repeat match goal with
         | |- context [?x =? 0] =>
             first [ replace (x =? 0) with true
                       by (symmetry; apply Z.eqb_eq; Z.to_euclidean_division_equations; lia)
                   | replace (x =? 0) with false
                       by (symmetry; apply Z.eqb_neq; Z.to_euclidean_division_equations; lia) ]
         end.

Ltac digits_equal :=
  repeat (f_equal; try (Z.to_euclidean_division_equations; lia)).

End DigitTactics.

(** ** More of the worked example

    The two rows of the example, a clock that is behind them, a second
    identifier, a portal that does not answer and one that does, and a run
    of the page with the button pressed. *)

Module Scenarios.
Import PyStr Soup App Page Spec Examples.

Definition first_row : NormaVersion :=
  new_version empty_db noon ley portal original original_hash.

Definition second_row : NormaVersion :=
  new_version one_version half_past ley portal modified modified_hash.

Definition morning : datetime :=
  {| year := 2024; month := 5; day := 1; hour := 11; minute := 0; second := 0;
     microsecond := 0 |}.

Definition other_ley : str := lit "LEY-2".

Definition two_captures : list capture :=
  [ {| cap_clock := noon; cap_norma := ley; cap_url := portal; cap_text := original |};
    {| cap_clock := half_past; cap_norma := ley; cap_url := portal; cap_text := modified |} ].

Definition offline (url : str) (timeout_s : Z) : outcome Response :=
  Raised (RequestException (lit "timed out")).

(** A portal that answers with the markup of the example of the
    specification, the fingerprint of its text and the row of its
    capture. *)
Definition online (url : str) (timeout_s : Z) : outcome Response :=
  Return {| status_code := 200; reason := lit "OK"; url := url; text := example_markup |}.

Definition hello_hash : str := Eval vm_compute in Sha256.hexdigest (lit "Hello world").

Definition hello_row : NormaVersion :=
  new_version empty_db noon ley portal (lit "Hello world") hello_hash.

Definition other_markup : str := lit "<p>Other text</p>".

Definition no_table (old_lines new_lines : list str) : str := [].

Definition pressed : session :=
  {| input_norma_id := ley; input_norma_url := portal; button_capturar := true;
     select_old_idx := None; select_new_idx := None |}.

End Scenarios.

(** * Properties *)

(** ** Strings *)

Module PyStrFacts.
Import PyStr Spec.

Lemma str_eqb_refl (s : str) : str_eqb s s = true.
Proof.
  induction s as [|c s IH]; simpl; [reflexivity|].
  now rewrite Z.eqb_refl, IH.
Qed.

Lemma str_eqb_eq (s t : str) : str_eqb s t = true <-> s = t.
Proof.
  split; [|intros ->; apply str_eqb_refl].
  revert t; induction s as [|c s IH]; intros [|d t]; simpl; try discriminate; auto.
  intros H. apply andb_prop in H as [H1 H2].
  apply Z.eqb_eq in H1. apply IH in H2. congruence.
Qed.

Lemma str_eqb_neq (s t : str) : str_eqb s t = false <-> s <> t.
Proof.
  split.
  - intros H E. apply str_eqb_eq in E. congruence.
  - intros H. destruct (str_eqb s t) eqn:E; [|reflexivity].
    apply str_eqb_eq in E. contradiction.
Qed.

Lemma startswith_app (p s : str) : startswith p (p ++ s) = true.
Proof.
  induction p as [|c p IH]; simpl; [reflexivity|].
  now rewrite Z.eqb_refl, IH.
Qed.

Lemma startswith_spec (p s : str) :
  startswith p s = true <-> exists rest, s = p ++ rest.
Proof.
  split.
  - revert s; induction p as [|c p IH]; intros s H; simpl in *.
    + now exists s.
    + destruct s as [|d s]; [discriminate|].
      apply andb_prop in H as [H1 H2]. apply Z.eqb_eq in H1. subst d.
      destruct (IH _ H2) as [rest ->]. now exists rest.
  - intros [rest ->]. apply startswith_app.
Qed.

Lemma isspace_spec (c : Z) :
  isspace c = true <->
  (9 <= c <= 13 \/ 28 <= c <= 32 \/ c = 133 \/ c = 160 \/ c = 5760
   \/ 8192 <= c <= 8202 \/ c = 8232 \/ c = 8233 \/ c = 8239 \/ c = 8287
   \/ c = 12288).
Proof.
  unfold isspace.
  rewrite !orb_true_iff, !andb_true_iff, !Z.leb_le, !Z.eqb_eq. lia.
Qed.

Lemma is_linebreak_spec (c : Z) :
  is_linebreak c = true <->
  (10 <= c <= 13 \/ 28 <= c <= 30 \/ c = 133 \/ c = 8232 \/ c = 8233).
Proof.
  unfold is_linebreak.
  rewrite !orb_true_iff, !andb_true_iff, !Z.leb_le, !Z.eqb_eq. lia.
Qed.

Lemma linebreak_isspace (c : Z) : is_linebreak c = true -> isspace c = true.
Proof.
  rewrite is_linebreak_spec, isspace_spec. lia.
Qed.

Lemma not_space_not_linebreak (c : Z) : isspace c = false -> is_linebreak c = false.
Proof.
  intros H. destruct (is_linebreak c) eqn:E; [|reflexivity].
  apply linebreak_isspace in E. congruence.
Qed.

(** *** Decimal numbers *)

Lemma digits_from_spec (fuel : nat) :
  forall n acc,
    0 <= n -> (Z.to_nat n < fuel)%nat ->
    exists ds,
      digits_from fuel n acc = ds ++ acc
      /\ ds <> []
      /\ Forall (fun d => 48 <= d <= 57) ds
      /\ digits_value ds = n.
Proof.
  induction fuel as [|fuel IH]; intros n acc Hn Hfuel; [lia|].
  cbn [digits_from].
  assert (Hd : 48 <= 48 + n mod 10 <= 57) by (pose proof (Z.mod_pos_bound n 10); lia).
  destruct (n / 10 =? 0) eqn:E.
  - apply Z.eqb_eq in E. exists [48 + n mod 10].
    split; [reflexivity|]. split; [discriminate|]. split; [now repeat constructor|].
    unfold digits_value. cbn [fold_left]. Z.to_euclidean_division_equations; lia.
  - apply Z.eqb_neq in E.
    destruct (IH (n / 10) ((48 + n mod 10) :: acc)) as (ds & Eds & _ & Hds & Hv).
    + Z.to_euclidean_division_equations; lia.
    + assert (0 <= n / 10 < n) by (Z.to_euclidean_division_equations; lia). lia.
    + exists (ds ++ [48 + n mod 10]). rewrite Eds, <- app_assoc.
      split; [reflexivity|]. split; [now destruct ds|].
      split; [apply Forall_app; split; [exact Hds|now repeat constructor]|].
      unfold digits_value in *. rewrite fold_left_app, Hv. cbn [fold_left].
      Z.to_euclidean_division_equations; lia.
Qed.

(** [str_of_nat] writes its argument in decimal: its fuel is enough. *)
Lemma str_of_nat_spec (n : nat) :
  str_of_nat n <> []
  /\ Forall (fun d => 48 <= d <= 57) (str_of_nat n)
  /\ digits_value (str_of_nat n) = Z.of_nat n.
Proof.
  unfold str_of_nat.
  destruct (digits_from_spec (S n) (Z.of_nat n) []) as (ds & E & H1 & H2 & H3);
    [lia|lia|].
  rewrite E, app_nil_r. auto.
Qed.

End PyStrFacts.

(** ** The normalizer *)

Module NormalizerFacts.
Import PyStr PyStrFacts Soup App Spec.

(** *** Stripping *)


Lemma lstrip_split (l : str) :
  exists pre, l = pre ++ lstrip l /\ forallb isspace pre = true
              /\ starts_nonspace (lstrip l).
Proof.
  induction l as [|c l (pre & E & Hp & Hs)]; simpl.
  - exists []. now repeat split.
  - destruct (isspace c) eqn:Hc.
    + exists (c :: pre). simpl. rewrite Hc, Hp. repeat split; auto.
      now rewrite <- E.
    + exists []. simpl. now repeat split.
Qed.

Lemma rstrip_split (l : str) :
  exists suf, l = rstrip l ++ suf /\ forallb isspace suf = true
              /\ starts_nonspace (rev (rstrip l)).
Proof.
  unfold rstrip. destruct (lstrip_split (rev l)) as (pre & E & Hp & Hs).
  exists (rev pre). repeat split.
  - rewrite <- rev_app_distr, <- E. now rewrite rev_involutive.
  - rewrite forallb_forall in *. intros x Hx. apply Hp. now apply in_rev.
  - now rewrite rev_involutive.
Qed.

Lemma lstrip_app (x y : str) :
  lstrip (x ++ y) = if forallb isspace x then lstrip y else lstrip x ++ y.
Proof.
  induction x as [|c x IH]; simpl; [reflexivity|].
  destruct (isspace c); simpl; [exact IH|reflexivity].
Qed.

Lemma lstrip_all_space (x : str) : forallb isspace x = true -> lstrip x = [].
Proof.
  induction x as [|c x IH]; simpl; [reflexivity|].
  destruct (isspace c); simpl; [exact IH|discriminate].
Qed.

Lemma forallb_rev {A : Type} (f : A -> bool) (l : list A) :
  forallb f (rev l) = forallb f l.
Proof.
  induction l as [|x l IH]; simpl; [reflexivity|].
  rewrite forallb_app, IH. simpl. rewrite andb_true_r. apply andb_comm.
Qed.

Lemma rstrip_cons (c : Z) (l : str) :
  rstrip (c :: l) = if forallb isspace (c :: l) then [] else c :: rstrip l.
Proof.
  unfold rstrip. simpl rev. rewrite lstrip_app.
  rewrite forallb_rev. simpl forallb.
  destruct (forallb isspace l) eqn:Hl.
  - rewrite andb_true_r.
    rewrite (lstrip_all_space (rev l)) by now rewrite forallb_rev.
    simpl. now destruct (isspace c).
  - rewrite andb_false_r. rewrite rev_app_distr. reflexivity.
Qed.

(** *** Collapsing

    After [re.sub], every white-space character is a space followed by a
    character that is none. *)

Lemma re_sub_ws_collapsed (text : str) :
  forall in_run,
    collapsed (re_sub_ws in_run text)
    /\ (in_run = true -> starts_nonspace (re_sub_ws in_run text)).
Proof.
  induction text as [|c text IH]; intros in_run; simpl; [now split|].
  destruct (isspace c) eqn:Hc.
  - destruct in_run.
    + apply IH.
    + split; [|discriminate]. simpl. split; [|apply IH].
      intros _. split; [reflexivity|]. now apply IH.
  - split; [|now intros _]. simpl. split; [|apply IH].
    rewrite Hc. discriminate.
Qed.

Lemma collapsed_app (x y : str) : collapsed (x ++ y) -> collapsed x /\ collapsed y.
Proof.
  induction x as [|c x IH]; simpl; [now split|].
  intros [H1 H2]. destruct (IH H2) as [Hx Hy]. repeat split; auto.
  - now apply H1.
  - destruct (H1 H) as [_ Hs]. destruct x; [exact I|exact Hs].
Qed.

Lemma collapsed_only_spaces (l : str) (c : Z) :
  collapsed l -> In c l -> isspace c = true -> c = SP.
Proof.
  induction l as [|d l IH]; simpl; [contradiction|].
  intros [H1 H2] [->|Hin] Hc; [now apply H1|now apply IH].
Qed.

Lemma collapsed_no_run (l pre post : str) (c d : Z) :
  collapsed l -> l = pre ++ c :: d :: post -> isspace c = true -> isspace d = false.
Proof.
  intros H -> Hc. apply collapsed_app in H as [_ H]. simpl in H.
  destruct H as [H _]. now apply H.
Qed.

(** *** [normalize_text] yields canonical text *)

Lemma normalize_text_split (text : str) :
  exists pre suf,
    re_sub_ws false text = pre ++ normalize_text text ++ suf
    /\ starts_nonspace (normalize_text text)
    /\ starts_nonspace (rev (normalize_text text)).
Proof.
  unfold normalize_text, strip.
  destruct (lstrip_split (re_sub_ws false text)) as (pre & E & _ & Hs).
  destruct (rstrip_split (lstrip (re_sub_ws false text))) as (suf & E' & _ & He).
  exists pre, suf. repeat split; auto.
  - now rewrite <- E', <- E.
  - rewrite E' in Hs. destruct (rstrip (lstrip (re_sub_ws false text))); [exact I|exact Hs].
Qed.

Lemma normalize_text_collapsed (text : str) : collapsed (normalize_text text).
Proof.
  destruct (normalize_text_split text) as (pre & suf & E & _).
  pose proof (proj1 (re_sub_ws_collapsed text false)) as H.
  rewrite E in H. apply collapsed_app in H as [_ H].
  now apply collapsed_app in H as [H _].
Qed.

Lemma normalize_text_canonical (text : str) :
  2 < len (normalize_text text) -> canonical_line (normalize_text text).
Proof.
  intros Hlen.
  destruct (normalize_text_split text) as (pre & suf & _ & Hs & He).
  pose proof (normalize_text_collapsed text) as Hc.
  set (l := normalize_text text) in *.
  assert (Hsp : forall c, In c l -> isspace c = true -> c = SP)
    by (intros c; now apply collapsed_only_spaces).
  constructor; auto.
  - intros c rest E. rewrite E in Hs. exact Hs.
  - intros c p E. rewrite E, rev_app_distr in He. exact He.
  - intros Hin. apply Hsp in Hin; [discriminate|reflexivity].
  - intros p c d post E. now apply (collapsed_no_run l p post).
Qed.

(** *** [normalize_text] joins the words of the text with single spaces *)

Lemma re_sub_ws_all_space (text : str) (in_run : bool) :
  forallb isspace (re_sub_ws in_run text) = forallb isspace text.
Proof.
  revert in_run; induction text as [|c text IH]; intros in_run; simpl; [reflexivity|].
  destruct (isspace c) eqn:Hc; simpl.
  - destruct in_run; simpl; now rewrite IH.
  - now rewrite Hc.
Qed.

Lemma split_ws_nil (s : str) : split_ws s = [] <-> forallb isspace s = true.
Proof.
  induction s as [|c s IH]; simpl; [tauto|].
  destruct (isspace c); simpl; [exact IH|].
  split; [|discriminate].
  destruct (split_ws s); [discriminate|].
  destruct (match s with d :: _ => isspace d | [] => true end); discriminate.
Qed.

Lemma join_cons_word (c : Z) (w : str) (ws : list str) :
  join [SP] ((c :: w) :: ws) = c :: join [SP] (w :: ws).
Proof. destruct ws; reflexivity. Qed.

Lemma rstrip_re_sub_ws (text : str) :
  rstrip (re_sub_ws true text) = join [SP] (split_ws text)
  /\ rstrip (re_sub_ws false text) =
     match text with
     | c :: _ =>
         if isspace c
         then (if forallb isspace text then [] else SP :: join [SP] (split_ws text))
         else join [SP] (split_ws text)
     | [] => []
     end.
Proof.
  induction text as [|c text [IHt IHf]]; [now split|].
  assert (Ht : rstrip (re_sub_ws true (c :: text)) = join [SP] (split_ws (c :: text))).
  { simpl. destruct (isspace c) eqn:Hc; [exact IHt|].
    rewrite rstrip_cons. simpl. rewrite Hc. simpl. rewrite IHf.
    destruct text as [|d text]; [reflexivity|].
    destruct (isspace d) eqn:Hd.
    - destruct (forallb isspace (d :: text)) eqn:Hall.
      + apply split_ws_nil in Hall. now rewrite Hall.
      + destruct (split_ws (d :: text)) as [|w ws] eqn:Hw.
        * apply split_ws_nil in Hw. congruence.
        * destruct ws; reflexivity.
    - destruct (split_ws (d :: text)) as [|w ws] eqn:Hw.
      + apply split_ws_nil in Hw. simpl in Hw. now rewrite Hd in Hw.
      + now rewrite join_cons_word. }
  split; [exact Ht|].
  destruct (isspace c) eqn:Hc.
  - change (re_sub_ws false (c :: text))
      with (if isspace c then SP :: re_sub_ws true text else c :: re_sub_ws false text).
    rewrite Hc, rstrip_cons.
    change (forallb isspace (SP :: re_sub_ws true text))
      with (forallb isspace (re_sub_ws true text)).
    rewrite re_sub_ws_all_space. simpl forallb. rewrite Hc. simpl.
    destruct (forallb isspace text); [reflexivity|].
    rewrite IHt. simpl. now rewrite Hc.
  - rewrite <- Ht. simpl. now rewrite Hc.
Qed.

Lemma re_sub_ws_lstrip (text : str) (in_run : bool) :
  lstrip (re_sub_ws in_run text) = re_sub_ws true (lstrip text).
Proof.
  revert in_run; induction text as [|c text IH]; intros in_run; simpl; [reflexivity|].
  destruct (isspace c) eqn:Hc.
  - destruct in_run; simpl; apply IH.
  - simpl. now rewrite Hc.
Qed.

Lemma split_ws_lstrip (text : str) : split_ws (lstrip text) = split_ws text.
Proof.
  induction text as [|c text IH]; simpl; [reflexivity|].
  destruct (isspace c) eqn:Hc; [exact IH|].
  simpl. now rewrite Hc.
Qed.

Lemma normalize_text_words (text : str) :
  normalize_text text = join [SP] (split_ws text).
Proof.
  unfold normalize_text, strip.
  rewrite re_sub_ws_lstrip.
  rewrite (proj1 (rstrip_re_sub_ws (lstrip text))).
  now rewrite split_ws_lstrip.
Qed.

(** *** The removed regions *)

Lemma all_strings_outside_nothing (n : node) :
  strings_outside [] n = all_strings n.
Proof.
  induction n as [s|s|name contents IH] using node_induction; simpl; auto.
  induction IH as [|k l Hk _ IHl]; simpl; [reflexivity|].
  now rewrite Hk, IHl.
Qed.

Lemma decompose_selected_strings (selector : str) (regions : list str) (n : node) :
  flat_map (strings_outside regions) (decompose_selected selector n)
  = strings_outside (selector :: regions) n.
Proof.
  induction n as [s|s|name contents IH] using node_induction; simpl; auto.
  destruct (str_eqb (ascii_lower name) (ascii_lower selector)); simpl; [reflexivity|].
  rewrite app_nil_r.
  destruct (in_regions regions name); [reflexivity|].
  induction IH as [|k l Hk _ IHl]; simpl; [reflexivity|].
  now rewrite flat_map_app, Hk, IHl.
Qed.

Lemma decompose_loop_strings (regions : list str) (sp : soup) :
  flat_map all_strings
    (fold_left (fun sp selector => decompose_all selector sp) regions sp)
  = flat_map (strings_outside regions) sp.
Proof.
  revert sp; induction regions as [|r regions IH]; intros sp; simpl.
  - induction sp as [|n sp IHsp]; simpl; [reflexivity|].
    now rewrite all_strings_outside_nothing, IHsp.
  - rewrite IH. unfold decompose_all.
    induction sp as [|n sp IHsp]; simpl; [reflexivity|].
    now rewrite flat_map_app, decompose_selected_strings, IHsp.
Qed.

(** *** Lines *)

Lemma splitlines_from_line (l cur s : str) :
  forallb (fun c => negb (is_linebreak c)) l = true ->
  splitlines_from cur (l ++ s) = splitlines_from (rev l ++ cur) s.
Proof.
  revert cur; induction l as [|c l IH]; intros cur H; simpl in *; [reflexivity|].
  apply andb_prop in H as [Hc Hl].
  apply negb_true_iff in Hc. rewrite Hc, (IH _ Hl).
  now rewrite <- app_assoc.
Qed.

Lemma splitlines_from_LF (cur s : str) :
  splitlines_from cur (LF :: s) = rev cur :: splitlines_from [] s.
Proof. simpl. now destruct s. Qed.

Lemma splitlines_join (ls : list str) :
  Forall (fun l => l <> [] /\ forallb (fun c => negb (is_linebreak c)) l = true) ls ->
  splitlines (join [LF] ls) = ls.
Proof.
  unfold splitlines.
  induction 1 as [|l ls [Hne Hl] Hls IH]; [reflexivity|].
  destruct ls as [|l' ls].
  - simpl join. rewrite <- (app_nil_r l) at 1. rewrite splitlines_from_line by exact Hl.
    simpl. rewrite app_nil_r.
    destruct (rev l) eqn:E.
    + apply (f_equal (@rev Z)) in E. rewrite rev_involutive in E. contradiction.
    + now rewrite <- E, rev_involutive.
  - change (join [LF] (l :: l' :: ls)) with (l ++ LF :: join [LF] (l' :: ls)).
    rewrite splitlines_from_line by exact Hl.
    rewrite splitlines_from_LF, app_nil_r, rev_involutive.
    now rewrite IH.
Qed.

Lemma canonical_line_plain (l : str) :
  canonical_line l ->
  l <> [] /\ forallb (fun c => negb (is_linebreak c)) l = true.
Proof.
  intros [Hlen _ _ _ Hsp _]. split.
  - intros ->. unfold len in Hlen. simpl in Hlen. lia.
  - apply forallb_forall. intros c Hc.
    destruct (is_linebreak c) eqn:E; [|reflexivity].
    pose proof (linebreak_isspace _ E) as Hs.
    rewrite (Hsp c Hc Hs) in E. discriminate.
Qed.


Lemma extract_norma_text_cleaned (BeautifulSoup : str -> soup) (html : str) :
  extract_norma_text BeautifulSoup html = join [LF] (cleaned_lines BeautifulSoup html).
Proof.
  unfold extract_norma_text, cleaned_lines, get_text, content_strings.
  now rewrite decompose_loop_strings.
Qed.

Lemma cleaned_lines_canonical (BeautifulSoup : str -> soup) (html : str) :
  Forall canonical_line (cleaned_lines BeautifulSoup html).
Proof.
  apply Forall_forall. intros l Hl. unfold cleaned_lines in Hl.
  apply filter_In in Hl as [Hin Hlen].
  apply in_map_iff in Hin as (x & <- & _).
  apply normalize_text_canonical. now apply Z.ltb_lt.
Qed.

Lemma splitlines_extract_norma_text (BeautifulSoup : str -> soup) (html : str) :
  splitlines (extract_norma_text BeautifulSoup html) = cleaned_lines BeautifulSoup html.
Proof.
  rewrite extract_norma_text_cleaned. apply splitlines_join.
  eapply Forall_impl; [|apply cleaned_lines_canonical].
  intros l. apply canonical_line_plain.
Qed.

Lemma join_first (l : str) (ls : list str) (c : Z) (rest : str) :
  l = c :: rest -> exists rest', join [LF] (l :: ls) = c :: rest'.
Proof.
  intros ->. destruct ls; simpl; eauto.
Qed.

Lemma join_last (ls : list str) (out : str) (c : Z) :
  Forall (fun l => l <> []) ls ->
  join [LF] ls = out ++ [c] ->
  exists l pre, In l ls /\ l = pre ++ [c].
Proof.
  induction 1 as [|l ls Hne Hls IH] in out |- *; simpl.
  - intros E. now destruct out.
  - destruct ls as [|l' ls].
    + intros ->. exists (out ++ [c]), out. auto.
    + intros E.
      destruct (exists_last (l := join [LF] (l' :: ls))) as (out' & c' & E').
      { inversion Hls as [|? ? Hl' _]; subst. destruct l'; [contradiction|].
        destruct ls; discriminate. }
      rewrite E' in E.
      change (l ++ (LF :: out') ++ [c'] = out ++ [c]) in E.
      rewrite app_assoc in E. apply app_inj_tail in E as [_ ->].
      destruct (IH _ E') as (x & pre & Hin & Hx).
      exists x, pre. split; [now right|exact Hx].
Qed.

End NormalizerFacts.

(** ** The claims about the normalizer *)

Module NormalizerClaims.
Import PyStr PyStrFacts Soup App Spec NormalizerFacts.

(** C10. For every markup, and whatever tree the parser builds of it,
    every line of the text [extract_norma_text] returns is in canonical
    form: longer than two characters, without white space at either end,
    without a newline, and with single spaces as its only white space.
    The text is these lines joined by newlines, so that it neither starts
    nor ends with a newline and has no blank line. *)
Theorem extract_norma_text_lines_canonical (BeautifulSoup : str -> soup) (html : str) :
  let out := extract_norma_text BeautifulSoup html in
  Forall canonical_line (splitlines out)
  /\ out = join [LF] (splitlines out)
  /\ (forall c rest, out = c :: rest -> c <> LF)
  /\ (forall c pre, out = pre ++ [c] -> c <> LF)
  /\ ~ In [] (splitlines out).
Proof.
  intros out. subst out.
  rewrite splitlines_extract_norma_text.
  pose proof (cleaned_lines_canonical BeautifulSoup html) as Hcan.
  pose proof (extract_norma_text_cleaned BeautifulSoup html) as Hout.
  assert (Hne : Forall (fun l : str => l <> []) (cleaned_lines BeautifulSoup html)).
  { eapply Forall_impl; [|exact Hcan]. intros l Hl. now apply canonical_line_plain. }
  repeat split; auto.
  - intros c rest E Hc. subst c. rewrite Hout in E.
    destruct (cleaned_lines BeautifulSoup html) as [|l ls]; [discriminate|].
    inversion Hcan as [|? ? Hl _]; subst.
    destruct l as [|c l'].
    + inversion Hne; congruence.
    + destruct (join_first (c :: l') ls c l' eq_refl) as [rest' E'].
      rewrite E' in E. injection E as -> _.
      now pose proof (cl_no_leading _ Hl LF l' eq_refl).
  - intros c pre E Hc. subst c. rewrite Hout in E.
    destruct (join_last _ _ _ Hne E) as (l & p & Hin & ->).
    rewrite Forall_forall in Hcan.
    now pose proof (cl_no_trailing _ (Hcan _ Hin) LF p eq_refl).
  - intros Hin. rewrite Forall_forall in Hne. now apply (Hne [] Hin).
Qed.

(** C6, as the program has it. Whatever tree the parser builds, the
    normalizer keeps the strings outside the script, style, nav, footer
    and header regions, splits their text into lines, replaces each line
    by its words joined with single spaces, drops the lines of two
    characters or fewer and joins the others with newlines, in order. On
    the example of the specification the line "ok" has two characters and
    is dropped: the text is "Hello world". *)
Theorem extract_norma_text_per_spec (BeautifulSoup : str -> soup) (html : str) :
  extract_norma_text BeautifulSoup html
  = join [LF]
      (filter (fun line => 2 <? len line)
         (map (fun line => join [SP] (split_ws line))
            (splitlines (join [LF] (flat_map content_strings (BeautifulSoup html))))))
  /\ extract_norma_text html_parser example_markup = lit "Hello world".
Proof.
  split; [|reflexivity].
  rewrite extract_norma_text_cleaned. unfold cleaned_lines.
  f_equal. f_equal. apply map_ext. intros line. apply normalize_text_words.
Qed.

(** C6, as the specification words it, fails on its own example: the text
    is "Hello world", not "Hello world" and "ok" on two lines. *)
Lemma extract_norma_text_example_without_ok :
  extract_norma_text html_parser example_markup = lit "Hello world"
  /\ extract_norma_text html_parser example_markup <> example_text_of_spec.
Proof.
  split; [reflexivity|]. intros H. vm_compute in H. discriminate.
Qed.

End NormalizerClaims.

(** ** The fingerprint *)

Module FingerprintFacts.
Import PyStr PyStrFacts App Spec ProofTactics.

(** *** UTF-8 *)


Lemma encode_char_total (c : Z) :
  Utf8.scalar_value c -> exists data, Utf8.encode_char c = Some data.
Proof.
  intros [Hr Hs]. unfold Utf8.encode_char.
  destruct (c <? 0) eqn:E0; [apply Z.ltb_lt in E0; lia|].
  destruct (c <? 128); [eauto|].
  destruct (c <? 2048); [eauto|].
  destruct ((55296 <=? c) && (c <=? 57343)) eqn:E.
  { apply andb_prop in E as [E1 E2]. apply Z.leb_le in E1, E2. lia. }
  destruct (c <? 65536); [eauto|].
  destruct (c <? 1114112) eqn:E4; [eauto|]. apply Z.ltb_ge in E4. lia.
Qed.

Lemma encode_total (text : str) :
  Forall Utf8.scalar_value text -> exists data, Utf8.encode text = Some data.
Proof.
  induction 1 as [|c text Hc _ [data IH]]; simpl; [eauto|].
  destruct (encode_char_total c Hc) as [b ->]. rewrite IH. eauto.
Qed.

Lemma utf8_decode_cons (b0 : Z) (r0 : list Z) :
  utf8_decode (b0 :: r0) =
  if (0 <=? b0) && (b0 <? 128) then option_map (cons b0) (utf8_decode r0)
  else if (192 <=? b0) && (b0 <? 224) then
    match r0 with
    | b1 :: r1 =>
        let c := (b0 - 192) * 64 + (b1 - 128) in
        if continuation b1 && (128 <=? c)
        then option_map (cons c) (utf8_decode r1) else None
    | _ => None
    end
  else if (224 <=? b0) && (b0 <? 240) then
    match r0 with
    | b1 :: b2 :: r2 =>
        let c := ((b0 - 224) * 64 + (b1 - 128)) * 64 + (b2 - 128) in
        if continuation b1 && continuation b2 && (2048 <=? c)
           && negb ((55296 <=? c) && (c <=? 57343))
        then option_map (cons c) (utf8_decode r2) else None
    | _ => None
    end
  else if (240 <=? b0) && (b0 <? 248) then
    match r0 with
    | b1 :: b2 :: b3 :: r3 =>
        let c := (((b0 - 240) * 64 + (b1 - 128)) * 64 + (b2 - 128)) * 64 + (b3 - 128) in
        if continuation b1 && continuation b2 && continuation b3
           && (65536 <=? c) && (c <? 1114112)
        then option_map (cons c) (utf8_decode r3) else None
    | _ => None
    end
  else None.
Proof. reflexivity. Qed.

Lemma some_eq {A : Type} (x y : A) : Some x = Some y -> x = y.
Proof. congruence. Qed.

Lemma decode_encode_char (c : Z) (b rest : list Z) (text : str) :
  Utf8.encode_char c = Some b ->
  utf8_decode rest = Some text ->
  utf8_decode (b ++ rest) = Some (c :: text).
Proof.
  unfold Utf8.encode_char. intros E Hrest.
  destruct (c <? 0) eqn:E0; [discriminate|]. apply Z.ltb_ge in E0.
  destruct (c <? 128) eqn:E1.
  { apply Z.ltb_lt in E1. apply some_eq in E; subst b.
    replace ([c] ++ rest) with (c :: rest) by reflexivity. rewrite utf8_decode_cons.
    decide_tests. cbv beta iota delta [andb]. rewrite Hrest; reflexivity. }
  apply Z.ltb_ge in E1.
  destruct (c <? 2048) eqn:E2.
  { apply Z.ltb_lt in E2. apply some_eq in E; subst b.
    replace ([192 + c / 64; 128 + c mod 64] ++ rest)
      with ((192 + c / 64) :: (128 + c mod 64) :: rest) by reflexivity.
    rewrite utf8_decode_cons. unfold continuation.
    cbv beta iota zeta.
    replace ((192 + c / 64 - 192) * 64 + (128 + c mod 64 - 128)) with c
      by (Z.to_euclidean_division_equations; lia).
    decide_tests. cbv beta iota delta [andb]. rewrite Hrest; reflexivity. }
  apply Z.ltb_ge in E2.
  destruct ((55296 <=? c) && (c <=? 57343)) eqn:E3; [discriminate|].
  destruct (c <? 65536) eqn:E4.
  { apply Z.ltb_lt in E4. apply some_eq in E; subst b.
    replace ([224 + c / 4096; 128 + (c / 64) mod 64; 128 + c mod 64] ++ rest)
      with ((224 + c / 4096) :: (128 + (c / 64) mod 64) :: (128 + c mod 64) :: rest)
      by reflexivity.
    rewrite utf8_decode_cons. unfold continuation.
    cbv beta iota zeta.
    replace (((224 + c / 4096 - 224) * 64 + (128 + (c / 64) mod 64 - 128)) * 64
             + (128 + c mod 64 - 128)) with c
      by (Z.to_euclidean_division_equations; lia).
    rewrite E3.
    decide_tests. cbv beta iota delta [andb negb]. rewrite Hrest; reflexivity. }
  apply Z.ltb_ge in E4.
  destruct (c <? 1114112) eqn:E5; [|discriminate].
  apply Z.ltb_lt in E5. apply some_eq in E; subst b.
  replace ([240 + c / 262144; 128 + (c / 4096) mod 64; 128 + (c / 64) mod 64;
            128 + c mod 64] ++ rest)
    with ((240 + c / 262144) :: (128 + (c / 4096) mod 64)
          :: (128 + (c / 64) mod 64) :: (128 + c mod 64) :: rest) by reflexivity.
  rewrite utf8_decode_cons. unfold continuation.
  cbv beta iota zeta.
  replace ((((240 + c / 262144 - 240) * 64 + (128 + (c / 4096) mod 64 - 128)) * 64
            + (128 + (c / 64) mod 64 - 128)) * 64 + (128 + c mod 64 - 128)) with c
    by (Z.to_euclidean_division_equations; lia).
  decide_tests. cbv beta iota delta [andb]. rewrite Hrest; reflexivity.
Qed.

Lemma decode_encode (text : str) (data : list Z) :
  Utf8.encode text = Some data -> utf8_decode data = Some text.
Proof.
  revert data; induction text as [|c text IH]; intros data; simpl.
  - now intros [= <-].
  - destruct (Utf8.encode_char c) as [b|] eqn:Eb; [|discriminate].
    destruct (Utf8.encode text) as [bs|]; [|discriminate].
    intros [= <-]. apply decode_encode_char; auto.
Qed.

(** *** The digest and its hexadecimal form *)


Lemma be_bytes_range (n : nat) (x : Z) : Forall is_byte (Sha256.be_bytes n x).
Proof.
  induction n as [|n IH]; simpl; constructor; [|exact IH].
  unfold is_byte. apply Z.mod_pos_bound. lia.
Qed.


Lemma digest_range (msg : list Z) : Forall is_byte (Sha256.digest msg).
Proof.
  unfold Sha256.digest. cbv zeta. cbn [flat_map].
  repeat (apply Forall_app; split; [apply be_bytes_range|]). constructor.
Qed.

Lemma hex_digit_lower (d : Z) : 0 <= d < 16 -> is_lower_hex (Sha256.hex_digit d).
Proof.
  intros H. unfold Sha256.hex_digit, is_lower_hex.
  destruct (d <? 10) eqn:E; [apply Z.ltb_lt in E|apply Z.ltb_ge in E]; lia.
Qed.

Lemma hex_value_digit (d : Z) : 0 <= d < 16 -> hex_value (Sha256.hex_digit d) = Some d.
Proof.
  intros H. unfold Sha256.hex_digit, hex_value.
  destruct (d <? 10) eqn:E; [apply Z.ltb_lt in E|apply Z.ltb_ge in E].
  - replace ((48 <=? 48 + d) && (48 + d <=? 57)) with true.
    + f_equal. lia.
    + symmetry. apply andb_true_iff. split; apply Z.leb_le; lia.
  - replace ((48 <=? 87 + d) && (87 + d <=? 57)) with false.
    + replace ((97 <=? 87 + d) && (87 + d <=? 102)) with true.
      * f_equal. lia.
      * symmetry. apply andb_true_iff. split; apply Z.leb_le; lia.
    + symmetry. apply andb_false_iff. right. apply Z.leb_gt. lia.
Qed.


Lemma hex_of_bytes_facts (data : list Z) :
  Forall is_byte data ->
  length (hex_of_bytes data) = (2 * length data)%nat
  /\ Forall is_lower_hex (hex_of_bytes data)
  /\ unhex (hex_of_bytes data) = Some data.
Proof.
  induction 1 as [|b data Hb _ (IH1 & IH2 & IH3)]; [now repeat split|].
  unfold is_byte in Hb.
  assert (H1 : 0 <= b / 16 < 16) by (Z.to_euclidean_division_equations; lia).
  assert (H2 : 0 <= b mod 16 < 16) by (Z.to_euclidean_division_equations; lia).
  change (hex_of_bytes (b :: data))
    with (Sha256.hex_digit (b / 16) :: Sha256.hex_digit (b mod 16) :: hex_of_bytes data).
  repeat split.
  - cbn [length]. rewrite IH1. lia.
  - constructor; [now apply hex_digit_lower|].
    constructor; [now apply hex_digit_lower|assumption].
  - cbn [unhex]. rewrite !hex_value_digit, IH3 by assumption.
    do 2 f_equal. Z.to_euclidean_division_equations; lia.
Qed.

End FingerprintFacts.

(** ** The claim about the fingerprint *)

Module FingerprintClaims.
Import PyStr PyStrFacts App Spec FingerprintFacts.



(** The digests of the standard's test messages. *)
Example sha256_empty :
  Sha256.hexdigest []
  = lit "e3b0c44298fc1c149afbf4c8996fb92427ae41e4649b934ca495991b7852b855".
Proof. vm_compute. reflexivity. Qed.

Example sha256_abc :
  hash_content (lit "abc")
  = Ok (lit "ba7816bf8f01cfea414140de5dae2223b00361a396177a9cb410ff61f20015ad").
Proof. vm_compute. reflexivity. Qed.

Example sha256_two_blocks :
  hash_content (lit "abcdbcdecdefdefgefghfghighijhijkijkljklmklmnlmnomnopnopq")
  = Ok (lit "248d6a61d20638b8e5c026930c3e6039a33ce45964ff2167f6ecedd419db06c1").
Proof. vm_compute. reflexivity. Qed.

(** A text with a surrogate has no fingerprint: the call raises. *)
Example hash_content_surrogate :
  hash_content [97; 55296] = Raise UnicodeEncodeError.
Proof. reflexivity. Qed.

End FingerprintClaims.

(** ** The version store *)

Module StoreFacts.
Import PyStr PyStrFacts App Spec FingerprintFacts.

(** *** The order of [TEXT] values *)

Lemma text_compare_eq (x y : str) : text_compare x y = Eq <-> x = y.
Proof.
  revert y; induction x as [|c x IH]; intros [|d y]; simpl;
    try (split; [discriminate|discriminate]); [tauto|].
  destruct (c ?= d) eqn:E.
  - apply Z.compare_eq in E. subst d. rewrite IH. split; congruence.
  - split; [discriminate|]. intros [= -> _]. rewrite Z.compare_refl in E. discriminate.
  - split; [discriminate|]. intros [= -> _]. rewrite Z.compare_refl in E. discriminate.
Qed.

Lemma text_compare_refl (x : str) : text_compare x x = Eq.
Proof. now apply text_compare_eq. Qed.

Lemma text_compare_antisym (x y : str) :
  text_compare y x = CompOpp (text_compare x y).
Proof.
  revert y; induction x as [|c x IH]; intros [|d y]; simpl; auto.
  rewrite (Z.compare_antisym c d).
  destruct (c ?= d); simpl; auto.
Qed.

Lemma text_compare_lt_trans (x y z : str) :
  text_compare x y = Lt -> text_compare y z = Lt -> text_compare x z = Lt.
Proof.
  revert y z; induction x as [|c x IH]; intros [|d y] [|e z]; simpl; try discriminate; auto.
  destruct (c ?= d) eqn:E1; try discriminate.
  - apply Z.compare_eq in E1. subst d.
    destruct (c ?= e); try discriminate; auto. apply IH.
  - intros _. destruct (d ?= e) eqn:E2; try discriminate.
    + apply Z.compare_eq in E2. subst e. now rewrite E1.
    + intros _. rewrite Z.compare_lt_iff in E1, E2.
      assert (H : c < e) by lia. rewrite <- Z.compare_lt_iff in H. now rewrite H.
Qed.

Lemma text_le_trans (x y z : str) : text_le x y -> text_le y z -> text_le x z.
Proof.
  unfold text_le. intros H1 H2.
  destruct (text_compare x y) eqn:E1; [|clear H1|congruence].
  - apply text_compare_eq in E1. now subst y.
  - destruct (text_compare y z) eqn:E2; [|clear H2|congruence].
    + apply text_compare_eq in E2. subst z. rewrite E1. discriminate.
    + rewrite (text_compare_lt_trans _ _ _ E1 E2). discriminate.
Qed.

(** *** The index *)

Lemma index_leb_spec (r1 r2 : NormaVersion) :
  index_leb r1 r2 = true <-> version_le r1 r2.
Proof.
  unfold index_leb, version_le, text_lt.
  destruct (text_compare (fetched_at r1) (fetched_at r2)) eqn:E.
  - apply text_compare_eq in E. rewrite Z.leb_le. split; [auto|].
    intros [H|[_ H]]; [discriminate|exact H].
  - split; auto.
  - split; [discriminate|]. intros [H|[H _]]; [discriminate|].
    apply text_compare_eq in H. congruence.
Qed.

Lemma index_leb_total (r1 r2 : NormaVersion) :
  index_leb r1 r2 = false -> index_leb r2 r1 = true.
Proof.
  unfold index_leb. rewrite (text_compare_antisym (fetched_at r1) (fetched_at r2)).
  destruct (text_compare (fetched_at r1) (fetched_at r2)); simpl; try discriminate; auto.
  intros H. apply Z.leb_gt in H. apply Z.leb_le. lia.
Qed.

Lemma version_le_trans (r1 r2 r3 : NormaVersion) :
  version_le r1 r2 -> version_le r2 r3 -> version_le r1 r3.
Proof.
  unfold version_le, text_lt.
  intros [H1|[E1 H1]] [H2|[E2 H2]].
  - left. eapply text_compare_lt_trans; eauto.
  - left. now rewrite <- E2.
  - left. now rewrite E1.
  - right. split; [congruence|lia].
Qed.

Lemma index_insert_perm (r : NormaVersion) (l : list NormaVersion) :
  Permutation (index_insert r l) (r :: l).
Proof.
  induction l as [|e l IH]; simpl; [reflexivity|].
  destruct (index_leb r e); [reflexivity|].
  rewrite IH. apply perm_swap.
Qed.

Lemma index_insert_sorted (r : NormaVersion) (l : list NormaVersion) :
  StronglySorted version_le l -> StronglySorted version_le (index_insert r l).
Proof.
  induction 1 as [|e l Hl IH He]; simpl.
  - repeat constructor.
  - destruct (index_leb r e) eqn:E.
    + apply index_leb_spec in E. constructor; [now constructor|].
      constructor; [exact E|].
      eapply Forall_impl; [|exact He]. intros x. now apply version_le_trans.
    + apply index_leb_total, index_leb_spec in E. constructor; [exact IH|].
      rewrite (Forall_forall). intros x Hx.
      apply (Permutation_in _ (index_insert_perm r l)) in Hx.
      destruct Hx as [<-|Hx]; [exact E|].
      rewrite Forall_forall in He. now apply He.
Qed.

Lemma index_sort_perm (l : list NormaVersion) :
  Permutation (fold_right index_insert [] l) l.
Proof.
  induction l as [|r l IH]; simpl; [reflexivity|].
  rewrite index_insert_perm. now constructor.
Qed.

Lemma index_sort_sorted (l : list NormaVersion) :
  StronglySorted version_le (fold_right index_insert [] l).
Proof.
  induction l as [|r l IH]; simpl; [constructor|now apply index_insert_sorted].
Qed.

Lemma index_insert_head (r : NormaVersion) (l : list NormaVersion) :
  Forall (version_le r) l -> index_insert r l = r :: l.
Proof.
  intros H. destruct l as [|e l]; [reflexivity|]. simpl.
  inversion H as [|? ? He _]; subst. apply index_leb_spec in He. now rewrite He.
Qed.

Lemma index_sort_sorted_id (l : list NormaVersion) :
  StronglySorted version_le l -> fold_right index_insert [] l = l.
Proof.
  induction 1 as [|r l Hl IH Hr]; simpl; [reflexivity|].
  rewrite IH. now apply index_insert_head.
Qed.

Lemma index_insert_last (r row : NormaVersion) (s : list NormaVersion) :
  version_le r row -> exists s', index_insert r (s ++ [row]) = s' ++ [row].
Proof.
  intros H. induction s as [|e s [s' IH]]; simpl.
  - apply index_leb_spec in H. rewrite H. now exists [r].
  - destruct (index_leb r e).
    + now exists (r :: e :: s).
    + rewrite IH. now exists (e :: s').
Qed.

Lemma index_sort_last (l : list NormaVersion) (row : NormaVersion) :
  Forall (fun r => version_le r row) l ->
  exists s, fold_right index_insert [] (l ++ [row]) = s ++ [row].
Proof.
  induction 1 as [|r l Hr _ [s IH]]; simpl.
  - now exists [].
  - rewrite IH. now apply index_insert_last.
Qed.

Lemma sorted_last_greatest (l : list NormaVersion) (v : NormaVersion) :
  StronglySorted version_le l -> hd_error (rev l) = Some v ->
  In v l /\ forall r, In r l -> version_le r v.
Proof.
  intros Hs Hv.
  assert (E : exists s, l = s ++ [v]).
  { destruct (rev l) as [|x s] eqn:E; [discriminate|]. injection Hv as ->.
    exists (rev s). apply (f_equal (@rev _)) in E. now rewrite rev_involutive in E. }
  destruct E as [s ->]. split; [apply in_or_app; right; now left|].
  intros r Hr. apply in_app_or in Hr as [Hr|[<-|[]]].
  - clear Hv. induction s as [|e s IH]; [contradiction|].
    inversion Hs as [|? ? Hs' He]; subst.
    destruct Hr as [<-|Hr]; [|now apply IH].
    rewrite Forall_forall in He. apply He. apply in_or_app. right. now left.
  - right. split; [reflexivity|lia].
Qed.

(** *** Binding parameters *)

Lemma bind_text_ok (s : str) : Forall Utf8.scalar_value s -> bind_text s = Ok tt.
Proof.
  intros H. unfold bind_text. now destruct (encode_total _ H) as [data ->].
Qed.

Lemma hash_content_ok (content h : str) :
  hash_content content = Ok h ->
  bind_text content = Ok tt /\ bind_text h = Ok tt.
Proof.
  unfold hash_content, bind_text.
  destruct (Utf8.encode content) as [data|] eqn:E; [|discriminate].
  intros [= <-]. split; [reflexivity|].
  assert (Hs : Forall Utf8.scalar_value (Sha256.hexdigest data)).
  { destruct (hex_of_bytes_facts _ (digest_range data)) as (_ & H & _).
    eapply Forall_impl; [|exact H].
    unfold is_lower_hex, Utf8.scalar_value. intros c Hc. lia. }
  now destruct (encode_total _ Hs) as [b ->].
Qed.

Lemma digits_from_scalar (fuel : nat) (n : Z) (acc : str) :
  Forall Utf8.scalar_value acc -> Forall Utf8.scalar_value (digits_from fuel n acc).
Proof.
  revert n acc; induction fuel as [|fuel IH]; intros n acc Hacc; simpl; [exact Hacc|].
  assert (H : Forall Utf8.scalar_value ((48 + n mod 10) :: acc)).
  { constructor; [|exact Hacc]. unfold Utf8.scalar_value.
    pose proof (Z.mod_pos_bound n 10). lia. }
  destruct (n / 10 =? 0); [exact H|now apply IH].
Qed.

Lemma zero_pad_scalar (width : nat) (n : Z) : Forall Utf8.scalar_value (zero_pad width n).
Proof.
  unfold zero_pad. apply Forall_app. split.
  - apply Forall_forall. intros c Hc. apply repeat_spec in Hc. subst c.
    unfold Utf8.scalar_value. lia.
  - apply digits_from_scalar. constructor.
Qed.

Lemma lit_scalar (s : string) : Forall Utf8.scalar_value (lit s).
Proof.
  unfold lit. apply Forall_forall. intros c Hc.
  apply in_map_iff in Hc as (a & <- & _).
  pose proof (N_ascii_bounded a). unfold Utf8.scalar_value. lia.
Qed.

Lemma stamp_scalar (t : datetime) : Forall Utf8.scalar_value (stamp t).
Proof.
  unfold stamp, isoformat_seconds.
  repeat match goal with
         | |- Forall _ (zero_pad _ _) => apply zero_pad_scalar
         | |- Forall _ (lit _) => apply lit_scalar
         | |- Forall _ (_ ++ _) => apply Forall_app; split
         end.
Qed.

(** *** The key of a new row *)

Lemma next_rowid_greater (d : db) (r : NormaVersion) :
  In r (norma_versions d) -> id r < next_rowid d.
Proof.
  unfold next_rowid. generalize (sqlite_sequence d).
  induction (norma_versions d) as [|e l IH]; intros s; simpl; [contradiction|].
  intros [->|H]; [lia|]. specialize (IH s H). lia.
Qed.

(** *** [get_latest_version] *)

Lemma get_latest_version_ok (d : db) (norma : str) (latest : option NormaVersion) :
  get_latest_version d norma = Ok latest ->
  bind_text norma = Ok tt /\ latest = hd_error (rev (index_scan norma d)).
Proof.
  unfold get_latest_version, bind.
  destruct (bind_text norma) as [[]|]; [|discriminate].
  intros [= <-]. auto.
Qed.

Lemma index_scan_history (norma : str) (d : db) :
  index_scan norma d = fold_right index_insert [] (history norma d).
Proof. reflexivity. Qed.

Lemma history_with_version (norma : str) (d : db) (row : NormaVersion) :
  norma_id row = norma ->
  history norma (with_version d row) = history norma d ++ [row].
Proof.
  intros H. unfold history, with_version. simpl.
  rewrite filter_app. simpl. rewrite H, str_eqb_refl. reflexivity.
Qed.

Lemma history_in (norma : str) (d : db) (r : NormaVersion) :
  In r (history norma d) <-> In r (norma_versions d) /\ norma_id r = norma.
Proof.
  unfold history. rewrite filter_In, str_eqb_eq. tauto.
Qed.

Lemma latest_after_append (d : db) (t : datetime) (norma url content h : str) :
  bind_text norma = Ok tt ->
  (forall r, In r (history norma d) -> text_le (fetched_at r) (stamp t)) ->
  let row := new_version d t norma url content h in
  get_latest_version (with_version d row) norma = Ok (Some row).
Proof.
  intros Hb Hclock row. unfold get_latest_version, bind. rewrite Hb.
  rewrite index_scan_history, history_with_version by reflexivity.
  destruct (index_sort_last (history norma d) row) as [s ->].
  - apply Forall_forall. intros r Hr. unfold version_le, text_lt.
    specialize (Hclock r Hr). unfold text_le in Hclock.
    apply history_in in Hr as [Hr _]. apply next_rowid_greater in Hr.
    destruct (text_compare (fetched_at r) (stamp t)) eqn:E; [|now left|congruence].
    right. apply text_compare_eq in E. split; [exact E|]. simpl. lia.
  - now rewrite rev_app_distr.
Qed.

(** *** [save_if_changed] *)


Lemma save_appends (d : db) (t : datetime) (norma url content h : str)
    (latest : option NormaVersion) :
  hash_content content = Ok h ->
  get_latest_version d norma = Ok latest ->
  match latest with Some v => content_hash v <> h | None => True end ->
  Forall Utf8.scalar_value url ->
  next_rowid d <= max_rowid ->
  save_if_changed d t norma url content
  = (Ok (true, h), with_version d (new_version d t norma url content h)).
Proof.
  intros Hh Hl Hne Hurl Hroom. unfold save_if_changed. rewrite Hh, Hl.
  replace (match latest with Some v => str_eqb (content_hash v) h | None => false end)
    with false
    by (destruct latest; [symmetry; now apply str_eqb_neq|reflexivity]).
  destruct (get_latest_version_ok _ _ _ Hl) as [Hn _].
  destruct (hash_content_ok _ _ Hh) as [Hc Hhash].
  unfold insert_row, bind.
  change (isoformat_seconds t ++ lit "Z") with (stamp t).
  rewrite Hn, (bind_text_ok _ (stamp_scalar t)), (bind_text_ok _ Hurl), Hhash, Hc.
  replace (max_rowid <? next_rowid d) with false by (symmetry; apply Z.ltb_ge; lia).
  reflexivity.
Qed.

Lemma save_cases (d : db) (t : datetime) (norma url content : str) :
  let d' := snd (save_if_changed d t norma url content) in
  d' = d
  \/ exists h, hash_content content = Ok h
               /\ d' = with_version d (new_version d t norma url content h).
Proof.
  unfold save_if_changed.
  destruct (hash_content content) as [h|]; [|now left].
  destruct (get_latest_version d norma) as [latest|]; [|now left].
  destruct (match latest with Some v => str_eqb (content_hash v) h | None => false end);
    [now left|].
  unfold insert_row, bind.
  destruct (bind_text norma) as [[]|]; [|now left].
  destruct (bind_text (isoformat_seconds t ++ lit "Z")) as [[]|]; [|now left].
  destruct (bind_text url) as [[]|]; [|now left].
  destruct (bind_text h) as [[]|]; [|now left].
  destruct (bind_text content) as [[]|]; [|now left].
  destruct (max_rowid <? next_rowid d); [now left|].
  right. exists h. split; reflexivity.
Qed.

Lemma save_keeps_hashes (d : db) (t : datetime) (norma url content : str) :
  hashes_match d -> hashes_match (snd (save_if_changed d t norma url content)).
Proof.
  intros H. destruct (save_cases d t norma url content) as [->|(h & Hh & ->)]; [exact H|].
  unfold hashes_match, with_version. simpl.
  apply Forall_app. split; [exact H|]. constructor; [exact Hh|constructor].
Qed.

Lemma capture_all_keeps_hashes (calls : list capture) (d : db) :
  hashes_match d -> hashes_match (capture_all calls d).
Proof.
  revert d; induction calls as [|c calls IH]; intros d H; [exact H|].
  apply IH. now apply save_keeps_hashes.
Qed.

Lemma save_keeps_rowid_order (d : db) (t : datetime) (norma url content : str) :
  rowid_ordered d -> rowid_ordered (snd (save_if_changed d t norma url content)).
Proof.
  intros H. destruct (save_cases d t norma url content) as [->|(h & _ & ->)]; [exact H|].
  unfold rowid_ordered, with_version in *. simpl.
  pose proof (next_rowid_greater d) as Hg.
  induction (norma_versions d) as [|e l IH]; simpl.
  - repeat constructor.
  - inversion H as [|? ? Hl He]; subst. constructor.
    + apply IH; [exact Hl|]. intros r Hr. apply Hg. now right.
    + apply Forall_app. split; [exact He|]. constructor; [|constructor].
      simpl. apply Hg. now left.
Qed.

Lemma save_keeps_chronology (d : db) (t : datetime) (norma norma' url content : str) :
  (forall r, In r (history norma' d) -> text_le (fetched_at r) (stamp t)) ->
  chronological norma d ->
  chronological norma (snd (save_if_changed d t norma' url content)).
Proof.
  intros Hclock H.
  destruct (save_cases d t norma' url content) as [->|(h & _ & ->)]; [exact H|].
  unfold chronological in *.
  destruct (str_eqb norma' norma) eqn:E.
  - apply str_eqb_eq in E. subst norma'.
    rewrite history_with_version by reflexivity.
    induction (history norma d) as [|e l IH]; simpl.
    + repeat constructor.
    + inversion H as [|? ? Hl He]; subst. constructor.
      * apply IH; [|exact Hl]. intros r Hr. apply Hclock. now right.
      * apply Forall_app. split; [exact He|]. constructor; [|constructor].
        apply Hclock. now left.
  - unfold history, with_version. simpl. rewrite filter_app. simpl. rewrite E.
    now rewrite app_nil_r.
Qed.


(** *** Histories in the order of insertion *)

Lemma StronglySorted_filter {A : Type} (R : A -> A -> Prop) (f : A -> bool) (l : list A) :
  StronglySorted R l -> StronglySorted R (filter f l).
Proof.
  induction 1 as [|x l Hl IH Hx]; simpl; [constructor|].
  destruct (f x); [|exact IH]. constructor; [exact IH|].
  rewrite Forall_forall in *. intros y Hy. apply filter_In in Hy as [Hy _]. auto.
Qed.

Lemma StronglySorted_both {A : Type} (R1 R2 R : A -> A -> Prop) (l : list A) :
  (forall x y, R1 x y -> R2 x y -> R x y) ->
  StronglySorted R1 l -> StronglySorted R2 l -> StronglySorted R l.
Proof.
  intros HR H1. induction H1 as [|x l Hl IH Hx]; intros H2; [constructor|].
  inversion H2 as [|? ? Hl2 Hx2]; subst. constructor; [now apply IH|].
  rewrite Forall_forall in *. auto.
Qed.

Lemma history_sorted (norma : str) (d : db) :
  rowid_ordered d -> chronological norma d ->
  StronglySorted version_le (history norma d).
Proof.
  intros Hr Hc.
  apply (StronglySorted_both (fun r1 r2 => id r1 < id r2)
           (fun r1 r2 => text_le (fetched_at r1) (fetched_at r2))).
  - intros x y Hid Hle. unfold version_le, text_lt, text_le in *.
    destruct (text_compare (fetched_at x) (fetched_at y)) eqn:E; [|now left|congruence].
    right. apply text_compare_eq in E. split; [exact E|lia].
  - now apply StronglySorted_filter.
  - exact Hc.
Qed.

End StoreFacts.

(** ** The claims about the version store *)

Module StoreClaims.
Import PyStr PyStrFacts App Spec Examples FingerprintFacts StoreFacts.




(** C3. For every table and every identifier (one SQLite can bind: a text
    without surrogates), [get_latest_version] returns a row of the
    identifier that no row of the identifier exceeds in [fetched_at], nor,
    among those with the same [fetched_at], in key; it returns [None]
    when the identifier has no row, and only then. *)
Theorem get_latest_version_greatest (d : db) (norma : str) :
  Forall Utf8.scalar_value norma ->
  exists latest,
    get_latest_version d norma = Ok latest
    /\ match latest with
       | None => forall r, In r (norma_versions d) -> norma_id r <> norma
       | Some v =>
           In v (norma_versions d) /\ norma_id v = norma
           /\ forall r, In r (norma_versions d) -> norma_id r = norma ->
                        text_lt (fetched_at r) (fetched_at v)
                        \/ (fetched_at r = fetched_at v /\ id r <= id v)
       end.
Proof.
  intros Hn. exists (hd_error (rev (index_scan norma d))).
  split; [unfold get_latest_version, bind; now rewrite (bind_text_ok _ Hn)|].
  pose proof (index_sort_perm (history norma d)) as Hperm.
  pose proof (index_sort_sorted (history norma d)) as Hsorted.
  rewrite <- index_scan_history in Hperm, Hsorted.
  destruct (hd_error (rev (index_scan norma d))) as [v|] eqn:E.
  - destruct (sorted_last_greatest _ _ Hsorted E) as [Hin Hmax].
    apply (Permutation_in _ Hperm), history_in in Hin as [Hin Hv].
    repeat split; auto.
    intros r Hr Hrn. apply Hmax.
    apply (Permutation_in _ (Permutation_sym Hperm)), history_in. auto.
  - intros r Hr Hrn.
    assert (Hnil : index_scan norma d = []).
    { destruct (rev (index_scan norma d)) eqn:E'; [|discriminate].
      apply (f_equal (@rev _)) in E'. now rewrite rev_involutive in E'. }
    rewrite Hnil in Hperm. apply Permutation_nil in Hperm.
    assert (Hin : In r (history norma d)) by (apply history_in; auto).
    now rewrite Hperm in Hin.
Qed.

(** C3 at the example: the latest version of LEY-1 after the two
    captures. *)
Lemma latest_of_two_versions :
  Forall Utf8.scalar_value ley
  /\ exists latest,
    get_latest_version two_versions ley = Ok latest
    /\ match latest with
       | None => forall r, In r (norma_versions two_versions) -> norma_id r <> ley
       | Some v =>
           In v (norma_versions two_versions) /\ norma_id v = ley
           /\ forall r, In r (norma_versions two_versions) -> norma_id r = ley ->
                        text_lt (fetched_at r) (fetched_at v)
                        \/ (fetched_at r = fetched_at v /\ id r <= id v)
       end.
Proof.
  split; [apply lit_scalar|].
  apply (get_latest_version_greatest two_versions ley). apply lit_scalar.
Defined.





(** C2. After any sequence of captures from the empty table, whatever
    their arguments and the readings of the clock, the hash of every row is
    the fingerprint of its text. A call never takes a hash from its
    caller: it leaves the table as it is, or appends one row whose text is
    its argument and whose hash is the fingerprint it computed of it. *)
Theorem stored_hash_is_fingerprint (calls : list capture) :
  hashes_match (capture_all calls empty_db)
  /\ forall (d : db) (t : datetime) (norma url content : str),
       let d' := snd (save_if_changed d t norma url content) in
       d' = d
       \/ exists h, hash_content content = Ok h
                    /\ d' = with_version d (new_version d t norma url content h).
Proof.
  split; [apply capture_all_keeps_hashes; constructor|].
  intros d t norma url content. apply save_cases.
Qed.

(** C8. Whenever the latest version of the identifier has a hash other
    than the fingerprint of the text, [save_if_changed] appends a row and
    returns [True], whatever the hashes of the older versions are. *)
Theorem save_if_changed_compares_latest_only
    (d : db) (t : datetime) (norma url content h : str) (v : NormaVersion) :
  hash_content content = Ok h ->
  Forall Utf8.scalar_value url ->
  next_rowid d <= max_rowid ->
  get_latest_version d norma = Ok (Some v) ->
  content_hash v <> h ->
  save_if_changed d t norma url content
  = (Ok (true, h), with_version d (new_version d t norma url content h)).
Proof.
  intros Hh Hu Hroom Hl Hv.
  now apply (save_appends d t norma url content h (Some v)).
Qed.


(** C8 at the example: the original text captured again after the
    modified one is a third version, although the first version has its
    hash. *)
Lemma original_text_captured_again :
  map content_hash (norma_versions two_versions) = [original_hash; modified_hash]
  /\ hash_content original = Ok original_hash
  /\ save_if_changed two_versions one_past ley portal original
     = (Ok (true, original_hash),
        with_version two_versions
          (new_version two_versions one_past ley portal original original_hash)).
Proof.
  split; [vm_compute; reflexivity|].
  split; [vm_compute; reflexivity|].
  apply (save_if_changed_compares_latest_only two_versions one_past ley portal original
           original_hash (new_version one_version half_past ley portal modified modified_hash)).
  - vm_compute. reflexivity.
  - apply lit_scalar.
  - vm_compute. discriminate.
  - vm_compute. reflexivity.
  - intros H. vm_compute in H. discriminate.
Defined.

End StoreClaims.

(** ** The matcher of difflib *)

Module DifflibFacts.
Import PyStr PyStrFacts Difflib MatcherSpec.

Local Open Scope nat_scope.

Section Matching.

Variables a b : list str.


(** *** The positions of a line *)

Lemma indices_from_spec (l : list str) (x : str) (s j : nat) :
  In j (indices_from s l x) -> s <= j < s + length l /\ nth (j - s) l [] = x.
Proof.
  revert s; induction l as [|y l IH]; intros s; simpl; [contradiction|].
  destruct (str_eqb x y) eqn:E.
  - intros [<-|H].
    + apply str_eqb_eq in E. rewrite Nat.sub_diag. split; [lia|now symmetry].
    + apply IH in H as [H1 H2]. split; [lia|].
      replace (j - s) with (S (j - S s)) by lia. exact H2.
  - intros H. apply IH in H as [H1 H2]. split; [lia|].
    replace (j - s) with (S (j - S s)) by lia. exact H2.
Qed.

Lemma b2j_spec (x : str) (j : nat) :
  In j (b2j b x) -> j < length b /\ item b j = x.
Proof.
  unfold b2j. destruct (popular b x); [contradiction|].
  intros H. apply indices_from_spec in H as [H1 H2].
  rewrite Nat.sub_0_r in H2. split; [lia|exact H2].
Qed.

(** *** One row of the search

    The dictionary of a row maps a position [j] of [b] to the length of
    the match that ends at the row and at [j]. [n] is the row that
    follows. *)

Lemma dict_ok_nil (alo blo bhi n : nat) : dict_ok a b alo blo bhi n [].
Proof. intros j. simpl. repeat split; try lia. Qed.

Lemma scan_row_ok (alo ahi blo bhi i : nat) (j2len : list (nat * nat)) (js : list nat) :
  alo <= i < ahi ->
  dict_ok a b alo blo bhi i j2len ->
  (forall j, In j js -> item b j = item a i) ->
  forall newj2len best,
    dict_ok a b alo blo bhi (S i) newj2len ->
    match_in a b alo ahi blo bhi best ->
    dict_ok a b alo blo bhi (S i) (fst (scan_row i blo bhi j2len js newj2len best))
    /\ match_in a b alo ahi blo bhi (snd (scan_row i blo bhi j2len js newj2len best)).
Proof.
  intros Hi Hprev. induction js as [|j js IH]; intros Hjs newj2len best Hnew Hbest;
    simpl; [now split|].
  destruct (j <? blo) eqn:E1; [apply IH; auto; intros; apply Hjs; now right|].
  destruct (bhi <=? j) eqn:E2; [now split|].
  apply Nat.ltb_ge in E1. apply Nat.leb_gt in E2.
  set (prev := match j with O => O | S j' => j2len_get j2len j' end).
  assert (Hprev' : prev <= i - alo /\ prev <= j - blo
                    /\ forall t, t < prev -> item a (i - 1 - t) = item b (j - 1 - t)).
  { subst prev. destruct j as [|j']; [repeat split; try lia; intros; lia|].
    destruct (Hprev j') as (H1 & H2 & _ & H4). repeat split; try lia.
    intros t Ht. rewrite (H4 t Ht). f_equal. lia. }
  destruct Hprev' as (Hp1 & Hp2 & Hp3).
  assert (Hrun : forall t, t < S prev -> item a (i - t) = item b (j - t)).
  { intros [|t] Ht.
    - rewrite !Nat.sub_0_r. symmetry. apply Hjs. now left.
    - replace (i - S t) with (i - 1 - t) by lia.
      replace (j - S t) with (j - 1 - t) by lia. apply Hp3. lia. }
  destruct best as [[besti bestj] bestsize].
  apply IH.
  - intros; apply Hjs; now right.
  - intros key. cbv zeta. cbn [j2len_get]. destruct (j =? key) eqn:E.
    + apply Nat.eqb_eq in E. subst key.
      split; [lia|]. split; [lia|]. split; [lia|].
      intros t Ht. replace (S i - 1 - t) with (i - t) by lia. now apply Hrun.
    + apply Hnew.
  - destruct (bestsize <? S prev); [|exact Hbest].
    unfold match_in. split; [lia|]. split; [lia|]. split; [lia|]. split; [lia|].
    intros t Ht. specialize (Hrun (prev - t)).
    replace (i - (prev - t)) with (S i - S prev + t) in Hrun by lia.
    replace (j - (prev - t)) with (S j - S prev + t) in Hrun by lia.
    apply Hrun. lia.
Qed.

Lemma scan_rows_ok (alo ahi blo bhi : nat) (n i : nat) (j2len : list (nat * nat)) (best : block) :
  alo <= i -> i + n <= ahi ->
  dict_ok a b alo blo bhi i j2len ->
  match_in a b alo ahi blo bhi best ->
  match_in a b alo ahi blo bhi (scan_rows a b n i blo bhi j2len best).
Proof.
  revert i j2len best; induction n as [|n IH]; intros i j2len best H1 H2 Hd Hb;
    simpl; [exact Hb|].
  destruct (scan_row_ok alo ahi blo bhi i j2len (b2j b (item a i))
              ltac:(lia) Hd ltac:(intros j Hj; now apply b2j_spec in Hj)
              [] best (dict_ok_nil _ _ _ _) Hb) as [Hd' Hb'].
  destruct (scan_row i blo bhi j2len (b2j b (item a i)) [] best) as [newj2len best'].
  apply IH; auto; lia.
Qed.

Lemma extend_left_ok (alo ahi blo bhi fuel : nat) (best : block) :
  match_in a b alo ahi blo bhi best ->
  match_in a b alo ahi blo bhi (extend_left a b fuel alo blo best).
Proof.
  revert best; induction fuel as [|fuel IH]; intros [[i j] k] H; simpl; [exact H|].
  destruct ((alo <? i) && (blo <? j) && str_eqb (item a (i - 1)) (item b (j - 1))) eqn:E;
    [|exact H].
  apply andb_prop in E as [E E3]. apply andb_prop in E as [E1 E2].
  apply Nat.ltb_lt in E1, E2. apply str_eqb_eq in E3.
  apply IH. destruct H as (H1 & H2 & H3 & H4 & H5).
  unfold match_in. split; [lia|]. split; [lia|]. split; [lia|]. split; [lia|].
  intros [|t] Ht.
  - now rewrite !Nat.add_0_r.
  - replace (i - 1 + S t) with (i + t) by lia.
    replace (j - 1 + S t) with (j + t) by lia. apply H5. lia.
Qed.

Lemma extend_right_ok (alo ahi blo bhi fuel : nat) (best : block) :
  match_in a b alo ahi blo bhi best ->
  match_in a b alo ahi blo bhi (extend_right a b fuel ahi bhi best).
Proof.
  revert best; induction fuel as [|fuel IH]; intros [[i j] k] H; simpl; [exact H|].
  destruct ((i + k <? ahi) && (j + k <? bhi) && str_eqb (item a (i + k)) (item b (j + k))) eqn:E;
    [|exact H].
  apply andb_prop in E as [E E3]. apply andb_prop in E as [E1 E2].
  apply Nat.ltb_lt in E1, E2. apply str_eqb_eq in E3.
  apply IH. destruct H as (H1 & H2 & H3 & H4 & H5).
  unfold match_in. split; [lia|]. split; [lia|]. split; [lia|]. split; [lia|].
  intros t Ht. destruct (Nat.eq_dec t k) as [->|Hne]; [exact E3|]. apply H5. lia.
Qed.

(** [find_longest_match] returns a match inside its rectangle. *)
Lemma find_longest_match_ok (alo ahi blo bhi : nat) :
  alo <= ahi -> blo <= bhi ->
  match_in a b alo ahi blo bhi (find_longest_match a b alo ahi blo bhi).
Proof.
  intros H1 H2. unfold find_longest_match.
  apply extend_right_ok, extend_left_ok, (scan_rows_ok alo ahi blo bhi).
  - lia.
  - lia.
  - apply dict_ok_nil.
  - unfold match_in. repeat split; try lia.
Qed.

End Matching.


(** *** The matching blocks

    The rectangles still to search and the blocks found lie apart from
    one another, each wholly before or wholly after the other in both
    sequences. *)







Lemma apart_sym (r1 r2 : rect) : apart r1 r2 -> apart r2 r1.
Proof. unfold apart. tauto. Qed.

Lemma apart_inside (r outer x : rect) : inside r outer -> apart outer x -> apart r x.
Proof.
  destruct r as [[[alo ahi] blo] bhi], outer as [[[alo' ahi'] blo'] bhi'],
    x as [[[xalo xahi] xblo] xbhi].
  unfold inside, apart, before. lia.
Qed.

Lemma pairwise_perm (l l' : list rect) : Permutation l l' -> pairwise l -> pairwise l'.
Proof.
  induction 1 as [|x l l' Hp IH|x y l|l l' l'' _ IH1 _ IH2]; simpl; auto.
  - intros [H1 H2]. split; [|auto].
    rewrite Forall_forall in *. intros y Hy. apply H1.
    now apply (Permutation_in _ (Permutation_sym Hp)).
  - intros [H1 [H2 H3]]. inversion H1 as [|? ? Hxy H1']; subst.
    repeat split; auto. constructor; [now apply apart_sym|exact H2].
Qed.

Lemma pairwise_tail (r : rect) (l : list rect) : pairwise (r :: l) -> pairwise l.
Proof. now intros [_ H]. Qed.

Section Blocks.

Variables a b : list str.





Lemma match_in_weaken (alo ahi blo bhi : nat) (x : block) :
  rect_ok a b (alo, ahi, blo, bhi) -> match_in a b alo ahi blo bhi x ->
  match_in a b 0 (length a) 0 (length b) x.
Proof.
  destruct x as [[i j] k]. unfold rect_ok, match_in.
  intros (H1 & H2 & H3 & H4) (M1 & M2 & M3 & M4 & M5).
  split; [lia|]. split; [lia|]. split; [lia|]. split; [lia|]. exact M5.
Qed.

(** The loop of [get_matching_blocks] ends within its fuel, and the
    blocks it found are matches that lie apart. *)
Lemma blocks_loop_inv (fuel : nat) :
  forall (queue : list rect) (mb : list block),
    Forall (rect_ok a b) queue ->
    Forall (good_block a b) mb ->
    pairwise (queue ++ map block_rect mb) ->
    queue_measure queue <= fuel ->
    exists res,
      blocks_loop a b fuel queue mb = Some res
      /\ Forall (good_block a b) res /\ pairwise (map block_rect res).
Proof.
  induction fuel as [|fuel IH]; intros queue mb Hq Hmb Hpw Hm.
  - destruct queue as [|[[[alo ahi] blo] bhi] queue]; [now exists mb|].
    simpl in Hm. lia.
  - destruct queue as [|[[[alo ahi] blo] bhi] queue]; [now exists mb|].
    inversion Hq as [|? ? Hr Hq']; subst.
    simpl in Hpw. destruct Hpw as [Hr_apart Hpw].
    simpl in Hm.
    pose proof Hr as Hr'. destruct Hr' as (R1 & R2 & R3 & R4).
    pose proof (find_longest_match_ok a b alo ahi blo bhi R1 R3) as Hx.
    cbn [blocks_loop].
    destruct (find_longest_match a b alo ahi blo bhi) as [[i j] k].
    destruct k as [|k'].
    { apply IH; auto. lia. }
    set (k := S k') in *.
    pose proof Hx as Hx'. destruct Hx' as (M1 & M2 & M3 & M4 & M5).
    set (L := (alo, i, blo, j)). set (R := (i + k, ahi, j + k, bhi)).
    set (B := block_rect (i, j, k)).
    set (rest := queue ++ map block_rect mb) in *.
    assert (HL : inside L (alo, ahi, blo, bhi)) by (unfold inside, L; lia).
    assert (HR : inside R (alo, ahi, blo, bhi)) by (unfold inside, R; lia).
    assert (HB : inside B (alo, ahi, blo, bhi)) by (unfold inside, B, block_rect; lia).
    assert (Hall : pairwise (R :: L :: B :: rest)).
    { simpl. repeat split.
      - constructor; [right; unfold before, L, R; lia|].
        constructor; [right; unfold before, B, R, block_rect; lia|].
        eapply Forall_impl; [|exact Hr_apart]. intros x. now apply apart_inside.
      - constructor; [left; unfold before, L, B, block_rect; lia|].
        eapply Forall_impl; [|exact Hr_apart]. intros x. now apply apart_inside.
      - eapply Forall_impl; [|exact Hr_apart]. intros x. now apply apart_inside.
      - exact Hpw. }
    assert (HokL : rect_ok a b L) by (unfold rect_ok, L; lia).
    assert (HokR : rect_ok a b R) by (unfold rect_ok, R; lia).
    assert (Hgood : Forall (good_block a b) (mb ++ [(i, j, k)])).
    { apply Forall_app. split; [exact Hmb|]. constructor; [|constructor].
      split; [simpl; lia|]. now apply (match_in_weaken alo ahi blo bhi). }
    assert (Hperm : Permutation (B :: rest) (queue ++ map block_rect (mb ++ [(i, j, k)]))).
    { rewrite map_app. simpl map. fold B. unfold rest. rewrite app_assoc.
      apply Permutation_cons_append. }
    apply IH.
    + destruct ((alo <? i) && (blo <? j)); destruct ((i + k <? ahi) && (j + k <? bhi));
        repeat match goal with |- Forall _ (_ :: _) => constructor end; auto.
    + exact Hgood.
    + destruct ((alo <? i) && (blo <? j)); destruct ((i + k <? ahi) && (j + k <? bhi));
        cbn [app].
      * apply (pairwise_perm (R :: L :: B :: rest)); [|exact Hall].
        now do 2 apply perm_skip.
      * apply (pairwise_perm (L :: B :: rest)); [|exact (pairwise_tail _ _ Hall)].
        now apply perm_skip.
      * apply (pairwise_perm (R :: B :: rest)).
        -- now apply perm_skip.
        -- apply (pairwise_perm _ (L :: R :: B :: rest)) in Hall; [|apply perm_swap].
           exact (pairwise_tail _ _ Hall).
      * apply (pairwise_perm (B :: rest)); [exact Hperm|].
        exact (pairwise_tail _ _ (pairwise_tail _ _ Hall)).
    + destruct ((alo <? i) && (blo <? j)); destruct ((i + k <? ahi) && (j + k <? bhi));
        unfold L, R; simpl queue_measure; lia.
Qed.

(** *** Sorting and collapsing the blocks *)


Lemma bbefore_trans (x y z : block) : bbefore x y -> bbefore y z -> bbefore x z.
Proof.
  destruct x as [[i1 j1] k1], y as [[i2 j2] k2], z as [[i3 j3] k3].
  unfold bbefore, before, block_rect. lia.
Qed.

Lemma insert_block_in (x y : block) (l : list block) :
  In y (insert_block x l) <-> y = x \/ In y l.
Proof.
  induction l as [|e l IH]; simpl; [intuition congruence|].
  destruct (block_leb x e); simpl; [intuition congruence|].
  rewrite IH. intuition congruence.
Qed.

Lemma sort_blocks_in (y : block) (l : list block) :
  In y (sort_blocks l) <-> In y l.
Proof.
  unfold sort_blocks. induction l as [|x l IH]; simpl; [tauto|].
  rewrite insert_block_in, IH. intuition congruence.
Qed.

Lemma block_leb_before (x y : block) :
  0 < snd x -> 0 < snd y -> apart (block_rect x) (block_rect y) ->
  if block_leb x y then bbefore x y else bbefore y x.
Proof.
  destruct x as [[i1 j1] k1], y as [[i2 j2] k2]. simpl.
  unfold apart, bbefore, before, block_rect. intros H1 H2 H.
  destruct (i1 <? i2) eqn:E1; simpl.
  - apply Nat.ltb_lt in E1. lia.
  - apply Nat.ltb_ge in E1. destruct (i1 =? i2) eqn:E2; simpl.
    + apply Nat.eqb_eq in E2. lia.
    + apply Nat.eqb_neq in E2. lia.
Qed.

Lemma insert_block_sorted (x : block) (l : list block) :
  0 < snd x -> Forall (fun y => 0 < snd y) l ->
  Forall (fun y => apart (block_rect x) (block_rect y)) l ->
  StronglySorted bbefore l ->
  StronglySorted bbefore (insert_block x l).
Proof.
  intros Hx Hl Ha Hs. induction Hs as [|e l Hs IH He]; simpl.
  - repeat constructor.
  - inversion Hl as [|? ? Hek Hl']; subst. inversion Ha as [|? ? Hxe Ha']; subst.
    pose proof (block_leb_before x e Hx Hek Hxe) as Hcmp.
    destruct (block_leb x e).
    + constructor; [now constructor|].
      constructor; [exact Hcmp|].
      eapply Forall_impl; [|exact He]. intros z. now apply bbefore_trans.
    + constructor; [now apply IH|].
      apply Forall_forall. intros z Hz. apply insert_block_in in Hz as [->|Hz]; [exact Hcmp|].
      rewrite Forall_forall in He. now apply He.
Qed.

Lemma sort_blocks_sorted (l : list block) :
  Forall (fun y => 0 < snd y) l ->
  pairwise (map block_rect l) ->
  StronglySorted bbefore (sort_blocks l).
Proof.
  induction l as [|x l IH]; [constructor|].
  intros Hl [Ha Hp]. inversion Hl as [|? ? Hx Hl']; subst.
  change (sort_blocks (x :: l)) with (insert_block x (sort_blocks l)).
  apply insert_block_sorted; auto.
  - apply Forall_forall. intros y Hy. apply (proj1 (sort_blocks_in y l)) in Hy.
    rewrite Forall_forall in Hl'. now apply Hl'.
  - apply Forall_forall. intros y Hy. apply (proj1 (sort_blocks_in y l)) in Hy.
    rewrite Forall_forall in Ha. apply Ha. now apply in_map.
Qed.



Lemma collapse_ok (l : list block) :
  forall cur,
    matching a b cur ->
    Forall (good_block a b) l ->
    StronglySorted bbefore l ->
    Forall (bbefore cur) l ->
    Forall (good_block a b) (collapse cur l)
    /\ StronglySorted bbefore (collapse cur l)
    /\ Forall (starts_from cur) (collapse cur l).
Proof.
  induction l as [|[[i2 j2] k2] l IH]; intros [[i1 j1] k1] Hcur Hl Hs Hb.
  - destruct k1 as [|k1']; cbn [collapse].
    + repeat split; constructor.
    + split; [constructor; [split; [simpl; lia|exact Hcur]|constructor]|].
      split; [repeat constructor|].
      constructor; [unfold starts_from; simpl; lia|constructor].
  - inversion Hl as [|? ? [Hk2 Hy] Hl']; subst.
    inversion Hs as [|? ? Hs' Hyl]; subst.
    inversion Hb as [|? ? Hcy Hb']; subst.
    cbn [collapse].
    destruct ((i1 + k1 =? i2) && (j1 + k1 =? j2)) eqn:E.
    + apply andb_prop in E as [E1 E2]. apply Nat.eqb_eq in E1, E2. subst i2 j2.
      assert (Hc' : matching a b (i1, j1, k1 + k2)).
      { destruct Hcur as (C1 & C2 & C3 & C4 & C5). destruct Hy as (Y1 & Y2 & Y3 & Y4 & Y5).
        unfold matching, match_in.
        split; [lia|]. split; [lia|]. split; [lia|]. split; [lia|].
        intros t Ht. destruct (Nat.lt_ge_cases t k1) as [Hlt|Hge]; [now apply C5|].
        replace (i1 + t) with (i1 + k1 + (t - k1)) by lia.
        replace (j1 + t) with (j1 + k1 + (t - k1)) by lia. apply Y5. lia. }
      assert (Hb'' : Forall (bbefore (i1, j1, k1 + k2)) l).
      { eapply Forall_impl; [|exact Hyl]. intros [[i3 j3] k3].
        unfold bbefore, before, block_rect. lia. }
      destruct (IH _ Hc' Hl' Hs' Hb'') as (G1 & G2 & G3).
      split; [exact G1|]. split; [exact G2|exact G3].
    + destruct (IH (i2, j2, k2) Hy Hl' Hs' Hyl) as (G1 & G2 & G3).
      assert (Hcy' : i1 + k1 <= i2 /\ j1 + k1 <= j2)
        by (unfold bbefore, before, block_rect in Hcy; lia).
      destruct k1 as [|k1'].
      * repeat split; auto.
        eapply Forall_impl; [|exact G3]. intros [[i3 j3] k3].
        unfold starts_from. simpl. lia.
      * split; [constructor; [split; [simpl; lia|exact Hcur]|exact G1]|].
        split.
        -- constructor; [exact G2|].
           eapply Forall_impl; [|exact G3]. intros [[i3 j3] k3].
           unfold starts_from, bbefore, before, block_rect. simpl. lia.
        -- constructor; [unfold starts_from; simpl; lia|].
           eapply Forall_impl; [|exact G3]. intros [[i3 j3] k3].
           unfold starts_from. simpl. lia.
Qed.


Lemma chain_of_sorted (l : list block) :
  forall i j,
    StronglySorted bbefore l ->
    Forall (matching a b) l ->
    Forall (fun e => i <= fst (fst e) /\ j <= snd (fst e)) l ->
    i <= length a -> j <= length b ->
    chain i j (l ++ [(length a, length b, 0)]).
Proof.
  induction l as [|[[ai bj] size] l IH]; intros i j Hs Hm Hf Hi Hj.
  - simpl. lia.
  - inversion Hs as [|? ? Hs' Hb]; subst. inversion Hm as [|? ? Hm1 Hm']; subst.
    inversion Hf as [|? ? Hf1 _]; subst. simpl in Hf1.
    destruct Hm1 as (M1 & M2 & M3 & M4 & _).
    cbn [app chain]. split; [lia|]. split; [lia|].
    apply IH; auto; try lia.
    eapply Forall_impl; [|exact Hb]. intros [[i3 j3] k3].
    unfold bbefore, before, block_rect. simpl. lia.
Qed.

(** [get_matching_blocks] returns matches that follow one another and end
    with the sentinel. *)
Lemma get_matching_blocks_ok :
  exists blocks,
    get_matching_blocks a b = blocks ++ [(length a, length b, 0)]
    /\ Forall (matching a b) (get_matching_blocks a b)
    /\ chain 0 0 (get_matching_blocks a b).
Proof.
  unfold get_matching_blocks. cbv zeta.
  destruct (blocks_loop_inv (2 * length a + 1) [(0, length a, 0, length b)] [])
    as (res & -> & Hgood & Hpw).
  - constructor; [unfold rect_ok; lia|constructor].
  - constructor.
  - simpl. split; constructor.
  - simpl. lia.
  - assert (Hsorted : StronglySorted bbefore (sort_blocks res)).
    { apply sort_blocks_sorted; [|exact Hpw].
      eapply Forall_impl; [|exact Hgood]. now intros x [H _]. }
    assert (Hgood' : Forall (good_block a b) (sort_blocks res)).
    { apply Forall_forall. intros x Hx. apply (proj1 (sort_blocks_in x res)) in Hx.
      rewrite Forall_forall in Hgood. now apply Hgood. }
    destruct (collapse_ok (sort_blocks res) (0, 0, 0)) as (G1 & G2 & G3); auto.
    { unfold matching, match_in. split; [lia|]. split; [lia|]. split; [lia|].
      split; [lia|]. intros; lia. }
    { apply Forall_forall. intros [[i j] k] _. unfold bbefore, before, block_rect. lia. }
    assert (Hm : Forall (matching a b) (collapse (0, 0, 0) (sort_blocks res))).
    { eapply Forall_impl; [|exact G1]. now intros x [_ H]. }
    exists (collapse (0, 0, 0) (sort_blocks res)). split; [reflexivity|]. split.
    + apply Forall_app. split; [exact Hm|]. constructor; [|constructor].
      unfold matching, match_in. split; [lia|]. split; [lia|]. split; [lia|].
      split; [lia|]. intros; lia.
    + apply chain_of_sorted; [exact G2|exact Hm| |lia|lia].
      apply Forall_forall. intros [[i j] k] _. simpl. lia.
Qed.

End Blocks.

(** *** The opcodes *)


Section Opcodes.

Variables a b : list str.

Lemma skipn_item (l : list str) (i : nat) :
  i < length l -> skipn i l = item l i :: skipn (S i) l.
Proof.
  revert i; induction l as [|x l IH]; intros i H; simpl in H; [lia|].
  destruct i as [|i]; [reflexivity|].
  change (skipn (S i) (x :: l)) with (skipn i l).
  change (item (x :: l) (S i)) with (item l i).
  rewrite IH by lia. reflexivity.
Qed.

Lemma slices_equal (k : nat) :
  forall i j,
    (forall t, t < k -> item a (i + t) = item b (j + t)) ->
    i + k <= length a -> j + k <= length b ->
    firstn k (skipn i a) = firstn k (skipn j b).
Proof.
  induction k as [|k IH]; intros i j H Ha Hb; [reflexivity|].
  rewrite (skipn_item a i), (skipn_item b j) by lia.
  cbn [firstn]. f_equal.
  - specialize (H 0 ltac:(lia)). now rewrite !Nat.add_0_r in H.
  - apply IH; try lia. intros t Ht. specialize (H (S t) ltac:(lia)).
    now rewrite !Nat.add_succ_r in H.
Qed.

Lemma opcodes_all_equal (blocks : list block) :
  forall i j,
    chain i j blocks ->
    Forall (matching a b) blocks ->
    (exists pre, blocks = pre ++ [(length a, length b, 0)]) ->
    existsb is_change (opcodes_from i j blocks) = false ->
    skipn i a = skipn j b.
Proof.
  induction blocks as [|[[ai bj] size] rest IH]; intros i j Hc Hm [pre Hpre] Hops.
  - now destruct pre.
  - destruct Hc as (Hi & Hj & Hc). inversion Hm as [|? ? Hx Hm']; subst.
    cbn [opcodes_from] in Hops. rewrite !existsb_app in Hops.
    apply orb_false_iff in Hops as [Hchange Hops].
    apply orb_false_iff in Hops as [_ Hops].
    assert (E : i = ai /\ j = bj).
    { destruct (i <? ai) eqn:E1; destruct (j <? bj) eqn:E2; simpl in Hchange;
        try discriminate.
      apply Nat.ltb_ge in E1, E2. lia. }
    destruct E as [-> ->].
    destruct rest as [|y rest].
    + destruct pre as [|? [|? ?]]; try discriminate.
      injection Hpre as -> -> ->. now rewrite !skipn_all.
    + assert (Hrest : exists pre', y :: rest = pre' ++ [(length a, length b, 0)]).
      { destruct pre as [|x pre]; [discriminate|]. injection Hpre as _ Hpre. now exists pre. }
      specialize (IH _ _ Hc Hm' Hrest Hops).
      destruct Hx as (_ & X2 & _ & X4 & X5).
      rewrite <- (firstn_skipn size (skipn ai a)), <- (firstn_skipn size (skipn bj b)).
      rewrite !skipn_skipn, (Nat.add_comm size ai), (Nat.add_comm size bj), IH.
      f_equal. apply slices_equal; auto.
Qed.

(** Two different sequences have an opcode that is no [equal]. *)
Lemma different_has_change : a <> b -> existsb is_change (get_opcodes a b) = true.
Proof.
  intros Hne. destruct (existsb is_change (get_opcodes a b)) eqn:E; [reflexivity|].
  exfalso. apply Hne.
  destruct (get_matching_blocks_ok a b) as (pre & Hpre & Hm & Hc).
  apply (opcodes_all_equal (get_matching_blocks a b) 0 0); auto.
  now exists pre.
Qed.

(** An opcode that is no [equal] has lines to show. *)
Lemma opcodes_from_change (blocks : list block) (o : opcode) :
  forall i j,
    Forall (matching a b) blocks ->
    In o (opcodes_from i j blocks) ->
    let '(t, i1, i2, j1, j2) := o in
    match t with
    | Equal => True
    | Replace => i1 < i2 <= length a /\ j1 < j2 <= length b
    | Delete => i1 < i2 <= length a
    | Insert => j1 < j2 <= length b
    end.
Proof.
  induction blocks as [|[[ai bj] size] rest IH]; intros i j Hm Hin; [contradiction|].
  inversion Hm as [|? ? Hx Hm']; subst. destruct Hx as (_ & X2 & _ & X4 & _).
  cbn [opcodes_from] in Hin.
  apply in_app_or in Hin as [Hin|Hin]; [|apply in_app_or in Hin as [Hin|Hin]].
  - destruct (i <? ai) eqn:E1; destruct (j <? bj) eqn:E2; simpl in Hin;
      try contradiction; destruct Hin as [<-|[]];
      try apply Nat.ltb_lt in E1; try apply Nat.ltb_lt in E2; lia.
  - destruct size; [contradiction|]. destruct Hin as [<-|[]]. exact I.
  - exact (IH _ _ Hm' Hin).
Qed.

Lemma slice_nonempty (l : list str) (i j : nat) :
  i < j <= length l -> exists line, In line (slice l i j) /\ In line l.
Proof.
  intros H. unfold slice. rewrite (skipn_item l i) by lia.
  replace (j - i) with (S (j - i - 1)) by lia. cbn [firstn].
  exists (item l i). split; [now left|]. apply nth_In. lia.
Qed.

Lemma in_firstn {A : Type} (n : nat) (l : list A) (x : A) :
  In x (firstn n l) -> In x l.
Proof.
  revert l; induction n as [|n IH]; intros [|y l]; simpl; try contradiction.
  intros [->|H]; auto.
Qed.

Lemma slice_incl (l : list str) (i j : nat) (line : str) :
  In line (slice l i j) -> In line l.
Proof.
  unfold slice. intros H. apply in_firstn in H.
  rewrite <- (firstn_skipn i l). apply in_or_app. now right.
Qed.

(** *** The groups *)

Lemma trim_first_keeps (n : nat) (codes : list opcode) (c : opcode) :
  is_change c = true -> In c codes -> In c (trim_first n codes).
Proof.
  intros Hc Hin. destruct codes as [|[[[[t i1] i2] j1] j2] rest]; [contradiction|].
  destruct t; simpl; auto.
  destruct Hin as [<-|Hin]; [discriminate|now right].
Qed.

Lemma trim_last_keeps (n : nat) (codes : list opcode) (c : opcode) :
  is_change c = true -> In c codes -> In c (trim_last n codes).
Proof.
  intros Hc. induction codes as [|[[[[t i1] i2] j1] j2] rest IH]; [contradiction|].
  intros [<-|Hin].
  - destruct t; try discriminate; destruct rest; simpl; auto.
  - specialize (IH Hin). destruct rest as [|y rest]; [contradiction|].
    destruct t; simpl; auto.
Qed.

Lemma group_loop_keeps (n : nat) (codes : list opcode) (c : opcode) :
  is_change c = true ->
  forall group,
    In c (group ++ codes) ->
    exists g, In g (group_loop n codes group) /\ In c g.
Proof.
  intros Hc. induction codes as [|[[[[t i1] i2] j1] j2] rest IH]; intros group Hin.
  - rewrite app_nil_r in Hin. simpl.
    destruct group as [|[[[[t i1] i2] j1] j2] [|y group]]; [contradiction| |].
    + destruct Hin as [<-|[]]. destruct t; try discriminate; eexists; split;
        try (left; reflexivity); now left.
    + destruct t; eexists; split; try (left; reflexivity); exact Hin.
  - cbn [group_loop].
    destruct (tag_eqb t Equal && (n + n <? i2 - i1)) eqn:E.
    + apply andb_prop in E as [Et _].
      apply in_app_or in Hin as [Hin|[<-|Hin]].
      * eexists. split; [left; reflexivity|]. apply in_or_app. now left.
      * unfold is_change in Hc. simpl in Hc. rewrite Et in Hc. discriminate.
      * destruct (IH [(t, Nat.max i1 (i2 - n), i2, Nat.max j1 (j2 - n), j2)])
          as (g & Hg & Hcg); [now right|].
        exists g. split; [now right|exact Hcg].
    + apply IH. rewrite <- app_assoc. exact Hin.
Qed.

Lemma grouped_keeps (c : opcode) :
  is_change c = true -> In c (get_opcodes a b) ->
  exists g, In g (get_grouped_opcodes a b 3) /\ In c g.
Proof.
  intros Hc Hin. unfold get_grouped_opcodes.
  apply group_loop_keeps; [exact Hc|]. simpl app.
  apply trim_last_keeps, trim_first_keeps; auto.
  destruct (get_opcodes a b); [contradiction|exact Hin].
Qed.

(** *** The lines of the unified format *)

Lemma hunk_lines (g : list opcode) (c : opcode) (line : str) :
  In c g -> In line (opcode_lines a b c) -> In line (hunk a b g).
Proof.
  intros Hc Hl. unfold hunk.
  destruct g as [|[[[[t i1] i2] j1] j2] g]; [contradiction|].
  cbv beta iota.
  match goal with
  | |- context [rev ?l] => destruct (rev l) as [|[[[[t' i1'] i2'] j1'] j2'] r] eqn:E
  end.
  - apply (f_equal (@length _)) in E. rewrite length_rev in E. discriminate.
  - right. apply in_flat_map. now exists c.
Qed.

Lemma unified_diff_lines (fromfile tofile : str) (g : list opcode) (c : opcode) (line : str) :
  In g (get_grouped_opcodes a b 3) -> In c g -> In line (opcode_lines a b c) ->
  In line (unified_diff a b fromfile tofile).
Proof.
  intros Hg Hc Hl. unfold unified_diff.
  destruct (get_grouped_opcodes a b 3) as [|g0 gs] eqn:E; [contradiction|].
  right. right. apply in_flat_map. exists g. split; [exact Hg|].
  now apply (hunk_lines g c).
Qed.

End Opcodes.

(** *** A sequence against itself

    When [b] is [a], the longest match is the whole sequence: the search
    meets every match that is not on the diagonal after one at least as
    long on it, and the match it keeps extends to both ends, over popular
    lines too. *)


Lemma scan_row_dict (i bhi : nat) (j2len : list (nat * nat)) (key : nat) (js : list nat) :
  forall newj2len best,
    Forall (fun j => j < bhi) js ->
    j2len_get (fst (scan_row i 0 bhi j2len js newj2len best)) key
    = if existsb (Nat.eqb key) js then S (prev_len j2len key)
      else j2len_get newj2len key.
Proof.
  induction js as [|j js IH]; intros newj2len best Hjs; [reflexivity|].
  inversion Hjs as [|? ? Hj Hjs']; subst.
  cbn [scan_row existsb]. change (j <? 0) with false. cbv iota.
  replace (bhi <=? j) with false by (symmetry; apply Nat.leb_gt; lia).
  fold (prev_len j2len j). destruct best as [[bi bj] bs].
  rewrite IH by exact Hjs'. cbn [j2len_get].
  rewrite (Nat.eqb_sym j key).
  destruct (key =? j) eqn:E; [|reflexivity].
  apply Nat.eqb_eq in E. subst key. now destruct (existsb (Nat.eqb j) js).
Qed.

Lemma scan_row_app (i bhi : nat) (j2len : list (nat * nat)) (l1 l2 : list nat) :
  forall newj2len best,
    Forall (fun j => j < bhi) l1 ->
    scan_row i 0 bhi j2len (l1 ++ l2) newj2len best
    = scan_row i 0 bhi j2len l2
        (fst (scan_row i 0 bhi j2len l1 newj2len best))
        (snd (scan_row i 0 bhi j2len l1 newj2len best)).
Proof.
  induction l1 as [|j l1 IH]; intros newj2len best H1; [reflexivity|].
  inversion H1 as [|? ? Hj H1']; subst.
  cbn [app scan_row]. change (j <? 0) with false. cbv iota.
  replace (bhi <=? j) with false by (symmetry; apply Nat.leb_gt; lia).
  destruct best as [[bi bj] bs]. now rewrite IH.
Qed.

Lemma scan_row_no_update (i bhi : nat) (j2len : list (nat * nat)) (js : list nat) :
  forall newj2len besti bestj bestsize,
    Forall (fun j => j < bhi /\ S (prev_len j2len j) <= bestsize) js ->
    snd (scan_row i 0 bhi j2len js newj2len (besti, bestj, bestsize))
    = (besti, bestj, bestsize).
Proof.
  induction js as [|j js IH]; intros newj2len besti bestj bestsize Hjs; [reflexivity|].
  inversion Hjs as [|? ? [Hj Hk] Hjs']; subst.
  cbn [scan_row]. change (j <? 0) with false. cbv iota.
  replace (bhi <=? j) with false by (symmetry; apply Nat.leb_gt; lia).
  fold (prev_len j2len j).
  replace (bestsize <? S (prev_len j2len j)) with false
    by (symmetry; apply Nat.ltb_ge; lia).
  now apply IH.
Qed.

Lemma indices_from_split (l : list str) :
  forall s i,
    i < length l ->
    exists l1 l2,
      indices_from s l (nth i l []) = l1 ++ (s + i) :: l2
      /\ Forall (fun j => s <= j < s + i) l1
      /\ Forall (fun j => s + i < j < s + length l) l2.
Proof.
  induction l as [|y l IH]; intros s i Hi; simpl in Hi; [lia|].
  destruct i as [|i].
  - exists [], (indices_from (S s) l y). cbn [nth indices_from].
    rewrite str_eqb_refl, Nat.add_0_r. split; [reflexivity|]. split; [constructor|].
    apply Forall_forall. intros j Hj. apply indices_from_spec in Hj. simpl. lia.
  - destruct (IH (S s) i ltac:(lia)) as (l1 & l2 & E & H1 & H2).
    cbn [nth indices_from]. rewrite E.
    replace (S s + i) with (s + S i) by lia.
    destruct (str_eqb (nth i l []) y).
    + exists (s :: l1), l2. split; [reflexivity|]. split.
      * constructor; [lia|]. eapply Forall_impl; [|exact H1]. simpl. intros; lia.
      * eapply Forall_impl; [|exact H2]. simpl. intros; lia.
    + exists l1, l2. split; [reflexivity|]. split.
      * eapply Forall_impl; [|exact H1]. simpl. intros; lia.
      * eapply Forall_impl; [|exact H2]. simpl. intros; lia.
Qed.

Section Identity.

Variable a : list str.



Lemma run_to_step (x : nat) :
  run_to a x = if popular a (item a x) then 0 else S (run_before a x).
Proof. destruct x; reflexivity. Qed.

Lemma run_to_bound (x : nat) : run_to a x <= S x.
Proof.
  induction x as [|x IH]; simpl.
  - destruct (popular a (item a 0)); lia.
  - destruct (popular a (item a (S x))); lia.
Qed.



Lemma scan_row_diag (i : nat) (j2len : list (nat * nat)) (best : block) :
  i < length a ->
  dict_diag a i j2len ->
  best_diag a i best ->
  dict_diag a (S i) (fst (scan_row i 0 (length a) j2len (b2j a (item a i)) [] best))
  /\ best_diag a (S i) (snd (scan_row i 0 (length a) j2len (b2j a (item a i)) [] best)).
Proof.
  intros Hi Hd Hb. destruct best as [[bi bj] bs]. destruct Hb as (-> & Hb1 & Hb2).
  pose proof (run_to_step i) as Hstep.
  unfold b2j in *. destruct (popular a (item a i)) eqn:Hpop.
  - (* a popular line: the row is empty *)
    cbn [scan_row fst snd]. split.
    + intros [|j]; cbn [prev_len j2len_get run_before]; repeat split; try lia.
    + repeat split; try lia. intros x Hx.
      destruct (Nat.eq_dec x i) as [->|Hne]; [lia|apply Hb2; lia].
  - destruct (indices_from_split a 0 i Hi) as (l1 & l2 & E & H1 & H2).
    simpl in E. unfold item in *. rewrite E.
    assert (Hin : forall j, In j (l1 ++ i :: l2) ->
                            j < length a /\ run_to a j = S (run_before a j)).
    { intros j Hj. rewrite <- E in Hj. apply indices_from_spec in Hj as [Hj1 Hj2].
      rewrite Nat.sub_0_r in Hj2. split; [lia|].
      rewrite run_to_step. unfold item. now rewrite Hj2, Hpop. }
    assert (Hl1 : Forall (fun j => j < length a /\ S (prev_len j2len j) <= bs) l1).
    { apply Forall_forall. intros j Hj.
      destruct (Hin j ltac:(apply in_or_app; now left)) as [Hj1 Hj2].
      rewrite Forall_forall in H1. specialize (H1 j Hj).
      split; [exact Hj1|]. destruct (Hd j) as (D1 & _ & _).
      specialize (Hb2 j ltac:(lia)). lia. }
    split.
    + (* the dictionary of the row *)
      intros j.
      assert (Hget : forall key,
                 j2len_get (fst (scan_row i 0 (length a) j2len (l1 ++ i :: l2) [] (bj, bj, bs))) key
                 = if existsb (Nat.eqb key) (l1 ++ i :: l2) then S (prev_len j2len key) else 0).
      { intros key. rewrite scan_row_dict; [reflexivity|].
        apply Forall_forall. intros x Hx. now apply Hin. }
      assert (Hval : forall key,
                 j2len_get (fst (scan_row i 0 (length a) j2len (l1 ++ i :: l2) [] (bj, bj, bs))) key
                 <= run_to a key
                 /\ j2len_get (fst (scan_row i 0 (length a) j2len (l1 ++ i :: l2) [] (bj, bj, bs))) key
                    <= run_to a i).
      { intros key. rewrite Hget.
        destruct (existsb (Nat.eqb key) (l1 ++ i :: l2)) eqn:Ex; [|lia].
        apply existsb_exists in Ex as (x & Hx & Ex). apply Nat.eqb_eq in Ex. subst x.
        destruct (Hin key Hx) as [_ ->]. destruct (Hd key) as (D1 & D2 & _). lia. }
      split; [|split].
      * destruct j as [|j]; cbn [prev_len run_before]; [lia|apply Hval].
      * destruct j as [|j]; cbn [prev_len run_before]; [lia|apply Hval].
      * cbn [prev_len run_before]. rewrite Hget.
        replace (existsb (Nat.eqb i) (l1 ++ i :: l2)) with true.
        -- destruct (Hd i) as (_ & _ & D3). lia.
        -- symmetry. apply existsb_exists. exists i. split; [|apply Nat.eqb_refl].
           apply in_or_app. right. now left.
    + (* the best match after the row *)
      rewrite scan_row_app by (eapply Forall_impl; [|exact Hl1]; simpl; tauto).
      rewrite (scan_row_no_update i (length a) j2len l1 [] bj bj bs Hl1).
      cbn [scan_row]. change (i <? 0) with false. cbv iota.
      replace (length a <=? i) with false by (symmetry; apply Nat.leb_gt; lia).
      fold (prev_len j2len i).
      destruct (Hd i) as (_ & _ & D3). rewrite D3.
      assert (Hl2 : forall bs', run_to a i <= bs' ->
                Forall (fun j => j < length a /\ S (prev_len j2len j) <= bs') l2).
      { intros bs' Hbs'. apply Forall_forall. intros j Hj.
        destruct (Hin j ltac:(apply in_or_app; right; now right)) as [Hj1 _].
        split; [exact Hj1|]. destruct (Hd j) as (_ & D2 & _). lia. }
      destruct (bs <? S (run_before a i)) eqn:Ebs.
      * apply Nat.ltb_lt in Ebs.
        rewrite scan_row_no_update by (apply Hl2; lia).
        pose proof (run_to_bound i). unfold best_diag.
        split; [reflexivity|]. split; [lia|].
        intros x Hx. destruct (Nat.eq_dec x i) as [->|Hne]; [lia|].
        specialize (Hb2 x ltac:(lia)). lia.
      * apply Nat.ltb_ge in Ebs.
        rewrite scan_row_no_update by (apply Hl2; lia).
        unfold best_diag. split; [reflexivity|]. split; [lia|].
        intros x Hx. destruct (Nat.eq_dec x i) as [->|Hne]; [lia|].
        apply Hb2. lia.
Qed.

Lemma scan_rows_diag (n : nat) :
  forall i j2len best,
    i + n = length a ->
    dict_diag a i j2len ->
    best_diag a i best ->
    best_diag a (length a) (scan_rows a a n i 0 (length a) j2len best).
Proof.
  induction n as [|n IH]; intros i j2len best Hn Hd Hb.
  - rewrite Nat.add_0_r in Hn. subst i. exact Hb.
  - cbn [scan_rows].
    destruct (scan_row_diag i j2len best ltac:(lia) Hd Hb) as [Hd' Hb'].
    destruct (scan_row i 0 (length a) j2len (b2j a (item a i)) [] best) as [newj2len best'].
    apply IH; auto. lia.
Qed.

Lemma extend_left_diag (fuel : nat) :
  forall bi bs,
    bi <= fuel -> extend_left a a fuel 0 0 (bi, bi, bs) = (0, 0, bs + bi).
Proof.
  induction fuel as [|fuel IH]; intros bi bs H.
  - replace bi with 0 by lia. now rewrite Nat.add_0_r.
  - cbn [extend_left]. destruct bi as [|bi].
    + now rewrite Nat.add_0_r.
    + change (0 <? S bi) with true. rewrite str_eqb_refl. cbn [andb].
      replace (S bi - 1) with bi by lia. rewrite IH by lia. f_equal. lia.
Qed.

Lemma extend_right_diag (fuel : nat) :
  forall s,
    s + fuel = length a ->
    extend_right a a fuel (length a) (length a) (0, 0, s) = (0, 0, length a).
Proof.
  induction fuel as [|fuel IH]; intros s H.
  - rewrite Nat.add_0_r in H. now subst s.
  - cbn [extend_right]. cbn [Nat.add].
    replace (s <? length a) with true by (symmetry; apply Nat.ltb_lt; lia).
    rewrite str_eqb_refl. cbn [andb]. apply IH. lia.
Qed.

(** The longest match of a sequence with itself is the sequence. *)
Lemma find_longest_match_self :
  find_longest_match a a 0 (length a) 0 (length a) = (0, 0, length a).
Proof.
  unfold find_longest_match. rewrite Nat.sub_0_r.
  pose proof (scan_rows_diag (length a) 0 [] (0, 0, 0) eq_refl) as H.
  destruct (scan_rows a a (length a) 0 0 (length a) [] (0, 0, 0)) as [[bi bj] bs].
  destruct H as (<- & H1 & _).
  - intros j. destruct j; cbn; lia.
  - repeat split; try lia.
  - cbn [fst snd]. rewrite extend_left_diag by lia. cbn [fst snd].
    apply extend_right_diag. lia.
Qed.

Lemma get_matching_blocks_self :
  get_matching_blocks a a
  = match length a with
    | O => [(0, 0, 0)]
    | S n => [(0, 0, S n); (S n, S n, 0)]
    end.
Proof.
  unfold get_matching_blocks. cbv zeta.
  replace (2 * length a + 1) with (S (2 * length a)) by lia.
  cbn [blocks_loop]. rewrite find_longest_match_self.
  destruct (length a) as [|n]; [reflexivity|].
  cbn [Nat.add]. rewrite !Nat.ltb_irrefl. cbn [andb blocks_loop app].
  reflexivity.
Qed.

Lemma get_opcodes_self :
  get_opcodes a a
  = match length a with
    | O => []
    | S n => [(Equal, 0, S n, 0, S n)]
    end.
Proof.
  unfold get_opcodes. rewrite get_matching_blocks_self.
  destruct (length a) as [|n]; [reflexivity|].
  cbn [opcodes_from Nat.add]. rewrite !Nat.ltb_irrefl. reflexivity.
Qed.

Lemma get_grouped_opcodes_self : get_grouped_opcodes a a 3 = [].
Proof.
  unfold get_grouped_opcodes. rewrite get_opcodes_self.
  destruct (length a) as [|n]; [reflexivity|].
  cbn [trim_first trim_last group_loop tag_eqb andb].
  replace (3 + 3 <? Nat.min (S n) (Nat.max 0 (S n - 3) + 3) - Nat.max 0 (S n - 3))
    with false by (symmetry; apply Nat.ltb_ge; lia).
  reflexivity.
Qed.

(** A sequence has no difference with itself. *)
Lemma unified_diff_self (fromfile tofile : str) : unified_diff a a fromfile tofile = [].
Proof. unfold unified_diff. now rewrite get_grouped_opcodes_self. Qed.

End Identity.

(** *** The two loops that extend a match run to their end

    The fuel [find_longest_match] gives them is enough: the match they
    return cannot be extended. *)

Lemma extend_left_complete (a b : list str) (alo blo fuel : nat) :
  forall best,
    fst (fst best) <= alo + fuel ->
    extends_left a b alo blo (extend_left a b fuel alo blo best) = false.
Proof.
  induction fuel as [|fuel IH]; intros [[i j] k] H; cbn [fst] in H.
  - cbn [extend_left extends_left].
    replace (alo <? i) with false by (symmetry; apply Nat.ltb_ge; lia). reflexivity.
  - cbn [extend_left].
    destruct ((alo <? i) && (blo <? j) && str_eqb (item a (i - 1)) (item b (j - 1))) eqn:E.
    + apply IH. cbn [fst]. lia.
    + exact E.
Qed.

Lemma extend_right_complete (a b : list str) (ahi bhi fuel : nat) :
  forall best,
    ahi <= fst (fst best) + snd best + fuel ->
    extends_right a b ahi bhi (extend_right a b fuel ahi bhi best) = false.
Proof.
  induction fuel as [|fuel IH]; intros [[i j] k] H; cbn [fst snd] in H.
  - cbn [extend_right extends_right].
    replace (i + k <? ahi) with false by (symmetry; apply Nat.ltb_ge; lia). reflexivity.
  - cbn [extend_right].
    destruct ((i + k <? ahi) && (j + k <? bhi) && str_eqb (item a (i + k)) (item b (j + k))) eqn:E.
    + apply IH. cbn [fst snd]. lia.
    + exact E.
Qed.

Lemma extend_right_start (a b : list str) (ahi bhi fuel : nat) (best : block) :
  fst (extend_right a b fuel ahi bhi best) = fst best.
Proof.
  revert best; induction fuel as [|fuel IH]; intros [[i j] k]; cbn [extend_right];
    [reflexivity|].
  destruct ((i + k <? ahi) && (j + k <? bhi) && str_eqb (item a (i + k)) (item b (j + k)));
    [|reflexivity].
  now rewrite IH.
Qed.

Lemma find_longest_match_maximal (a b : list str) (alo ahi blo bhi : nat) :
  extends_left a b alo blo (find_longest_match a b alo ahi blo bhi) = false
  /\ extends_right a b ahi bhi (find_longest_match a b alo ahi blo bhi) = false.
Proof.
  unfold find_longest_match. split.
  - set (scanned := scan_rows a b (ahi - alo) alo blo bhi [] (alo, blo, 0)).
    pose proof (extend_left_complete a b alo blo (fst (fst scanned)) scanned ltac:(lia)) as H.
    set (left := extend_left a b (fst (fst scanned)) alo blo scanned) in *.
    pose proof (extend_right_start a b ahi bhi (ahi - (fst (fst left) + snd left)) left) as E.
    destruct (extend_right a b (ahi - (fst (fst left) + snd left)) ahi bhi left)
      as [[i j] k]. destruct left as [[i' j'] k']. cbn [fst] in E.
    injection E as -> ->. exact H.
  - apply extend_right_complete. lia.
Qed.

End DifflibFacts.

(** ** The change summary *)

Module SummaryFacts.
Import PyStr PyStrFacts Difflib App Spec MatcherSpec DifflibFacts.

Lemma filter_map_comm {A B : Type} (f : B -> bool) (g : A -> B) (l : list A) :
  filter f (map g l) = map g (filter (fun x => f (g x)) l).
Proof.
  induction l as [|x l IH]; simpl; [reflexivity|].
  destruct (f (g x)); simpl; now rewrite IH.
Qed.

Lemma filter_flat_map_comm {A B : Type} (f : B -> bool) (g : A -> list B) (l : list A) :
  filter f (flat_map g l) = flat_map (fun x => filter f (g x)) l.
Proof.
  induction l as [|x l IH]; simpl; [reflexivity|].
  now rewrite filter_app, IH.
Qed.

Lemma filter_none {A : Type} (f : A -> bool) (l : list A) :
  (forall x, In x l -> f x = false) -> filter f l = [].
Proof.
  induction l as [|x l IH]; simpl; intros H; [reflexivity|].
  rewrite (H x) by now left. apply IH. intros y Hy. apply H. now right.
Qed.

(** The lines [iter_changes] keeps and drops. *)
Lemma removed_line_kept (line : str) :
  is_change_line (lit "-" ++ line) = negb (startswith (lit "--") line).
Proof. reflexivity. Qed.

Lemma added_line_kept (line : str) :
  is_change_line (lit "+" ++ line) = negb (startswith (lit "++") line).
Proof.
  change (is_change_line (lit "+" ++ line))
    with (negb (startswith (lit "++") line || false)).
  now rewrite orb_false_r.
Qed.

Lemma context_line_dropped (line : str) : is_change_line (lit " " ++ line) = false.
Proof. reflexivity. Qed.

Lemma file_lines_dropped (name : str) :
  is_change_line (lit "--- " ++ name) = false
  /\ is_change_line (lit "+++ " ++ name) = false.
Proof. split; reflexivity. Qed.

Lemma hunk_line_dropped (ranges : str) : is_change_line (lit "@@ -" ++ ranges) = false.
Proof. reflexivity. Qed.

Lemma filter_removed (lines : list str) :
  filter is_change_line (map (fun line => lit "-" ++ line) lines) = removed_entries lines.
Proof.
  unfold removed_entries. induction lines as [|l lines IH]; [reflexivity|].
  cbn [map filter]. rewrite removed_line_kept.
  destruct (negb (startswith (lit "--") l)); cbn [map]; now rewrite IH.
Qed.

Lemma filter_added (lines : list str) :
  filter is_change_line (map (fun line => lit "+" ++ line) lines) = added_entries lines.
Proof.
  unfold added_entries. induction lines as [|l lines IH]; [reflexivity|].
  cbn [map filter]. rewrite added_line_kept.
  destruct (negb (startswith (lit "++") l)); cbn [map]; now rewrite IH.
Qed.

Lemma filter_context (lines : list str) :
  filter is_change_line (map (fun line => lit " " ++ line) lines) = [].
Proof.
  apply filter_none. intros x Hx. apply in_map_iff in Hx as (l & <- & _).
  apply context_line_dropped.
Qed.

Lemma opcode_lines_summary (a b : list str) (o : opcode) :
  filter is_change_line (opcode_lines a b o) = summary_entries a b o.
Proof.
  destruct o as [[[[t i1] i2] j1] j2]. unfold opcode_lines, summary_entries.
  destruct t; rewrite ?filter_app, ?filter_removed, ?filter_added, ?filter_context;
    reflexivity.
Qed.

Lemma hunk_summary (a b : list str) (g : list opcode) :
  filter is_change_line (hunk a b g) = flat_map (summary_entries a b) g.
Proof.
  unfold hunk. destruct g as [|[[[[t i1] i2] j1] j2] g]; [reflexivity|].
  cbv beta iota.
  match goal with
  | |- context [rev ?l] => destruct (rev l) as [|[[[[t' i1'] i2'] j1'] j2'] r] eqn:E
  end.
  - apply (f_equal (@length _)) in E. rewrite length_rev in E. discriminate.
  - cbn [filter]. rewrite hunk_line_dropped.
    rewrite filter_flat_map_comm. apply flat_map_ext. intros o. apply opcode_lines_summary.
Qed.

(** The summary holds the entries of the opcodes of the hunks, and no
    other line of the difference. *)
Lemma iter_changes_summary (old_text new_text : str) :
  iter_changes old_text new_text
  = flat_map (flat_map (summary_entries (splitlines old_text) (splitlines new_text)))
      (get_grouped_opcodes (splitlines old_text) (splitlines new_text) 3).
Proof.
  unfold iter_changes, unified_diff.
  destruct (get_grouped_opcodes (splitlines old_text) (splitlines new_text) 3)
    as [|g gs]; [reflexivity|].
  cbn [filter].
  rewrite (proj1 (file_lines_dropped fromfile)), (proj2 (file_lines_dropped tofile)).
  rewrite filter_flat_map_comm. apply flat_map_ext. intros o. apply hunk_summary.
Qed.

Lemma iter_changes_in (old_text new_text line : str) :
  In line (iter_changes old_text new_text) -> is_change_line line = true.
Proof. unfold iter_changes. intros H. now apply filter_In in H. Qed.

(** Two texts whose lines differ have a changed line in their
    difference: a removed line of the old text or an added line of the new
    one. *)
Lemma changed_line_exists (a b : list str) (fromfile tofile : str) :
  a <> b ->
  (exists line, In line a /\ In (lit "-" ++ line) (unified_diff a b fromfile tofile))
  \/ (exists line, In line b /\ In (lit "+" ++ line) (unified_diff a b fromfile tofile)).
Proof.
  intros Hne. pose proof (different_has_change a b Hne) as Hc.
  apply existsb_exists in Hc as (c & Hin & Hc).
  destruct (grouped_keeps a b c Hc Hin) as (g & Hg & Hcg).
  destruct (get_matching_blocks_ok a b) as (_ & _ & Hm & _).
  pose proof (opcodes_from_change a b _ c 0 0 Hm Hin) as Hbounds.
  destruct c as [[[[t i1] i2] j1] j2].
  destruct t; try discriminate.
  - left. destruct Hbounds as [Ha _].
    destruct (slice_nonempty a i1 i2 Ha) as (line & Hl & Hla).
    exists line. split; [exact Hla|].
    apply (unified_diff_lines a b fromfile tofile g (Replace, i1, i2, j1, j2)); auto.
    cbn [opcode_lines]. apply in_or_app. left. now apply in_map.
  - left. destruct (slice_nonempty a i1 i2 Hbounds) as (line & Hl & Hla).
    exists line. split; [exact Hla|].
    apply (unified_diff_lines a b fromfile tofile g (Delete, i1, i2, j1, j2)); auto.
    cbn [opcode_lines]. now apply in_map.
  - right. destruct (slice_nonempty b j1 j2 Hbounds) as (line & Hl & Hlb).
    exists line. split; [exact Hlb|].
    apply (unified_diff_lines a b fromfile tofile g (Insert, i1, i2, j1, j2)); auto.
    cbn [opcode_lines]. now apply in_map.
Qed.

End SummaryFacts.

(** ** The claims about the change summary *)

Module SummaryClaims.
Import PyStr PyStrFacts Difflib App Spec MatcherSpec DifflibFacts SummaryFacts.

(** C5, as the program has it. The summary of a text against itself is
    empty. When the lines of two texts differ, no line of the old text
    begins with "--" and no line of the new text begins with "++", the
    summary has an entry, a removed line of the old text or an added line
    of the new one. *)
Theorem iter_changes_round_trip (X A B : str) :
  iter_changes X X = []
  /\ (splitlines A <> splitlines B ->
      (forall line, In line (splitlines A) -> startswith (lit "--") line = false) ->
      (forall line, In line (splitlines B) -> startswith (lit "++") line = false) ->
      exists line,
        (In line (splitlines A) /\ In (lit "-" ++ line) (iter_changes A B))
        \/ (In line (splitlines B) /\ In (lit "+" ++ line) (iter_changes A B))).
Proof.
  split.
  - unfold iter_changes. now rewrite unified_diff_self.
  - intros Hne HA HB.
    destruct (changed_line_exists _ _ fromfile tofile Hne)
      as [(line & Hl & Hd)|(line & Hl & Hd)]; exists line; [left|right];
      (split; [exact Hl|]); unfold iter_changes; apply filter_In; (split; [exact Hd|]).
    + rewrite removed_line_kept, (HA line Hl). reflexivity.
    + rewrite added_line_kept, (HB line Hl). reflexivity.
Qed.

(** C5, as the specification words it, fails: two texts that differ by
    the newline that ends the last line have the same lines, and their
    summary is empty. *)
Lemma iter_changes_final_newline :
  iter_changes (lit "a") (lit "a" ++ [LF]) = []
  /\ lit "a" <> lit "a" ++ [LF].
Proof. split; [reflexivity|discriminate]. Qed.

(** The example of the specification: the summary of the two versions of
    LEY-1 is the removed line and the added line. *)
Example iter_changes_ley_1 :
  iter_changes (lit "Art 1. Texto original") (lit "Art 1. Texto modificado")
  = [lit "-Art 1. Texto original"; lit "+Art 1. Texto modificado"].
Proof. vm_compute. reflexivity. Qed.

(** C9. The summary is made of the removed lines that do not begin with
    "--" and of the added lines that do not begin with "++": the line of
    the difference for an added line that begins with "++" begins with
    "+++" (for a removed line that begins with "--", with "---"), and
    [iter_changes] never yields it. So the text "++x" added to an empty
    text, which the difference shows, leaves the summary empty. *)
Theorem iter_changes_omits_marked_lines (old_text new_text : str) :
  iter_changes old_text new_text
  = flat_map (flat_map (summary_entries (splitlines old_text) (splitlines new_text)))
      (get_grouped_opcodes (splitlines old_text) (splitlines new_text) 3)
  /\ (forall line, startswith (lit "++") line = true ->
        startswith (lit "+++") (lit "+" ++ line) = true
        /\ ~ In (lit "+" ++ line) (iter_changes old_text new_text))
  /\ (forall line, startswith (lit "--") line = true ->
        startswith (lit "---") (lit "-" ++ line) = true
        /\ ~ In (lit "-" ++ line) (iter_changes old_text new_text))
  /\ unified_diff (splitlines []) (splitlines (lit "++x")) fromfile tofile
     = [lit "--- " ++ fromfile; lit "+++ " ++ tofile; lit "@@ -0,0 +1 @@"; lit "+++x"]
  /\ iter_changes [] (lit "++x") = [].
Proof.
  split; [apply iter_changes_summary|].
  split; [|split; [|split; reflexivity]].
  - intros line H. split; [exact H|].
    intros Hin. apply iter_changes_in in Hin.
    rewrite added_line_kept, H in Hin. discriminate.
  - intros line H. split; [exact H|].
    intros Hin. apply iter_changes_in in Hin.
    rewrite removed_line_kept, H in Hin. discriminate.
Qed.

End SummaryClaims.

(** * Further properties *)

(** ** The normalizer *)

Module NormalizerLemmas.
Import PyStr PyStrFacts App Spec NormalizerFacts Notions.

Lemma re_sub_ws_fixed (x : str) :
  forall in_run,
    collapsed x -> (in_run = true -> starts_nonspace x) -> re_sub_ws in_run x = x.
Proof.
  induction x as [|c x IH]; intros in_run Hc Hs; [reflexivity|].
  destruct Hc as [Hc Hx]. cbn [re_sub_ws].
  destruct (isspace c) eqn:E.
  - destruct (Hc eq_refl) as [-> Hn].
    destruct in_run.
    + specialize (Hs eq_refl). cbn in Hs. congruence.
    + f_equal. apply IH; auto.
  - f_equal. apply IH; auto. discriminate.
Qed.

Lemma lstrip_fixed (x : str) : starts_nonspace x -> lstrip x = x.
Proof. destruct x as [|c x]; [reflexivity|]. cbn. now intros ->. Qed.

Lemma strip_fixed (x : str) :
  starts_nonspace x -> starts_nonspace (rev x) -> strip x = x.
Proof.
  intros H1 H2. unfold strip, rstrip. rewrite (lstrip_fixed x H1), (lstrip_fixed _ H2).
  apply rev_involutive.
Qed.

Lemma normalize_text_fixed (text : str) :
  normalize_text (normalize_text text) = normalize_text text.
Proof.
  destruct (normalize_text_split text) as (pre & suf & _ & H1 & H2).
  pose proof (normalize_text_collapsed text) as Hc.
  unfold normalize_text at 1.
  rewrite re_sub_ws_fixed; auto. now apply strip_fixed.
Qed.

Lemma lstrip_nil (x : str) : lstrip x = [] -> forallb isspace x = true.
Proof.
  induction x as [|c x IH]; [reflexivity|]. cbn.
  destruct (isspace c); [exact IH|discriminate].
Qed.

Lemma normalize_text_blank (text : str) :
  normalize_text text = [] <-> forallb isspace text = true.
Proof.
  unfold normalize_text, strip, rstrip. split.
  - intros H. apply (f_equal (@rev _)) in H. rewrite rev_involutive in H. cbn [rev] in H.
    apply lstrip_nil in H. rewrite forallb_rev in H.
    destruct (lstrip_split (re_sub_ws false text)) as (pre & E & Hpre & Hs).
    destruct (lstrip (re_sub_ws false text)) as [|c r] eqn:El.
    + rewrite app_nil_r in E. rewrite <- (re_sub_ws_all_space text false), E. exact Hpre.
    + cbn in Hs, H. rewrite Hs in H. discriminate.
  - intros H. rewrite <- (re_sub_ws_all_space text false) in H.
    rewrite (lstrip_all_space _ H). reflexivity.
Qed.

Lemma visible_app (x y : str) : visible (x ++ y) = visible x ++ visible y.
Proof. apply filter_app. Qed.

Lemma visible_blank (x : str) : forallb isspace x = true -> visible x = [].
Proof.
  induction x as [|c x IH]; [reflexivity|]. cbn. destruct (isspace c); [exact IH|discriminate].
Qed.

Lemma visible_re_sub_ws (text : str) (in_run : bool) :
  visible (re_sub_ws in_run text) = visible text.
Proof.
  revert in_run. induction text as [|c text IH]; intros in_run; [reflexivity|].
  cbn [re_sub_ws]. destruct (isspace c) eqn:E.
  - destruct in_run; unfold visible in *; cbn [filter]; rewrite ?E; cbn; apply IH.
  - unfold visible in *. cbn [filter]. rewrite E. cbn. f_equal. apply IH.
Qed.

Lemma visible_lstrip (x : str) : visible (lstrip x) = visible x.
Proof.
  destruct (lstrip_split x) as (pre & E & Hpre & _).
  rewrite E at 2. rewrite visible_app, (visible_blank _ Hpre). reflexivity.
Qed.

Lemma visible_rstrip (x : str) : visible (rstrip x) = visible x.
Proof.
  destruct (rstrip_split x) as (suf & E & Hsuf & _).
  rewrite E at 2. rewrite visible_app, (visible_blank _ Hsuf). now rewrite app_nil_r.
Qed.

Lemma visible_normalize_text (text : str) : visible (normalize_text text) = visible text.
Proof.
  unfold normalize_text, strip. now rewrite visible_rstrip, visible_lstrip, visible_re_sub_ws.
Qed.

Lemma re_sub_ws_length (text : str) (in_run : bool) :
  (length (re_sub_ws in_run text) <= length text)%nat.
Proof.
  revert in_run. induction text as [|c text IH]; intros in_run; [cbn; lia|].
  cbn [re_sub_ws]. destruct (isspace c).
  - destruct in_run; cbn [length]; [specialize (IH true)|specialize (IH true)]; lia.
  - cbn [length]. specialize (IH false). lia.
Qed.

Lemma normalize_text_length (text : str) : len (normalize_text text) <= len text.
Proof.
  unfold normalize_text, strip, len.
  destruct (rstrip_split (lstrip (re_sub_ws false text))) as (suf & E & _).
  destruct (lstrip_split (re_sub_ws false text)) as (pre & E' & _).
  pose proof (re_sub_ws_length text false) as H.
  apply (f_equal (@length _)) in E, E'. rewrite length_app in E, E'. lia.
Qed.

End NormalizerLemmas.

(** ** The fingerprint *)

Module FingerprintLemmas.
Import PyStr PyStrFacts App Spec FingerprintFacts StoreFacts Notions.

Lemma encode_char_none (c : Z) :
  code_point c -> (Utf8.encode_char c = None <-> surrogate c).
Proof.
  unfold code_point, surrogate, Utf8.encode_char. intros H.
  destruct (c <? 0) eqn:E0; [apply Z.ltb_lt in E0; lia|].
  destruct (c <? 128) eqn:E1; [apply Z.ltb_lt in E1; split; [discriminate|lia]|].
  destruct (c <? 2048) eqn:E2; [apply Z.ltb_lt in E2; split; [discriminate|lia]|].
  destruct ((55296 <=? c) && (c <=? 57343)) eqn:E3.
  - apply andb_true_iff in E3 as [Ha Hb]. apply Z.leb_le in Ha, Hb. split; [lia|reflexivity].
  - apply andb_false_iff in E3.
    assert (~ (55296 <= c <= 57343))
      by (destruct E3 as [E3|E3]; apply Z.leb_gt in E3; lia).
    destruct (c <? 65536); [split; [discriminate|lia]|].
    destruct (c <? 1114112) eqn:E5; [split; [discriminate|lia]|].
    apply Z.ltb_ge in E5. lia.
Qed.

Lemma encode_none (text : str) :
  Forall code_point text -> (Utf8.encode text = None <-> Exists surrogate text).
Proof.
  induction 1 as [|c text Hc Ht IH]; cbn [Utf8.encode].
  - split; [discriminate|]. intros H. inversion H.
  - destruct (Utf8.encode_char c) as [b|] eqn:Ec.
    + assert (Hns : ~ surrogate c).
      { intros Hs. apply (encode_char_none c Hc) in Hs. congruence. }
      destruct (Utf8.encode text) as [bs|].
      * split; [discriminate|]. intros H. inversion H; subst; [contradiction|].
        now apply IH in H1.
      * split; [intros _; right; now apply IH|reflexivity].
    + split; [intros _; left; now apply encode_char_none|reflexivity].
Qed.

Lemma hexdigest_digest (dx dy : list Z) :
  Sha256.hexdigest dx = Sha256.hexdigest dy -> Sha256.digest dx = Sha256.digest dy.
Proof.
  intros H.
  destruct (hex_of_bytes_facts _ (digest_range dx)) as (_ & _ & Hx).
  destruct (hex_of_bytes_facts _ (digest_range dy)) as (_ & _ & Hy).
  change (hex_of_bytes (Sha256.digest dx)) with (Sha256.hexdigest dx) in Hx.
  change (hex_of_bytes (Sha256.digest dy)) with (Sha256.hexdigest dy) in Hy.
  rewrite H, Hy in Hx. now apply some_eq in Hx.
Qed.

Lemma equal_hash (x y h : str) :
  hash_content x = Ok h -> hash_content y = Ok h -> x = y \/ collision x y.
Proof.
  unfold hash_content. intros Hx Hy.
  destruct (str_eqb x y) eqn:E; [left; now apply str_eqb_eq|right].
  apply str_eqb_neq in E. unfold collision.
  destruct (Utf8.encode x) as [dx|] eqn:Ex; [|discriminate].
  destruct (Utf8.encode y) as [dy|] eqn:Ey; [|discriminate].
  exists dx, dy.
  split; [reflexivity|]. split; [reflexivity|]. split.
  - intros ->. apply decode_encode in Ex, Ey. rewrite Ex in Ey. now apply some_eq in Ey.
  - apply hexdigest_digest. congruence.
Qed.

Lemma latest_in_table (d : db) (norma : str) (v : NormaVersion) :
  get_latest_version d norma = Ok (Some v) -> In v (norma_versions d) /\ norma_id v = norma.
Proof.
  intros H. apply get_latest_version_ok in H as [_ H]. symmetry in H.
  destruct (sorted_last_greatest _ _ (index_sort_sorted (history norma d))
              (eq_trans (f_equal (fun l => hd_error (rev l)) (eq_sym (index_scan_history norma d))) H))
    as [Hin _].
  apply (Permutation_in _ (index_sort_perm _)) in Hin. now apply history_in in Hin.
Qed.

End FingerprintLemmas.

(** ** The version store *)

Module StoreLemmas.
Import PyStr PyStrFacts App Spec Examples FingerprintFacts StoreFacts Notions.

Lemma history_other (d : db) (row : NormaVersion) (norma : str) :
  norma_id row <> norma -> history norma (with_version d row) = history norma d.
Proof.
  intros H. unfold history, with_version. cbn [norma_versions].
  rewrite filter_app. cbn [filter].
  apply str_eqb_neq in H. rewrite H. apply app_nil_r.
Qed.

Lemma save_other_history (d : db) (t : datetime) (norma norma' url content : str) :
  norma' <> norma ->
  history norma' (snd (save_if_changed d t norma url content)) = history norma' d.
Proof.
  intros H. destruct (save_cases d t norma url content) as [E|(h & _ & E)]; rewrite E.
  - reflexivity.
  - apply history_other. cbn. congruence.
Qed.

Lemma save_row (d : db) (c : capture) :
  let d' := snd (save_if_changed d (cap_clock c) (cap_norma c) (cap_url c) (cap_text c)) in
  d' = d
  \/ exists row, row_of c row /\ id row = next_rowid d /\ d' = with_version d row.
Proof.
  destruct (save_cases d (cap_clock c) (cap_norma c) (cap_url c) (cap_text c))
    as [E|(h & Hh & E)]; [now left|right].
  exists (new_version d (cap_clock c) (cap_norma c) (cap_url c) (cap_text c) h).
  split; [|split; [reflexivity|exact E]].
  unfold row_of. cbn. auto.
Qed.

Lemma capture_all_cons (c : capture) (calls : list capture) (d : db) :
  capture_all (c :: calls) d
  = capture_all calls
      (snd (save_if_changed d (cap_clock c) (cap_norma c) (cap_url c) (cap_text c))).
Proof. reflexivity. Qed.

Lemma capture_all_rows (calls : list capture) :
  forall d,
  exists tail,
    norma_versions (capture_all calls d) = norma_versions d ++ tail
    /\ (length tail <= length calls)%nat
    /\ Forall (fun r => exists c, In c calls /\ row_of c r) tail.
Proof.
  induction calls as [|c calls IH]; intros d.
  - exists []. rewrite app_nil_r. repeat split; auto.
  - rewrite capture_all_cons.
    destruct (save_row d c) as [E|(row & Hrow & _ & E)]; cbv zeta in E; rewrite E.
    + destruct (IH d) as (tail & Ht & Hl & Hf). exists tail.
      split; [exact Ht|]. split; [cbn [length]; lia|].
      eapply Forall_impl; [|exact Hf]. intros r (c' & Hc & Hr). exists c'. split; [now right|exact Hr].
    + destruct (IH (with_version d row)) as (tail & Ht & Hl & Hf). exists (row :: tail).
      split; [rewrite Ht; cbn [with_version norma_versions]; now rewrite <- app_assoc|].
      split; [cbn [length]; lia|].
      constructor; [exists c; split; [now left|exact Hrow]|].
      eapply Forall_impl; [|exact Hf]. intros r (c' & Hc & Hr). exists c'. split; [now right|exact Hr].
Qed.

Lemma max_ids (n : nat) :
  fold_right Z.max (Z.of_nat n) (map Z.of_nat (seq 1 n)) = Z.of_nat n.
Proof.
  assert (H : forall k s, (s + k = S n)%nat ->
            fold_right Z.max (Z.of_nat n) (map Z.of_nat (seq s k)) = Z.of_nat n).
  { induction k as [|k IH]; intros s Hs; cbn [seq map fold_right]; [reflexivity|].
    rewrite IH by lia. lia. }
  apply H. lia.
Qed.

Lemma numbered_next (d : db) :
  numbered d -> next_rowid d = Z.of_nat (length (norma_versions d)) + 1.
Proof.
  intros [H1 H2]. unfold next_rowid. rewrite H1, H2, max_ids. reflexivity.
Qed.

Lemma numbered_with_version (d : db) (row : NormaVersion) :
  numbered d -> id row = next_rowid d -> numbered (with_version d row).
Proof.
  intros Hn Hid. pose proof (numbered_next d Hn) as Hnext. destruct Hn as [H1 H2].
  unfold numbered, with_version. cbn [norma_versions sqlite_sequence].
  rewrite length_app. cbn [length]. rewrite Nat.add_1_r.
  split.
  - rewrite map_app, H1, seq_S, map_app. cbn [map]. f_equal. f_equal. rewrite Hid, Hnext. lia.
  - rewrite Hid, Hnext. lia.
Qed.

Lemma capture_all_numbered (calls : list capture) :
  forall d, numbered d -> numbered (capture_all calls d).
Proof.
  induction calls as [|c calls IH]; intros d Hd; [exact Hd|].
  rewrite capture_all_cons. apply IH.
  destruct (save_row d c) as [E|(row & _ & Hid & E)]; cbv zeta in E; rewrite E; auto.
  now apply numbered_with_version.
Qed.


Lemma save_if_changed_spec (d : db) (t : datetime) (norma url content : str) :
  match save_if_changed d t norma url content with
  | (Ok (false, h), d') =>
      d' = d /\ hash_content content = Ok h
      /\ exists v, get_latest_version d norma = Ok (Some v) /\ content_hash v = h
  | (Ok (true, h), d') =>
      hash_content content = Ok h
      /\ d' = with_version d (new_version d t norma url content h)
      /\ exists latest,
           get_latest_version d norma = Ok latest
           /\ match latest with Some v => content_hash v <> h | None => True end
  | (Raise e, d') => d' = d
  end.
Proof.
  unfold save_if_changed.
  destruct (hash_content content) as [h|e] eqn:Hh; [|reflexivity].
  destruct (get_latest_version d norma) as [latest|e] eqn:Hl; [|reflexivity].
  destruct latest as [v|].
  - destruct (str_eqb (content_hash v) h) eqn:Ev.
    + apply str_eqb_eq in Ev. split; [reflexivity|]. split; [reflexivity|]. now exists v.
    + apply str_eqb_neq in Ev.
      change (isoformat_seconds t ++ lit "Z") with (stamp t).
      destruct (insert_row d norma (stamp t) url h content) as [d'|e] eqn:Hi; [|reflexivity].
      split; [reflexivity|]. split; [|now exists (Some v)].
      unfold insert_row, bind in Hi.
      destruct (bind_text norma); [|discriminate].
      destruct (bind_text (stamp t)); [|discriminate].
      destruct (bind_text url); [|discriminate].
      destruct (bind_text h); [|discriminate].
      destruct (bind_text content); [|discriminate].
      destruct (max_rowid <? next_rowid d); [discriminate|].
      now injection Hi as <-.
  - change (isoformat_seconds t ++ lit "Z") with (stamp t).
    destruct (insert_row d norma (stamp t) url h content) as [d'|e] eqn:Hi; [|reflexivity].
    split; [reflexivity|]. split; [|now exists None].
    unfold insert_row, bind in Hi.
    destruct (bind_text norma); [|discriminate].
    destruct (bind_text (stamp t)); [|discriminate].
    destruct (bind_text url); [|discriminate].
    destruct (bind_text h); [|discriminate].
    destruct (bind_text content); [|discriminate].
    destruct (max_rowid <? next_rowid d); [discriminate|].
    now injection Hi as <-.
Qed.

(** The new row comes after every row of the identifier when the clock is
    not behind them. *)
Lemma clock_version_le (d : db) (norma : str) (row : NormaVersion) :
  id row = next_rowid d ->
  (forall r, In r (history norma d) -> text_le (fetched_at r) (fetched_at row)) ->
  Forall (fun r => version_le r row) (history norma d).
Proof.
  intros Hid Hclock. apply Forall_forall. intros r Hr. unfold version_le, text_lt.
  specialize (Hclock r Hr). unfold text_le in Hclock.
  apply history_in in Hr as [Hr _]. apply next_rowid_greater in Hr.
  destruct (text_compare (fetched_at r) (fetched_at row)) eqn:E; [|now left|congruence].
  right. apply text_compare_eq in E. split; [exact E|]. lia.
Qed.

Lemma index_insert_app (r row : NormaVersion) (s : list NormaVersion) :
  version_le r row -> index_insert r (s ++ [row]) = index_insert r s ++ [row].
Proof.
  intros H. induction s as [|e s IH]; cbn [app index_insert].
  - apply index_leb_spec in H. now rewrite H.
  - destruct (index_leb r e); [reflexivity|]. now rewrite IH.
Qed.

Lemma index_sort_app (l : list NormaVersion) (row : NormaVersion) :
  Forall (fun r => version_le r row) l ->
  fold_right index_insert [] (l ++ [row]) = fold_right index_insert [] l ++ [row].
Proof.
  induction 1 as [|r l Hr Hl IH]; [reflexivity|].
  cbn [app fold_right]. rewrite IH. now apply index_insert_app.
Qed.

Lemma list_versions_ok (d : db) (norma : str) (versions : list NormaVersion) :
  list_versions d norma = Ok versions ->
  bind_text norma = Ok tt /\ versions = index_scan norma d.
Proof.
  unfold list_versions, bind. destruct (bind_text norma) as [[]|]; [|discriminate].
  intros [= <-]. auto.
Qed.

Lemma sorted_unique_id (l : list NormaVersion) (x y : NormaVersion) :
  StronglySorted (fun r1 r2 => id r1 < id r2) l ->
  In x l -> In y l -> id x = id y -> x = y.
Proof.
  induction 1 as [|e l Hs IH Hf]; intros Hx Hy E; [destruct Hx|].
  rewrite Forall_forall in Hf.
  destruct Hx as [<-|Hx], Hy as [<-|Hy]; auto.
  - specialize (Hf _ Hy). lia.
  - specialize (Hf _ Hx). lia.
Qed.

Lemma version_le_antisym (x y : NormaVersion) :
  version_le x y -> version_le y x -> fetched_at x = fetched_at y /\ id x = id y.
Proof.
  unfold version_le, text_lt. intros [H1|[H1 H1']] [H2|[H2 H2']].
  - rewrite text_compare_antisym, H1 in H2. discriminate.
  - rewrite H2, text_compare_refl in H1. discriminate.
  - rewrite H1, text_compare_refl in H2. discriminate.
  - split; [exact H1|lia].
Qed.

(** A row older than the latest version leaves it the latest. *)
Lemma latest_after_older (d : db) (norma : str) (v row : NormaVersion) :
  rowid_ordered d ->
  get_latest_version d norma = Ok (Some v) ->
  norma_id row = norma ->
  text_lt (fetched_at row) (fetched_at v) ->
  get_latest_version (with_version d row) norma = Ok (Some v).
Proof.
  intros Hord Hl Hrow Hlt.
  apply get_latest_version_ok in Hl as [Hb Hv].
  unfold get_latest_version, bind. rewrite Hb. f_equal.
  rewrite index_scan_history in *. rewrite history_with_version by exact Hrow.
  symmetry in Hv.
  destruct (sorted_last_greatest _ _ (index_sort_sorted (history norma d)) Hv) as [Hin Hmax].
  pose proof (index_sort_sorted (history norma d ++ [row])) as Hsorted.
  pose proof (index_sort_perm (history norma d ++ [row])) as Hperm.
  destruct (hd_error (rev (fold_right index_insert [] (history norma d ++ [row]))))
    as [w|] eqn:Ew.
  - destruct (sorted_last_greatest _ _ Hsorted Ew) as [Hw Hwmax]. f_equal.
    assert (Hvw : version_le v w).
    { apply Hwmax. apply (Permutation_in _ (Permutation_sym Hperm)).
      apply in_or_app. left.
      now apply (Permutation_in _ (index_sort_perm (history norma d))). }
    apply (Permutation_in _ Hperm), in_app_or in Hw. destruct Hw as [Hw|[<-|[]]].
    + assert (Hwv : version_le w v).
      { apply Hmax. now apply (Permutation_in _ (Permutation_sym (index_sort_perm _))). }
      destruct (version_le_antisym _ _ Hvw Hwv) as [_ Hid].
      apply (sorted_unique_id (norma_versions d)); auto.
      * now apply history_in in Hw.
      * apply (Permutation_in _ (index_sort_perm _)) in Hin. now apply history_in in Hin.
    + exfalso. unfold version_le, text_lt in *. destruct Hvw as [H|[H _]].
      * rewrite text_compare_antisym, Hlt in H. discriminate.
      * rewrite H, text_compare_refl in Hlt. discriminate.
  - exfalso.
    assert (Hnil : fold_right index_insert [] (history norma d ++ [row]) = []).
    { destruct (rev (fold_right index_insert [] (history norma d ++ [row]))) eqn:E';
        [|discriminate].
      apply (f_equal (@rev _)) in E'. now rewrite rev_involutive in E'. }
    rewrite Hnil in Hperm. apply Permutation_nil in Hperm.
    now destruct (history norma d).
Qed.


Lemma fold_max_bound (x : Z) (l : list Z) :
  Forall (fun y => y <= x) l -> fold_right Z.max x l = x.
Proof. induction 1 as [|y l Hy Hl IH]; cbn [fold_right]; [reflexivity|]. rewrite IH. lia. Qed.

Lemma next_rowid_with_version (d : db) (row : NormaVersion) :
  id row = next_rowid d -> next_rowid (with_version d row) = next_rowid d + 1.
Proof.
  intros Hid. unfold next_rowid at 1, with_version. cbn [norma_versions sqlite_sequence].
  rewrite map_app, fold_right_app. cbn [map fold_right]. rewrite Z.max_id.
  rewrite fold_max_bound; [lia|].
  apply Forall_forall. intros y Hy. apply in_map_iff in Hy as (r & <- & Hr).
  apply next_rowid_greater in Hr. lia.
Qed.

Lemma hd_rev_map {A B : Type} (f : A -> B) (l : list A) :
  hd_error (rev (map f l)) = option_map f (hd_error (rev l)).
Proof. rewrite <- map_rev. now destruct (rev l). Qed.

Lemma no_repeat_app (xs : list str) (y : str) :
  no_repeat xs ->
  match hd_error (rev xs) with Some x => x <> y | None => True end ->
  no_repeat (xs ++ [y]).
Proof.
  induction xs as [|x xs IH]; intros Hn Hl; [exact I|].
  destruct xs as [|x' xs].
  - cbn in *. auto.
  - destruct Hn as [Hx Hn]. cbn [app no_repeat]. split; [exact Hx|].
    apply IH; [exact Hn|].
    cbn [rev] in *. destruct (rev xs ++ [x']) eqn:E; [now destruct (rev xs)|exact Hl].
Qed.

(** The latest version of a table in the order of insertion is the last
    row of the identifier. *)
Lemma latest_is_last (d : db) (norma : str) (latest : option NormaVersion) :
  rowid_ordered d -> chronological norma d ->
  get_latest_version d norma = Ok latest ->
  latest = hd_error (rev (history norma d)).
Proof.
  intros Hr Hc Hl. apply get_latest_version_ok in Hl as [_ ->].
  rewrite index_scan_history, index_sort_sorted_id; [reflexivity|].
  now apply history_sorted.
Qed.

Lemma text_le_refl (x : str) : text_le x x.
Proof. unfold text_le. rewrite text_compare_refl. discriminate. Qed.

Lemma save_step (d : db) (c : capture) (calls : list capture) :
  clock_monotone (c :: calls) ->
  rowid_ordered d ->
  (forall norma, chronological norma d) ->
  ahead d (c :: calls) ->
  (forall norma, no_repeat (map content_hash (history norma d))) ->
  let d' := snd (save_if_changed d (cap_clock c) (cap_norma c) (cap_url c) (cap_text c)) in
  rowid_ordered d'
  /\ (forall norma, chronological norma d')
  /\ ahead d' calls
  /\ (forall norma, no_repeat (map content_hash (history norma d'))).
Proof.
  intros Hmono Hord Hchron Hahead Hrep d'.
  inversion Hmono as [|? ? Hmono' Hc]; subst. rewrite Forall_forall in Hc.
  assert (Hclock : forall r, In r (history (cap_norma c) d) ->
                             text_le (fetched_at r) (stamp (cap_clock c))).
  { intros r Hr. apply history_in in Hr as [Hr _]. apply Hahead; [exact Hr|now left]. }
  split; [apply save_keeps_rowid_order; exact Hord|].
  split; [intros norma; apply save_keeps_chronology; auto|].
  pose proof (save_if_changed_spec d (cap_clock c) (cap_norma c) (cap_url c) (cap_text c)) as Hs.
  subst d'.
  destruct (save_if_changed d (cap_clock c) (cap_norma c) (cap_url c) (cap_text c))
    as [[[[] h]|e] d1]; cbn [snd].
  - destruct Hs as (Hh & -> & latest & Hl & Hne).
    split.
    + intros r c' Hr Hc'. unfold with_version in Hr. cbn [norma_versions] in Hr.
      apply in_app_or in Hr as [Hr|[<-|[]]].
      * apply Hahead; [exact Hr|now right].
      * cbn [new_version fetched_at]. now apply Hc.
    + intros norma. destruct (str_eqb (cap_norma c) norma) eqn:E.
      * apply str_eqb_eq in E. subst norma.
        rewrite history_with_version by reflexivity.
        rewrite map_app. cbn [map]. apply no_repeat_app; [apply Hrep|].
        rewrite hd_rev_map.
        rewrite (latest_is_last d (cap_norma c) latest Hord (Hchron _) Hl) in Hne.
        destruct (hd_error (rev (history (cap_norma c) d))); cbn [option_map]; exact Hne.
      * apply str_eqb_neq in E. rewrite history_other by exact E. apply Hrep.
  - destruct Hs as (-> & _). split; [|exact Hrep].
    intros r c' Hr Hc'. apply Hahead; [exact Hr|now right].
  - subst d1. split; [|exact Hrep].
    intros r c' Hr Hc'. apply Hahead; [exact Hr|now right].
Qed.

Lemma capture_all_monotone (calls : list capture) :
  forall d,
    clock_monotone calls ->
    rowid_ordered d ->
    (forall norma, chronological norma d) ->
    ahead d calls ->
    (forall norma, no_repeat (map content_hash (history norma d))) ->
    let d' := capture_all calls d in
    rowid_ordered d'
    /\ (forall norma, chronological norma d')
    /\ (forall norma, no_repeat (map content_hash (history norma d'))).
Proof.
  induction calls as [|c calls IH]; intros d Hmono Hord Hchron Hahead Hrep; [cbn; auto|].
  rewrite capture_all_cons.
  destruct (save_step d c calls Hmono Hord Hchron Hahead Hrep) as (H1 & H2 & H3 & H4).
  apply IH; auto. now inversion Hmono.
Qed.

End StoreLemmas.

(** ** The time stamps *)

Module StampFacts.
Import PyStr PyStrFacts App Spec StoreFacts Notions DigitTactics.

Lemma digits_from_S (fuel : nat) (n : Z) (acc : str) :
  digits_from (S fuel) n acc
  = if n / 10 =? 0 then (48 + n mod 10) :: acc
    else digits_from fuel (n / 10) ((48 + n mod 10) :: acc).
Proof. reflexivity. Qed.

Lemma zero_pad_2 (n : Z) :
  0 <= n < 100 -> zero_pad 2 n = [48 + n / 10; 48 + n mod 10].
Proof.
  intros H. unfold zero_pad, str_of_nat. rewrite Z2Nat.id by lia.
  destruct (Z.ltb_spec n 10).
  - rewrite digits_from_S. decide_digit_tests. cbn [length repeat Nat.sub app].
    digits_equal.
  - replace (Z.to_nat n) with (S (Z.to_nat n - 1)) by lia.
    rewrite !digits_from_S. decide_digit_tests. cbn [length repeat Nat.sub app].
    digits_equal.
Qed.

Lemma zero_pad_4 (n : Z) :
  0 <= n < 10000 ->
  zero_pad 4 n
  = [48 + n / 100 / 10; 48 + (n / 100) mod 10; 48 + n mod 100 / 10; 48 + (n mod 100) mod 10].
Proof.
  intros H. unfold zero_pad, str_of_nat. rewrite Z2Nat.id by lia.
  destruct (Z.ltb_spec n 10); [|destruct (Z.ltb_spec n 100); [|destruct (Z.ltb_spec n 1000)]].
  - rewrite digits_from_S. decide_digit_tests. cbn [length repeat Nat.sub app].
    digits_equal.
  - replace (Z.to_nat n) with (S (Z.to_nat n - 1)) by lia.
    rewrite !digits_from_S. decide_digit_tests. cbn [length repeat Nat.sub app].
    digits_equal.
  - replace (Z.to_nat n) with (S (S (Z.to_nat n - 2))) by lia.
    rewrite !digits_from_S. decide_digit_tests. cbn [length repeat Nat.sub app].
    digits_equal.
  - replace (Z.to_nat n) with (S (S (S (Z.to_nat n - 3)))) by lia.
    rewrite !digits_from_S. decide_digit_tests. cbn [length repeat Nat.sub app].
    digits_equal.
Qed.

Lemma text_compare_cons (c d : Z) (x y : str) :
  text_compare (c :: x) (d :: y) = lex (c ?= d) (text_compare x y).
Proof. cbn [text_compare]. unfold lex. now destruct (c ?= d). Qed.

Lemma lex_digits_10 (n m : Z) (rest : comparison) :
  lex (48 + n / 10 ?= 48 + m / 10) (lex (48 + n mod 10 ?= 48 + m mod 10) rest)
  = lex (n ?= m) rest.
Proof.
  rewrite !Z.add_compare_mono_l.
  destruct (Z.compare_spec (n / 10) (m / 10)), (Z.compare_spec (n mod 10) (m mod 10)),
    (Z.compare_spec n m); cbn [lex]; try reflexivity; exfalso;
    Z.to_euclidean_division_equations; lia.
Qed.

Lemma lex_divmod_100 (n m : Z) (rest : comparison) :
  lex (n / 100 ?= m / 100) (lex (n mod 100 ?= m mod 100) rest) = lex (n ?= m) rest.
Proof.
  destruct (Z.compare_spec (n / 100) (m / 100)), (Z.compare_spec (n mod 100) (m mod 100)),
    (Z.compare_spec n m); cbn [lex]; try reflexivity; exfalso;
    Z.to_euclidean_division_equations; lia.
Qed.

Lemma isoformat_seconds_digits (t : datetime) :
  datetime_fields t ->
  isoformat_seconds t
  = zero_pad 4 (year t)
      ++ 45 :: zero_pad 2 (month t) ++ 45 :: zero_pad 2 (day t)
      ++ 84 :: zero_pad 2 (hour t) ++ 58 :: zero_pad 2 (minute t)
      ++ 58 :: zero_pad 2 (second t).
Proof. reflexivity. Qed.

Lemma stamp_compare (t1 t2 : datetime) :
  datetime_fields t1 -> datetime_fields t2 ->
  text_compare (stamp t1) (stamp t2) = compare_seconds t1 t2.
Proof.
  intros (Hy1 & Hmo1 & Hd1 & Hh1 & Hmi1 & Hs1) (Hy2 & Hmo2 & Hd2 & Hh2 & Hmi2 & Hs2).
  unfold stamp, compare_seconds.
  rewrite !isoformat_seconds_digits by (repeat split; lia).
  rewrite !zero_pad_4, !zero_pad_2 by assumption.
  cbn [app]. change (lit "Z") with [90].
  rewrite !text_compare_cons.
  rewrite !lex_digits_10, lex_divmod_100.
  cbn. reflexivity.
Qed.

Lemma stamp_length (t : datetime) : datetime_fields t -> length (stamp t) = 20%nat.
Proof.
  intros (Hy1 & Hmo1 & Hd1 & Hh1 & Hmi1 & Hs1).
  unfold stamp. rewrite isoformat_seconds_digits by (repeat split; lia).
  rewrite !zero_pad_4, !zero_pad_2 by assumption. reflexivity.
Qed.

End StampFacts.

(** ** The change summary *)

Module SummaryLemmas.
Import PyStr PyStrFacts Difflib App Spec MatcherSpec DifflibFacts SummaryFacts Notions.
Local Open Scope nat_scope.

Lemma opcodes_from_ok (a b : list str) (blocks : list block) (o : opcode) :
  forall i j,
    chain i j blocks ->
    Forall (matching a b) blocks ->
    In o (opcodes_from i j blocks) ->
    opcode_ok a b o.
Proof.
  induction blocks as [|[[ai bj] size] rest IH]; intros i j Hc Hm Hin; [contradiction|].
  destruct Hc as (Hi & Hj & Hc). inversion Hm as [|? ? Hx Hm']; subst.
  destruct Hx as (_ & X2 & _ & X4 & X5).
  cbn [opcodes_from] in Hin.
  apply in_app_or in Hin as [Hin|Hin]; [|apply in_app_or in Hin as [Hin|Hin]].
  - destruct (i <? ai) eqn:E1; destruct (j <? bj) eqn:E2; cbn in Hin;
      try contradiction; destruct Hin as [<-|[]];
      apply Nat.ltb_ge in E1 || apply Nat.ltb_lt in E1;
      apply Nat.ltb_ge in E2 || apply Nat.ltb_lt in E2; cbn; repeat split; lia.
  - destruct size; [contradiction|]. destruct Hin as [<-|[]]. cbn [opcode_ok].
    split; [lia|]. split; [lia|]. split; [lia|]. split; [lia|]. split; [lia|].
    intros k Hk. apply X5. lia.
  - exact (IH _ _ Hc Hm' Hin).
Qed.

Lemma opcodes_from_cover (a b : list str) (blocks : list block) :
  forall i j,
    chain i j blocks ->
    (exists pre, blocks = pre ++ [(length a, length b, 0)]) ->
    (forall x, i <= x < length a ->
               exists o, In o (opcodes_from i j blocks) /\ covers_a o x)
    /\ (forall y, j <= y < length b ->
                  exists o, In o (opcodes_from i j blocks) /\ covers_b o y).
Proof.
  induction blocks as [|[[ai bj] size] rest IH]; intros i j Hc [pre Hpre].
  - now destruct pre.
  - destruct Hc as (Hi & Hj & Hc).
    assert (Hrest : rest = [] /\ ai = length a /\ bj = length b /\ size = 0
                    \/ exists pre', rest = pre' ++ [(length a, length b, 0)]).
    { destruct pre as [|x pre].
      - left. injection Hpre as -> -> -> ->. auto.
      - right. injection Hpre as _ Hpre. now exists pre. }
    cbn [opcodes_from]. split.
    + intros x Hx. destruct (Nat.lt_ge_cases x ai) as [Hlt|Hge].
      * assert (E1 : (i <? ai) = true) by (apply Nat.ltb_lt; lia). rewrite E1.
        destruct (j <? bj); cbn [andb]; eexists; (split; [left; reflexivity|]); cbn; lia.
      * destruct Hrest as [(-> & -> & -> & ->)|Hrest]; [lia|].
        destruct (Nat.lt_ge_cases x (ai + size)) as [Hin|Hout].
        -- destruct size as [|size]; [lia|].
           exists (Equal, ai, ai + S size, bj, bj + S size).
           split; [|cbn; lia]. apply in_or_app. right. now left.
        -- destruct (IH _ _ Hc Hrest) as [IHa _].
           destruct (IHa x ltac:(lia)) as (o & Ho & Hox).
           exists o. split; [|exact Hox]. apply in_or_app. right. apply in_or_app. now right.
    + intros y Hy. destruct (Nat.lt_ge_cases y bj) as [Hlt|Hge].
      * assert (E2 : (j <? bj) = true) by (apply Nat.ltb_lt; lia). rewrite E2.
        destruct (i <? ai); cbn [andb]; eexists; (split; [left; reflexivity|]); cbn; lia.
      * destruct Hrest as [(-> & -> & -> & ->)|Hrest]; [lia|].
        destruct (Nat.lt_ge_cases y (bj + size)) as [Hin|Hout].
        -- destruct size as [|size]; [lia|].
           exists (Equal, ai, ai + S size, bj, bj + S size).
           split; [|cbn; lia]. apply in_or_app. right. now left.
        -- destruct (IH _ _ Hc Hrest) as [_ IHb].
           destruct (IHb y ltac:(lia)) as (o & Ho & Hoy).
           exists o. split; [|exact Hoy]. apply in_or_app. right. apply in_or_app. now right.
Qed.

Lemma get_opcodes_ok (a b : list str) (o : opcode) :
  In o (get_opcodes a b) -> opcode_ok a b o.
Proof.
  destruct (get_matching_blocks_ok a b) as (pre & Hpre & Hm & Hc).
  now apply opcodes_from_ok.
Qed.

Lemma get_opcodes_cover (a b : list str) :
  (forall x, x < length a -> exists o, In o (get_opcodes a b) /\ covers_a o x)
  /\ (forall y, y < length b -> exists o, In o (get_opcodes a b) /\ covers_b o y).
Proof.
  destruct (get_matching_blocks_ok a b) as (pre & Hpre & Hm & Hc).
  destruct (opcodes_from_cover a b (get_matching_blocks a b) 0 0 Hc) as [Ha Hb];
    [now exists pre|].
  split; intros z Hz; [apply Ha|apply Hb]; lia.
Qed.

Lemma in_slice (l : list str) (i j x : nat) :
  i <= x < j -> j <= length l -> In (item l x) (slice l i j).
Proof.
  intros Hx Hj. unfold slice, item.
  replace (nth x l []) with (nth (x - i) (firstn (j - i) (skipn i l)) []).
  - apply nth_In. rewrite length_firstn, length_skipn. lia.
  - rewrite nth_firstn.
    assert (E : (x - i <? j - i) = true) by (apply Nat.ltb_lt; lia). rewrite E.
    rewrite nth_skipn. f_equal. lia.
Qed.

(** A line of the second sequence that is no line of the first is added
    by an opcode; a line of the first that is no line of the second is
    removed by one. *)
Lemma new_line_added (a b : list str) (fromfile tofile line : str) :
  In line b -> ~ In line a ->
  In (lit "+" ++ line) (unified_diff a b fromfile tofile).
Proof.
  intros Hb Ha. destruct (In_nth b line [] Hb) as (y & Hy & Ey).
  destruct (proj2 (get_opcodes_cover a b) y Hy) as (o & Ho & Hoy).
  pose proof (get_opcodes_ok a b o Ho) as Hok.
  destruct o as [[[[t i1] i2] j1] j2]. cbn in Hoy. destruct Hok as (Hi2 & Hj2 & Hok).
  assert (Hline : In line (slice b j1 j2)).
  { rewrite <- Ey. apply in_slice; lia. }
  destruct t.
  - destruct (grouped_keeps a b (Replace, i1, i2, j1, j2) eq_refl Ho) as (g & Hg & Hcg).
    apply (unified_diff_lines a b fromfile tofile g (Replace, i1, i2, j1, j2)); auto.
    cbn [opcode_lines]. apply in_or_app. right. now apply in_map.
  - lia.
  - destruct (grouped_keeps a b (Insert, i1, i2, j1, j2) eq_refl Ho) as (g & Hg & Hcg).
    apply (unified_diff_lines a b fromfile tofile g (Insert, i1, i2, j1, j2)); auto.
    cbn [opcode_lines]. now apply in_map.
  - exfalso. apply Ha. destruct Hok as (Hlen & Hle & Hle' & Heq).
    specialize (Heq (y - j1) ltac:(lia)).
    replace (j1 + (y - j1)) with y in Heq by lia.
    unfold item in Heq. rewrite Ey in Heq. rewrite <- Heq. apply nth_In. lia.
Qed.

Lemma old_line_removed (a b : list str) (fromfile tofile line : str) :
  In line a -> ~ In line b ->
  In (lit "-" ++ line) (unified_diff a b fromfile tofile).
Proof.
  intros Ha Hb. destruct (In_nth a line [] Ha) as (x & Hx & Ex).
  destruct (proj1 (get_opcodes_cover a b) x Hx) as (o & Ho & Hox).
  pose proof (get_opcodes_ok a b o Ho) as Hok.
  destruct o as [[[[t i1] i2] j1] j2]. cbn in Hox. destruct Hok as (Hi2 & Hj2 & Hok).
  assert (Hline : In line (slice a i1 i2)).
  { rewrite <- Ex. apply in_slice; lia. }
  destruct t.
  - destruct (grouped_keeps a b (Replace, i1, i2, j1, j2) eq_refl Ho) as (g & Hg & Hcg).
    apply (unified_diff_lines a b fromfile tofile g (Replace, i1, i2, j1, j2)); auto.
    cbn [opcode_lines]. apply in_or_app. left. now apply in_map.
  - destruct (grouped_keeps a b (Delete, i1, i2, j1, j2) eq_refl Ho) as (g & Hg & Hcg).
    apply (unified_diff_lines a b fromfile tofile g (Delete, i1, i2, j1, j2)); auto.
    cbn [opcode_lines]. now apply in_map.
  - lia.
  - exfalso. apply Hb. destruct Hok as (Hlen & Hle & Hle' & Heq).
    specialize (Heq (x - i1) ltac:(lia)).
    replace (i1 + (x - i1)) with x in Heq by lia.
    unfold item in Heq. rewrite Ex in Heq. rewrite Heq. apply nth_In. lia.
Qed.

(** Every entry of the summary is a line of one of the two texts after
    its mark. *)
Lemma summary_entries_sound (a b : list str) (o : opcode) (e : str) :
  In e (summary_entries a b o) ->
  (exists line, e = lit "-" ++ line /\ In line a /\ startswith (lit "--") line = false)
  \/ (exists line, e = lit "+" ++ line /\ In line b /\ startswith (lit "++") line = false).
Proof.
  assert (Hr : forall l, In e (removed_entries l) ->
             exists line, e = lit "-" ++ line /\ In line l /\ startswith (lit "--") line = false).
  { intros l H. unfold removed_entries in H. apply in_map_iff in H as (line & <- & H).
    apply filter_In in H as [H1 H2]. exists line. repeat split; auto.
    now apply negb_true_iff in H2. }
  assert (Ha : forall l, In e (added_entries l) ->
             exists line, e = lit "+" ++ line /\ In line l /\ startswith (lit "++") line = false).
  { intros l H. unfold added_entries in H. apply in_map_iff in H as (line & <- & H).
    apply filter_In in H as [H1 H2]. exists line. repeat split; auto.
    now apply negb_true_iff in H2. }
  destruct o as [[[[t i1] i2] j1] j2]. cbn [summary_entries].
  destruct t; intros H.
  - apply in_app_or in H as [H|H].
    + left. destruct (Hr _ H) as (line & E & Hl & Hs). exists line. repeat split; auto.
      now apply slice_incl in Hl.
    + right. destruct (Ha _ H) as (line & E & Hl & Hs). exists line. repeat split; auto.
      now apply slice_incl in Hl.
  - left. destruct (Hr _ H) as (line & E & Hl & Hs). exists line. repeat split; auto.
    now apply slice_incl in Hl.
  - right. destruct (Ha _ H) as (line & E & Hl & Hs). exists line. repeat split; auto.
    now apply slice_incl in Hl.
  - contradiction.
Qed.


(** *** The groups hold every change once *)

Section Entries.

Variable F : opcode -> list str.
Hypothesis F_equal : forall i1 i2 j1 j2, F (Equal, i1, i2, j1, j2) = [].

Lemma trim_first_entries (n : nat) (codes : list opcode) :
  flat_map F (trim_first n codes) = flat_map F codes.
Proof.
  destruct codes as [|[[[[t i1] i2] j1] j2] rest]; [reflexivity|].
  destruct t; try reflexivity. cbn [trim_first flat_map]. now rewrite !F_equal.
Qed.

Lemma trim_last_entries (n : nat) (codes : list opcode) :
  flat_map F (trim_last n codes) = flat_map F codes.
Proof.
  induction codes as [|[[[[t i1] i2] j1] j2] rest IH]; [reflexivity|].
  destruct rest as [|y rest].
  - destruct t; try reflexivity. cbn [trim_last flat_map]. now rewrite !F_equal.
  - transitivity (F (t, i1, i2, j1, j2) ++ flat_map F (trim_last n (y :: rest))).
    + destruct t; reflexivity.
    + rewrite IH. reflexivity.
Qed.

Lemma group_loop_entries (n : nat) (codes : list opcode) :
  forall group,
    flat_map (flat_map F) (group_loop n codes group) = flat_map F (group ++ codes).
Proof.
  induction codes as [|[[[[t i1] i2] j1] j2] rest IH]; intros group.
  - rewrite app_nil_r. cbn [group_loop].
    destruct group as [|[[[[t i1] i2] j1] j2] [|y group]]; [reflexivity| |].
    + destruct t; cbn [flat_map]; rewrite ?F_equal, ?app_nil_r; reflexivity.
    + destruct t; cbn [flat_map]; rewrite ?app_nil_r; reflexivity.
  - cbn [group_loop].
    destruct (tag_eqb t Equal && (n + n <? i2 - i1)) eqn:E.
    + apply andb_prop in E as [Et _]. destruct t; try discriminate.
      cbn [flat_map]. rewrite IH. rewrite !flat_map_app. cbn [flat_map app].
      rewrite !F_equal. cbn [app]. now rewrite app_nil_r.
    + rewrite IH, <- app_assoc. reflexivity.
Qed.

Lemma grouped_entries (a b : list str) :
  flat_map (flat_map F) (get_grouped_opcodes a b 3) = flat_map F (get_opcodes a b).
Proof.
  unfold get_grouped_opcodes.
  rewrite group_loop_entries. cbn [app].
  rewrite trim_last_entries, trim_first_entries.
  destruct (get_opcodes a b); [|reflexivity].
  cbn [flat_map]. now rewrite F_equal.
Qed.

End Entries.

Lemma iter_changes_opcodes (old_text new_text : str) :
  iter_changes old_text new_text
  = flat_map (summary_entries (splitlines old_text) (splitlines new_text))
      (get_opcodes (splitlines old_text) (splitlines new_text)).
Proof.
  rewrite iter_changes_summary. apply grouped_entries. reflexivity.
Qed.

(** *** The opcodes take in the two sequences, piece by piece *)

Lemma slice_step (l : list str) (i k j : nat) :
  i <= k -> skipn i l = slice l i k ++ skipn k l.
Proof.
  intros H. unfold slice.
  replace (skipn k l) with (skipn (k - i) (skipn i l)).
  - symmetry. apply firstn_skipn.
  - rewrite skipn_skipn. f_equal. lia.
Qed.

Lemma slice_empty (l : list str) (i : nat) : slice l i i = [].
Proof. unfold slice. now rewrite Nat.sub_diag. Qed.

Lemma opcodes_from_tile (a b : list str) (blocks : list block) :
  forall i j,
    chain i j blocks ->
    (exists pre, blocks = pre ++ [(length a, length b, 0)]) ->
    skipn i a = flat_map (a_lines a) (opcodes_from i j blocks)
    /\ skipn j b = flat_map (b_lines b) (opcodes_from i j blocks).
Proof.
  induction blocks as [|[[ai bj] size] rest IH]; intros i j Hc [pre Hpre].
  - now destruct pre.
  - destruct Hc as (Hi & Hj & Hc).
    assert (Hrest : rest = [] /\ ai = length a /\ bj = length b /\ size = 0
                    \/ exists pre', rest = pre' ++ [(length a, length b, 0)]).
    { destruct pre as [|x pre].
      - left. injection Hpre as -> -> -> ->. auto.
      - right. injection Hpre as _ Hpre. now exists pre. }
    assert (Htail : skipn (ai + size) a = flat_map (a_lines a) (opcodes_from (ai + size) (bj + size) rest)
                    /\ skipn (bj + size) b = flat_map (b_lines b) (opcodes_from (ai + size) (bj + size) rest)).
    { destruct Hrest as [(-> & -> & -> & ->)|Hrest]; [|now apply IH].
      rewrite !Nat.add_0_r, !skipn_all. now split. }
    destruct Htail as [Ta Tb].
    cbn [opcodes_from]. rewrite !flat_map_app.
    assert (Hsame_a : forall l, flat_map (a_lines l)
                  match size with 0 => [] | S _ => [(Equal, ai, ai + size, bj, bj + size)] end
                = slice l ai (ai + size)).
    { intros l. destruct size; [now rewrite Nat.add_0_r, slice_empty|].
      cbn [flat_map a_lines]. apply app_nil_r. }
    assert (Hsame_b : forall l, flat_map (b_lines l)
                  match size with 0 => [] | S _ => [(Equal, ai, ai + size, bj, bj + size)] end
                = slice l bj (bj + size)).
    { intros l. destruct size; [now rewrite Nat.add_0_r, slice_empty|].
      cbn [flat_map b_lines]. apply app_nil_r. }
    unfold opcode in *. rewrite Hsame_a, Hsame_b, <- Ta, <- Tb.
    rewrite <- (slice_step a ai (ai + size) 0), <- (slice_step b bj (bj + size) 0) by lia.
    split.
    + destruct (i <? ai) eqn:E1; destruct (j <? bj) eqn:E2; cbn [andb flat_map a_lines];
        rewrite ?app_nil_r; try (apply (slice_step a i ai 0); lia).
      apply Nat.ltb_ge in E1. cbn [app]. f_equal. lia.
    + destruct (i <? ai) eqn:E1; destruct (j <? bj) eqn:E2; cbn [andb flat_map b_lines];
        rewrite ?app_nil_r; try (apply (slice_step b j bj 0); lia).
      apply Nat.ltb_ge in E2. cbn [app]. f_equal. lia.
Qed.

Lemma get_opcodes_tile (a b : list str) :
  a = flat_map (a_lines a) (get_opcodes a b)
  /\ b = flat_map (b_lines b) (get_opcodes a b).
Proof.
  destruct (get_matching_blocks_ok a b) as (pre & Hpre & Hm & Hc).
  apply (opcodes_from_tile a b (get_matching_blocks a b) 0 0 Hc). now exists pre.
Qed.

Lemma equal_lines (a b : list str) (i1 i2 j1 j2 : nat) :
  opcode_ok a b (Equal, i1, i2, j1, j2) -> slice a i1 i2 = slice b j1 j2.
Proof.
  intros (Hi & Hj & Hlen & Hle & Hle' & Heq). unfold slice. rewrite <- Hlen.
  apply slices_equal; auto; lia.
Qed.

Lemma opcodes_balance (a b : list str) (ops : list opcode) :
  Forall (opcode_ok a b) ops ->
  Permutation (flat_map (a_lines a) ops ++ flat_map (added_lines b) ops)
    (flat_map (b_lines b) ops ++ flat_map (removed_lines a) ops).
Proof.
  induction 1 as [|o ops Ho Hops IH]; [constructor|].
  cbn [flat_map].
  destruct o as [[[[t i1] i2] j1] j2].
  unfold added_lines, removed_lines. cbn [op_tag a_lines b_lines].
  destruct t.
  - rewrite <- !app_assoc.
    transitivity (slice a i1 i2 ++ slice b j1 j2
                    ++ flat_map (b_lines b) ops ++ flat_map (removed_lines a) ops).
    + apply Permutation_app_head.
      etransitivity; [apply Permutation_app_swap_app|]. apply Permutation_app_head, IH.
    + etransitivity; [apply Permutation_app_swap_app|].
      apply Permutation_app_head. apply Permutation_app_swap_app.
  - destruct Ho as (_ & _ & ->). rewrite slice_empty. cbn [app].
    rewrite <- !app_assoc.
    transitivity (slice a i1 i2 ++ flat_map (b_lines b) ops ++ flat_map (removed_lines a) ops).
    + apply Permutation_app_head, IH.
    + apply Permutation_app_swap_app.
  - destruct Ho as (_ & _ & ->). rewrite slice_empty. cbn [app].
    rewrite <- !app_assoc.
    etransitivity; [apply Permutation_app_swap_app|].
    apply Permutation_app_head. apply IH.
  - rewrite (equal_lines a b i1 i2 j1 j2 Ho). cbn [app].
    rewrite <- !app_assoc. apply Permutation_app_head. apply IH.
Qed.

Lemma removed_entries_app (x y : list str) :
  removed_entries (x ++ y) = removed_entries x ++ removed_entries y.
Proof. unfold removed_entries. now rewrite filter_app, map_app. Qed.

Lemma added_entries_app (x y : list str) :
  added_entries (x ++ y) = added_entries x ++ added_entries y.
Proof. unfold added_entries. now rewrite filter_app, map_app. Qed.

Lemma summary_entries_split (a b : list str) (ops : list opcode) :
  Permutation (flat_map (summary_entries a b) ops)
    (removed_entries (flat_map (removed_lines a) ops)
       ++ added_entries (flat_map (added_lines b) ops)).
Proof.
  induction ops as [|o ops IH]; [constructor|].
  cbn [flat_map]. rewrite removed_entries_app, added_entries_app.
  destruct o as [[[[t i1] i2] j1] j2].
  unfold added_lines, removed_lines. cbn [op_tag a_lines b_lines summary_entries].
  destruct t; cbn [app].
  - rewrite <- !app_assoc. apply Permutation_app_head.
    etransitivity; [apply Permutation_app_head, IH|].
    apply Permutation_app_swap_app.
  - rewrite <- !app_assoc. apply Permutation_app_head. apply IH.
  - etransitivity; [apply Permutation_app_head, IH|].
    apply Permutation_app_swap_app.
  - apply IH.
Qed.

(** *** An empty sequence *)

Lemma scan_rows_no_b (a : list str) (n : nat) :
  forall i best, scan_rows a [] n i 0 0 [] best = best.
Proof.
  induction n as [|n IH]; intros i best; [reflexivity|].
  cbn [scan_rows]. unfold b2j, popular, indices_from. cbn [length Nat.leb andb].
  cbn [scan_row]. apply IH.
Qed.

Lemma get_opcodes_no_b (a : list str) :
  get_opcodes a []
  = match a with [] => [] | _ :: _ => [(Delete, 0, length a, 0, 0)] end.
Proof.
  unfold get_opcodes, get_matching_blocks. cbn [length].
  assert (E : find_longest_match a [] 0 (length a) 0 0 = (0, 0, 0)).
  { unfold find_longest_match. rewrite scan_rows_no_b. cbn [fst snd extend_left].
    destruct (length a - (0 + 0)); [reflexivity|].
    cbn [extend_right]. rewrite Nat.ltb_irrefl, andb_false_r. reflexivity. }
  replace (2 * length a + 1) with (S (2 * length a)) by lia.
  cbn [blocks_loop]. rewrite E. cbn [blocks_loop sort_blocks fold_right collapse app opcodes_from].
  destruct a; reflexivity.
Qed.

Lemma get_opcodes_no_a (b : list str) :
  get_opcodes [] b
  = match b with [] => [] | _ :: _ => [(Insert, 0, 0, 0, length b)] end.
Proof.
  unfold get_opcodes, get_matching_blocks. cbn [length Nat.mul Nat.add blocks_loop].
  assert (E : find_longest_match [] b 0 0 0 (length b) = (0, 0, 0)) by reflexivity.
  rewrite E. cbn [blocks_loop sort_blocks fold_right collapse app opcodes_from].
  destruct b; reflexivity.
Qed.

Lemma slice_all (l : list str) : slice l 0 (length l) = l.
Proof. unfold slice. rewrite Nat.sub_0_r. apply firstn_all. Qed.

End SummaryLemmas.

(** ** The page *)

Module PageFacts.
Import PyStr PyStrFacts App Spec Page StoreFacts SummaryFacts Notions.

Section Run.

Variable BeautifulSoup : str -> Soup.soup.
Variable requests_get : str -> Z -> outcome Response.
Variable make_table : list str -> list str -> str.
Variable utcnow : datetime.

Lemma fetch_norma_status (url : str) (timeout_s : Z) (response : Response) :
  requests_get url timeout_s = Return response ->
  if (400 <=? status_code response) && (status_code response <? 600)
  then exists message,
         fetch_norma BeautifulSoup requests_get url timeout_s
         = Raised (RequestException message)
  else fetch_norma BeautifulSoup requests_get url timeout_s
       = Return (extract_norma_text BeautifulSoup (text response)).
Proof.
  intros E. unfold fetch_norma, raise_for_status. rewrite E.
  destruct (400 <=? status_code response) eqn:E1;
    destruct (status_code response <? 500) eqn:E2;
    destruct (500 <=? status_code response) eqn:E3;
    destruct (status_code response <? 600) eqn:E4; cbn [andb];
    try (eexists; reflexivity); try reflexivity;
    apply Z.leb_le in E1 || apply Z.leb_gt in E1;
    apply Z.ltb_lt in E2 || apply Z.ltb_ge in E2;
    apply Z.leb_le in E3 || apply Z.leb_gt in E3;
    apply Z.ltb_lt in E4 || apply Z.ltb_ge in E4; lia.
Qed.

(** The button: the table after it and the element it writes. *)
Lemma capture_cases (norma_id norma_url : str) (w : world) :
  let r := capture BeautifulSoup requests_get utcnow norma_id norma_url w in
  match norma_id, norma_url with
  | [], _ | _, [] =>
      r = (Return tt, {| database := database w;
                         page := page w ++ [error (lit "Debes ingresar ID y URL.")] |})
  | _, _ =>
      match fetch_norma BeautifulSoup requests_get norma_url 30 with
      | Raised (RequestException message) =>
          r = (Return tt,
               {| database := database w;
                  page := page w ++ [error (lit "Error al descargar la norma: " ++ message)] |})
      | Raised (StoreException e) => r = (Raised (StoreException e), w)
      | Return content =>
          let saved := save_if_changed (database w) utcnow norma_id norma_url content in
          match fst saved with
          | Raise e =>
              r = (Raised (StoreException e),
                   {| database := snd saved; page := page w |})
          | Ok (inserted, content_hash) =>
              exists e,
                r = (Return tt, {| database := snd saved; page := page w ++ [e] |})
          end
      end
  end.
Proof.
  cbv zeta. unfold capture.
  destruct norma_id as [|c i]; [reflexivity|]. destruct norma_url as [|c' u]; [reflexivity|].
  unfold try_except, and_then, lift, update.
  destruct (fetch_norma BeautifulSoup requests_get (c' :: u) 30) as [content|[message|e]];
    [|reflexivity|reflexivity].
  destruct (save_if_changed (database w) utcnow (c :: i) (c' :: u) content) as [[[ins h]|e] d'];
    cbn [fst snd of_result]; [|reflexivity].
  destruct ins; eexists; reflexivity.
Qed.

Lemma main_unfold (file : option db) (s : session) :
  main BeautifulSoup requests_get make_table utcnow file s
  = match (if button_capturar s
           then capture BeautifulSoup requests_get utcnow (input_norma_id s) (input_norma_url s)
           else ret tt) {| database := init_db file; page := heading |} with
    | (Raised e, w1) => (Raised e, w1)
    | (Return _, w1) =>
        match match input_norma_id s with
              | [] => ret []
              | _ :: _ => query (fun d => list_versions d (input_norma_id s))
              end w1 with
        | (Raised e, w2) => (Raised e, w2)
        | (Return versions, w2) =>
            (Return tt, {| database := database w2;
                           page := page w2 ++ versions_view make_table versions s |})
        end
    end.
Proof. reflexivity. Qed.

Lemma versions_query (norma_id : str) (w : world) :
  snd (match norma_id with
       | [] => ret []
       | _ :: _ => query (fun d => list_versions d norma_id)
       end w) = w.
Proof. destruct norma_id; reflexivity. Qed.

(** The table after a run is the table after the button, and the page
    begins with the page after the button. *)
Lemma main_after_capture (file : option db) (s : session) :
  let w1 := snd ((if button_capturar s
                  then capture BeautifulSoup requests_get utcnow
                         (input_norma_id s) (input_norma_url s)
                  else ret tt) {| database := init_db file; page := heading |}) in
  let w := snd (main BeautifulSoup requests_get make_table utcnow file s) in
  database w = database w1 /\ exists rest, page w = page w1 ++ rest.
Proof.
  cbv zeta. rewrite main_unfold.
  set (button := (if button_capturar s
                  then capture BeautifulSoup requests_get utcnow
                         (input_norma_id s) (input_norma_url s)
                  else ret tt) {| database := init_db file; page := heading |}).
  destruct button as [[[]|e] w1]; cbn [snd].
  - pose proof (versions_query (input_norma_id s) w1) as Hq.
    set (versions := match input_norma_id s with
                     | [] => ret []
                     | _ :: _ => query (fun d => list_versions d (input_norma_id s))
                     end w1) in *.
    destruct versions as [[versions|e] w2]; cbn [snd] in *; subst w2.
    + split; [reflexivity|]. now eexists.
    + split; [reflexivity|]. exists []. now rewrite app_nil_r.
  - split; [reflexivity|]. exists []. now rewrite app_nil_r.
Qed.


Lemma fetch_norma_returns (url : str) (timeout_s : Z) (content : str) :
  fetch_norma BeautifulSoup requests_get url timeout_s = Return content ->
  exists response,
    requests_get url timeout_s = Return response
    /\ ~ (400 <= status_code response < 600)
    /\ content = extract_norma_text BeautifulSoup (text response).
Proof.
  intros H. destruct (requests_get url timeout_s) as [response|e] eqn:E.
  - exists response. pose proof (fetch_norma_status url timeout_s response E) as Hs.
    destruct ((400 <=? status_code response) && (status_code response <? 600)) eqn:Eb.
    + destruct Hs as [message Hs]. congruence.
    + split; [reflexivity|]. split; [|congruence].
      intros [H1 H2]. apply andb_false_iff in Eb as [Eb|Eb];
        [apply Z.leb_gt in Eb|apply Z.ltb_ge in Eb]; lia.
  - unfold fetch_norma in H. rewrite E in H. discriminate.
Qed.

Lemma selectbox_bound (n index : nat) (choice : option nat) :
  (index < n)%nat -> (selectbox n index choice < n)%nat.
Proof.
  intros H. unfold selectbox. destruct choice as [i|]; [|exact H].
  destruct (i <? n)%nat eqn:E; [now apply Nat.ltb_lt in E|exact H].
Qed.

Lemma change_elements_coloured (line : str) :
  is_change_line line = true -> change_elements line = [coloured line].
Proof.
  unfold is_change_line, change_elements, coloured. intros H.
  apply andb_true_iff in H as [H _]. apply orb_true_iff in H.
  destruct (startswith (lit "+") line) eqn:E1; [reflexivity|].
  destruct H as [H|H]; [discriminate|]. rewrite H. reflexivity.
Qed.

Lemma changes_coloured (changes : list str) :
  Forall (fun line => is_change_line line = true) changes ->
  flat_map change_elements changes = map coloured changes.
Proof.
  induction 1 as [|line changes H _ IH]; [reflexivity|].
  cbn [flat_map map]. now rewrite IH, (change_elements_coloured line H).
Qed.

Lemma iter_changes_marked (old_text new_text : str) :
  Forall (fun line => is_change_line line = true) (iter_changes old_text new_text).
Proof. apply Forall_forall. intros line. apply iter_changes_in. Qed.

Lemma Forall_firstn {A : Type} (P : A -> Prop) (n : nat) (l : list A) :
  Forall P l -> Forall P (firstn n l).
Proof.
  intros H. revert n. induction H as [|x l Hx Hl IH]; intros [|n]; cbn [firstn]; auto.
Qed.

End Run.

(** The button when the download and the store both answer. *)
Lemma capture_saved (BeautifulSoup : str -> Soup.soup) (requests_get : str -> Z -> outcome Response)
    (utcnow : datetime) (norma_id norma_url content h : str) (inserted : bool)
    (w : world) (d' : db) :
  norma_id <> [] -> norma_url <> [] ->
  fetch_norma BeautifulSoup requests_get norma_url 30 = Return content ->
  save_if_changed (database w) utcnow norma_id norma_url content = (Ok (inserted, h), d') ->
  capture BeautifulSoup requests_get utcnow norma_id norma_url w
  = (Return tt,
     {| database := d';
        page := page w
                ++ [if inserted
                    then success (lit "Nueva versi" ++ [243] ++ lit "n guardada. Hash: "
                                    ++ firstn 12 h)
                    else info (lit "No hubo cambios respecto de la " ++ [250]
                                 ++ lit "ltima versi" ++ [243] ++ lit "n guardada.")] |}).
Proof.
  intros Hi Hu Hf Hs. unfold capture.
  destruct norma_id as [|c i]; [contradiction|]. destruct norma_url as [|c' u]; [contradiction|].
  unfold try_except, and_then, lift, update. rewrite Hf, Hs. cbn [fst snd of_result].
  destruct inserted; reflexivity.
Qed.

End PageFacts.

(** ** Further properties of the normalizer *)

Module NormalizerProps.
Import PyStr PyStrFacts Soup App Spec Notions NormalizerFacts NormalizerLemmas.

(** X1. [normalize_text] is idempotent: a normalized text is left as it
    is. The result is the empty text exactly when the text is empty or
    made of white space only. *)
Theorem normalize_text_idempotent (text : str) :
  normalize_text (normalize_text text) = normalize_text text
  /\ (normalize_text text = [] <-> forallb isspace text = true).
Proof. split; [apply normalize_text_fixed|apply normalize_text_blank]. Qed.

(** X2. [normalize_text] changes white space only: the characters of the
    text that are no white space are those of the result, in the same
    order, and the result is never longer than the text. *)
Theorem normalize_text_keeps_visible (text : str) :
  visible (normalize_text text) = visible text
  /\ len (normalize_text text) <= len text.
Proof. split; [apply visible_normalize_text|apply normalize_text_length]. Qed.

(** X3. The text [extract_norma_text] returns is clean: when the parser
    reads it as one string (it holds no markup), [extract_norma_text]
    returns it as it is. *)
Theorem extract_norma_text_of_clean_text (BeautifulSoup : str -> soup) (html : str) :
  let out := extract_norma_text BeautifulSoup html in
  BeautifulSoup out = [NavigableString out] ->
  extract_norma_text BeautifulSoup out = out.
Proof.
  intros out Hparse.
  rewrite (extract_norma_text_cleaned BeautifulSoup out). unfold cleaned_lines.
  rewrite Hparse. cbn [flat_map content_strings strings_outside app join].
  unfold out at 1. rewrite splitlines_extract_norma_text.
  unfold out. rewrite (extract_norma_text_cleaned BeautifulSoup html). f_equal.
  unfold cleaned_lines.
  set (lines := splitlines (join [LF] (flat_map content_strings (BeautifulSoup html)))).
  induction lines as [|l lines IH]; [reflexivity|].
  cbn [map filter]. destruct (2 <? len (normalize_text l)) eqn:E; [|exact IH].
  cbn [map filter]. rewrite normalize_text_fixed, E. f_equal. exact IH.
Qed.

(** X3 at the example of the specification: the text "Hello world". *)
Lemma clean_text_example :
  let out := extract_norma_text html_parser example_markup in
  extract_norma_text html_parser out = out.
Proof.
  intros out. apply (extract_norma_text_of_clean_text html_parser example_markup).
  vm_compute. reflexivity.
Defined.

End NormalizerProps.

(** ** Further properties of the fingerprint *)

Module FingerprintProps.
Import PyStr PyStrFacts App Spec Examples Notions Scenarios.
Import FingerprintFacts StoreFacts FingerprintLemmas.

(** X4. [hash_content] raises [UnicodeEncodeError] exactly on the texts
    that hold a surrogate, and returns a fingerprint for every other
    text. *)
Theorem hash_content_raises_on_surrogates (content_text : str) :
  Forall code_point content_text ->
  (hash_content content_text = Raise UnicodeEncodeError <-> Exists surrogate content_text)
  /\ ((exists h, hash_content content_text = Ok h) <-> ~ Exists surrogate content_text).
Proof.
  intros H. pose proof (encode_none content_text H) as He. unfold hash_content.
  destruct (Utf8.encode content_text) as [data|].
  - split; split.
    + discriminate.
    + intros Hs. apply He in Hs. discriminate.
    + intros _ Hs. apply He in Hs. discriminate.
    + intros _. now eexists.
  - split; split.
    + intros _. now apply He.
    + reflexivity.
    + intros [h Hh]. discriminate.
    + intros Hn. exfalso. apply Hn. now apply He.
Qed.

(** X4 at a text with a surrogate. *)
Lemma surrogate_text_has_no_fingerprint :
  (hash_content [97; 55296] = Raise UnicodeEncodeError <-> Exists surrogate [97; 55296])
  /\ ((exists h, hash_content [97; 55296] = Ok h) <-> ~ Exists surrogate [97; 55296]).
Proof.
  apply (hash_content_raises_on_surrogates [97; 55296]).
  repeat constructor; unfold code_point; lia.
Defined.

(** X5. Two texts with the same fingerprint are the same text, or their
    encodings are a collision of SHA-256: the encoding and the hexadecimal
    form lose nothing. *)
Theorem equal_fingerprints (x y h : str) :
  hash_content x = Ok h ->
  hash_content y = Ok h ->
  x = y \/ collision x y.
Proof. apply equal_hash. Qed.

(** X5 at the two texts of the example, which have different
    fingerprints, and at one of them. *)
Lemma equal_fingerprints_example :
  hash_content original <> hash_content modified
  /\ (original = original \/ collision original original).
Proof.
  split; [intros H; vm_compute in H; discriminate|].
  apply (equal_fingerprints original original original_hash); vm_compute; reflexivity.
Defined.

(** X6. In a table whose hashes are the fingerprints of its texts,
    [save_if_changed] answers [False] only when the latest version of the
    identifier has the text given, or a text whose encoding collides with
    its encoding under SHA-256. *)
Theorem unchanged_only_for_same_text
    (d d' : db) (t : datetime) (norma url content h : str) :
  hashes_match d ->
  save_if_changed d t norma url content = (Ok (false, h), d') ->
  exists v,
    get_latest_version d norma = Ok (Some v)
    /\ In v (norma_versions d)
    /\ (content_text v = content \/ collision (content_text v) content).
Proof.
  intros Hm E. unfold save_if_changed in E.
  destruct (hash_content content) as [new_hash|e] eqn:Hh; [|discriminate].
  destruct (get_latest_version d norma) as [[v|]|e] eqn:Hl; try discriminate.
  - destruct (str_eqb (content_hash v) new_hash) eqn:Ev.
    + apply str_eqb_eq in Ev. exists v. split; [reflexivity|].
      destruct (latest_in_table d norma v Hl) as [Hin _]. split; [exact Hin|].
      unfold hashes_match in Hm. rewrite Forall_forall in Hm. specialize (Hm v Hin).
      apply (equal_hash _ _ new_hash); congruence.
    + destruct (insert_row d norma (isoformat_seconds t ++ lit "Z") url new_hash content);
        discriminate.
  - destruct (insert_row d norma (isoformat_seconds t ++ lit "Z") url new_hash content);
      discriminate.
Qed.

(** X6 at the example: the modified text captured again. *)
Lemma modified_text_unchanged :
  exists v,
    get_latest_version two_versions ley = Ok (Some v)
    /\ In v (norma_versions two_versions)
    /\ (content_text v = modified \/ collision (content_text v) modified).
Proof.
  apply (unchanged_only_for_same_text two_versions two_versions one_past ley portal modified
           modified_hash).
  - unfold two_versions, one_version. do 2 apply capture_all_keeps_hashes. constructor.
  - vm_compute. reflexivity.
Defined.

End FingerprintProps.

(** ** Further properties of the version store *)

Module StoreProps.
Import PyStr PyStrFacts App Spec Examples Notions Scenarios.
Import FingerprintFacts StoreFacts StoreLemmas StampFacts.

(** X7. [save_if_changed] for one identifier leaves the versions of every
    other identifier as they are: their rows, what [list_versions] returns
    for them and what [get_latest_version] returns for them. *)
Theorem save_if_changed_other_identifier
    (d : db) (t : datetime) (norma other url content : str) :
  other <> norma ->
  let d' := snd (save_if_changed d t norma url content) in
  history other d' = history other d
  /\ list_versions d' other = list_versions d other
  /\ get_latest_version d' other = get_latest_version d other.
Proof.
  intros H d'. pose proof (save_other_history d t norma other url content H) as E.
  fold d' in E. split; [exact E|].
  unfold list_versions, get_latest_version. rewrite !index_scan_history, E. auto.
Qed.

(** X7 at the example: LEY-2 when LEY-1 is captured. *)
Lemma other_identifier_untouched :
  let d' := snd (save_if_changed one_version half_past ley portal modified) in
  history other_ley d' = history other_ley one_version
  /\ list_versions d' other_ley = list_versions one_version other_ley
  /\ get_latest_version d' other_ley = get_latest_version one_version other_ley.
Proof.
  apply (save_if_changed_other_identifier one_version half_past ley other_ley portal modified).
  intros H. vm_compute in H. discriminate.
Defined.

(** X8. The table is append-only: after any sequence of captures the rows
    it had stand where they stood, unchanged, followed by at most one new
    row per capture, each with the identifier, the URL, the text, the
    fingerprint and the time stamp of one of the captures. *)
Theorem captures_only_append (calls : list capture) (d : db) :
  exists tail,
    norma_versions (capture_all calls d) = norma_versions d ++ tail
    /\ (length tail <= length calls)%nat
    /\ Forall (fun r => exists c, In c calls /\ row_of c r) tail.
Proof. apply capture_all_rows. Qed.

(** X9. After any sequence of captures from the empty table the keys of
    the rows are 1, 2, 3 and so on in the order of the rows, without a gap
    and without a repetition, and the counter of [AUTOINCREMENT] is the
    number of rows. *)
Theorem captures_number_rows (calls : list capture) :
  numbered (capture_all calls empty_db).
Proof. apply capture_all_numbered. split; reflexivity. Qed.

(** X10. The time stamps [save_if_changed] stores have 20 characters, and
    their order as texts, the one [ORDER BY fetched_at] follows, is the
    order of the readings of the clock to the second; microseconds are
    left out. *)
Theorem stamp_order (t1 t2 : datetime) :
  datetime_fields t1 ->
  datetime_fields t2 ->
  text_compare (stamp t1) (stamp t2) = compare_seconds t1 t2
  /\ length (stamp t1) = 20%nat.
Proof. intros H1 H2. split; [now apply stamp_compare|now apply stamp_length]. Qed.

(** X10 at the example: noon and half a minute past noon. *)
Lemma stamp_order_example :
  text_compare (stamp noon) (stamp half_past) = compare_seconds noon half_past
  /\ length (stamp noon) = 20%nat.
Proof.
  apply (stamp_order noon half_past); unfold datetime_fields; cbn; lia.
Defined.

(** X11. When the clock is not behind the time stamps stored for the
    identifier, a call of [save_if_changed] that returns leaves a latest
    version whose hash is the fingerprint returned; when the call
    answers [True], the latest version is the row it appended. *)
Theorem save_then_latest
    (d d' : db) (t : datetime) (norma url content h : str) (inserted : bool) :
  (forall r, In r (history norma d) -> text_le (fetched_at r) (stamp t)) ->
  save_if_changed d t norma url content = (Ok (inserted, h), d') ->
  exists v,
    get_latest_version d' norma = Ok (Some v)
    /\ content_hash v = h
    /\ hash_content content = Ok h
    /\ (inserted = true -> v = new_version d t norma url content h).
Proof.
  intros Hclock E. pose proof (save_if_changed_spec d t norma url content) as Hs.
  rewrite E in Hs. destruct inserted.
  - destruct Hs as (Hh & -> & latest & Hl & _).
    apply get_latest_version_ok in Hl as [Hb _].
    exists (new_version d t norma url content h).
    split; [now apply latest_after_append|]. auto.
  - destruct Hs as (-> & Hh & v & Hl & Hv). exists v. repeat split; auto. discriminate.
Qed.

(** X11 at the example: the modified text captured after the original
    one. *)
Lemma modified_text_is_latest :
  exists v,
    get_latest_version two_versions ley = Ok (Some v)
    /\ content_hash v = modified_hash
    /\ hash_content modified = Ok modified_hash
    /\ (true = true -> v = new_version one_version half_past ley portal modified modified_hash).
Proof.
  apply (save_then_latest one_version two_versions half_past ley portal modified
           modified_hash true).
  - intros r Hr. vm_compute in Hr. destruct Hr as [<-|[]]. vm_compute. discriminate.
  - vm_compute. reflexivity.
Defined.

(** X12. When the clock is not behind the time stamps stored for the
    identifier, a capture that appends a row adds it at the end of what
    [list_versions] returns, and leaves the versions before it in their
    order. *)
Theorem list_versions_after_capture
    (d d' : db) (t : datetime) (norma url content h : str) :
  (forall r, In r (history norma d) -> text_le (fetched_at r) (stamp t)) ->
  save_if_changed d t norma url content = (Ok (true, h), d') ->
  exists versions,
    list_versions d norma = Ok versions
    /\ list_versions d' norma = Ok (versions ++ [new_version d t norma url content h]).
Proof.
  intros Hclock E. pose proof (save_if_changed_spec d t norma url content) as Hs.
  rewrite E in Hs. destruct Hs as (Hh & -> & latest & Hl & _).
  apply get_latest_version_ok in Hl as [Hb _].
  exists (index_scan norma d). unfold list_versions, bind. rewrite Hb.
  split; [reflexivity|]. f_equal.
  rewrite !index_scan_history, history_with_version by reflexivity.
  apply index_sort_app. now apply clock_version_le.
Qed.

(** X12 at the example. *)
Lemma versions_after_modified_text :
  exists versions,
    list_versions one_version ley = Ok versions
    /\ list_versions two_versions ley
       = Ok (versions ++ [new_version one_version half_past ley portal modified modified_hash]).
Proof.
  apply (list_versions_after_capture one_version two_versions half_past ley portal modified
           modified_hash).
  - intros r Hr. vm_compute in Hr. destruct Hr as [<-|[]]. vm_compute. discriminate.
  - vm_compute. reflexivity.
Defined.

(** X13. When the clock never goes backwards, to the second, between the
    captures that build the table from the empty one, no two consecutive
    versions of an identifier have the same hash, and [list_versions]
    returns the versions of the identifier in the order of their
    capture. *)
Theorem history_never_repeats (calls : list capture) (norma : str) :
  clock_monotone calls ->
  let d := capture_all calls empty_db in
  no_repeat (map content_hash (history norma d))
  /\ (Forall Utf8.scalar_value norma -> list_versions d norma = Ok (history norma d)).
Proof.
  intros Hmono d.
  destruct (capture_all_monotone calls empty_db Hmono) as (H1 & H2 & H3).
  - constructor.
  - intros n. constructor.
  - intros r c [].
  - intros n. exact I.
  - split; [apply H3|]. intros Hn.
    unfold list_versions, bind. rewrite (bind_text_ok _ Hn). f_equal.
    rewrite index_scan_history. apply index_sort_sorted_id. now apply history_sorted.
Qed.

(** X13 at the example: the two captures of LEY-1. *)
Lemma two_captures_never_repeat :
  let d := capture_all two_captures empty_db in
  no_repeat (map content_hash (history ley d))
  /\ (Forall Utf8.scalar_value ley -> list_versions d ley = Ok (history ley d)).
Proof.
  apply (history_never_repeats two_captures ley).
  repeat constructor. vm_compute. discriminate.
Defined.

(** X14. [save_if_changed] compares with the version of greatest time
    stamp, not with the row appended last: when the clock is behind the
    time stamp of the latest version and the text has another fingerprint
    than that version, the row appended does not become the latest
    version, and a second call with the same text appends a second row. *)
Theorem clock_behind_duplicates
    (d : db) (t1 t2 : datetime) (norma url content h : str) (v : NormaVersion) :
  rowid_ordered d ->
  hash_content content = Ok h ->
  Forall Utf8.scalar_value url ->
  next_rowid d + 1 <= max_rowid ->
  get_latest_version d norma = Ok (Some v) ->
  content_hash v <> h ->
  text_lt (stamp t1) (fetched_at v) ->
  text_lt (stamp t2) (fetched_at v) ->
  let row1 := new_version d t1 norma url content h in
  let d1 := with_version d row1 in
  let row2 := new_version d1 t2 norma url content h in
  save_if_changed d t1 norma url content = (Ok (true, h), d1)
  /\ get_latest_version d1 norma = Ok (Some v)
  /\ save_if_changed d1 t2 norma url content = (Ok (true, h), with_version d1 row2)
  /\ norma_versions (with_version d1 row2) = norma_versions d ++ [row1; row2].
Proof.
  intros Hord Hh Hu Hroom Hl Hv H1 H2 row1 d1 row2.
  assert (Hl1 : get_latest_version d1 norma = Ok (Some v))
    by (apply latest_after_older; auto).
  split; [apply (save_appends d t1 norma url content h (Some v)); auto; lia|].
  split; [exact Hl1|].
  split.
  - apply (save_appends d1 t2 norma url content h (Some v)); auto.
    subst d1. rewrite next_rowid_with_version by reflexivity. lia.
  - subst d1. unfold with_version. cbn [norma_versions]. now rewrite <- app_assoc.
Qed.

(** X14 at the example: the modified text captured twice at eleven, after
    the original text was captured at noon. *)
Lemma modified_text_captured_in_the_morning :
  let row1 := new_version one_version morning ley portal modified modified_hash in
  let d1 := with_version one_version row1 in
  let row2 := new_version d1 morning ley portal modified modified_hash in
  save_if_changed one_version morning ley portal modified = (Ok (true, modified_hash), d1)
  /\ get_latest_version d1 ley = Ok (Some first_row)
  /\ save_if_changed d1 morning ley portal modified
     = (Ok (true, modified_hash), with_version d1 row2)
  /\ norma_versions (with_version d1 row2) = norma_versions one_version ++ [row1; row2].
Proof.
  apply (clock_behind_duplicates one_version morning morning ley portal modified
           modified_hash first_row).
  - unfold rowid_ordered.
    replace (norma_versions one_version) with [first_row] by (vm_compute; reflexivity).
    repeat constructor.
  - vm_compute. reflexivity.
  - apply lit_scalar.
  - vm_compute. discriminate.
  - vm_compute. reflexivity.
  - intros H. vm_compute in H. discriminate.
  - vm_compute. reflexivity.
  - vm_compute. reflexivity.
Defined.

End StoreProps.

(** ** Further properties of the change summary *)

Module SummaryProps.
Import PyStr PyStrFacts Difflib App Spec MatcherSpec Notions Scenarios.
Import NormalizerFacts DifflibFacts SummaryFacts SummaryLemmas.

(** X15. Every entry of the summary is a line of the old text after "-",
    or a line of the new text after "+"; the line does not begin with
    "--" in the first case, nor with "++" in the second. *)
Theorem iter_changes_entries_sound (old_text new_text : str) :
  Forall
    (fun entry =>
       (exists line, entry = lit "-" ++ line /\ In line (splitlines old_text)
                     /\ startswith (lit "--") line = false)
       \/ (exists line, entry = lit "+" ++ line /\ In line (splitlines new_text)
                        /\ startswith (lit "++") line = false))
    (iter_changes old_text new_text).
Proof.
  apply Forall_forall. intros e He. rewrite iter_changes_opcodes in He.
  apply in_flat_map in He as (o & _ & He).
  now apply (summary_entries_sound _ _ o).
Qed.

(** X16. The summary misses no new and no lost line: a line of the new
    text that is no line of the old text is in the summary after "+",
    unless it begins with "++"; a line of the old text that is no line of
    the new text is in the summary after "-", unless it begins with
    "--". *)
Theorem iter_changes_complete (old_text new_text : str) :
  (forall line,
      In line (splitlines new_text) -> ~ In line (splitlines old_text) ->
      startswith (lit "++") line = false ->
      In (lit "+" ++ line) (iter_changes old_text new_text))
  /\ (forall line,
         In line (splitlines old_text) -> ~ In line (splitlines new_text) ->
         startswith (lit "--") line = false ->
         In (lit "-" ++ line) (iter_changes old_text new_text)).
Proof.
  split; intros line Hin Hout Hmark; unfold iter_changes; apply filter_In.
  - split; [now apply new_line_added|]. now rewrite added_line_kept, Hmark.
  - split; [now apply old_line_removed|]. now rewrite removed_line_kept, Hmark.
Qed.

(** X17. Against the empty text every line is a change: the summary of
    the empty text and a text is every line of the text after "+", and the
    summary of a text and the empty text is every line of the text after
    "-", in order (the lines that begin with "++" or with "--" apart). *)
Theorem iter_changes_against_empty (content_text : str) :
  iter_changes [] content_text = added_entries (splitlines content_text)
  /\ iter_changes content_text [] = removed_entries (splitlines content_text).
Proof.
  rewrite !iter_changes_opcodes.
  change (splitlines []) with (@nil str).
  rewrite get_opcodes_no_a, get_opcodes_no_b.
  destruct (splitlines content_text) as [|l ls] eqn:E; [split; reflexivity|].
  cbn [flat_map summary_entries]. rewrite !app_nil_r, !slice_all. split; reflexivity.
Qed.

(** X18. The summary does not depend on the hunks of the unified format:
    it is made of the entries of all the opcodes of the two sequences of
    lines, in their order, each change once, however far apart the changes
    are. *)
Theorem iter_changes_ignores_grouping (old_text new_text : str) :
  iter_changes old_text new_text
  = flat_map (summary_entries (splitlines old_text) (splitlines new_text))
      (get_opcodes (splitlines old_text) (splitlines new_text)).
Proof. apply iter_changes_opcodes. Qed.

(** X19. The summary accounts for the whole difference: there are removed
    lines and added lines such that the summary lists them (those that
    begin with "--" or "++" apart), and the lines of the old text with the
    added lines are the lines of the new text with the removed lines, up to
    their order. *)
Theorem iter_changes_balance (old_text new_text : str) :
  exists removed added,
    Permutation (iter_changes old_text new_text)
      (removed_entries removed ++ added_entries added)
    /\ Permutation (splitlines old_text ++ added) (splitlines new_text ++ removed).
Proof.
  set (a := splitlines old_text). set (b := splitlines new_text).
  exists (flat_map (removed_lines a) (get_opcodes a b)),
         (flat_map (added_lines b) (get_opcodes a b)).
  split.
  - rewrite iter_changes_opcodes. apply summary_entries_split.
  - assert (Hok : Forall (opcode_ok a b) (get_opcodes a b))
      by (apply Forall_forall; intros o; apply get_opcodes_ok).
    pose proof (opcodes_balance a b (get_opcodes a b) Hok) as P.
    destruct (get_opcodes_tile a b) as [Ea Eb].
    rewrite <- Ea in P at 1. rewrite <- Eb in P at 1. exact P.
Qed.

(** X28. Two texts that [extract_norma_text] returns and that differ have
    different lines, so that their summary is not empty when no line of
    the old one begins with "--" and no line of the new one with "++":
    between two stored texts a difference never hides in the line
    ends. *)
Theorem normalized_texts_differ_in_lines
    (BeautifulSoup : str -> Soup.soup) (old_html new_html : str) :
  let old_text := extract_norma_text BeautifulSoup old_html in
  let new_text := extract_norma_text BeautifulSoup new_html in
  old_text <> new_text ->
  splitlines old_text <> splitlines new_text
  /\ ((forall line, In line (splitlines old_text) -> startswith (lit "--") line = false) ->
      (forall line, In line (splitlines new_text) -> startswith (lit "++") line = false) ->
      iter_changes old_text new_text <> []).
Proof.
  intros old_text new_text Hne.
  assert (Hlines : splitlines old_text <> splitlines new_text).
  { intros E. apply Hne. subst old_text new_text.
    rewrite !splitlines_extract_norma_text in E.
    now rewrite !extract_norma_text_cleaned, E. }
  split; [exact Hlines|]. intros Hold Hnew Hnil.
  destruct (changed_line_exists _ _ fromfile tofile Hlines)
    as [(line & Hl & Hd)|(line & Hl & Hd)].
  - assert (Hin : In (lit "-" ++ line) (iter_changes old_text new_text)).
    { unfold iter_changes. apply filter_In. split; [exact Hd|].
      now rewrite removed_line_kept, (Hold line Hl). }
    rewrite Hnil in Hin. destruct Hin.
  - assert (Hin : In (lit "+" ++ line) (iter_changes old_text new_text)).
    { unfold iter_changes. apply filter_In. split; [exact Hd|].
      now rewrite added_line_kept, (Hnew line Hl). }
    rewrite Hnil in Hin. destruct Hin.
Qed.

(** X28 at the example of the specification and another markup. *)
Lemma normalized_examples_differ :
  let old_text := extract_norma_text Soup.html_parser example_markup in
  let new_text := extract_norma_text Soup.html_parser other_markup in
  splitlines old_text <> splitlines new_text
  /\ ((forall line, In line (splitlines old_text) -> startswith (lit "--") line = false) ->
      (forall line, In line (splitlines new_text) -> startswith (lit "++") line = false) ->
      iter_changes old_text new_text <> []).
Proof.
  apply (normalized_texts_differ_in_lines Soup.html_parser example_markup other_markup).
  intros H. vm_compute in H. discriminate.
Defined.

End SummaryProps.

(** ** Properties of the page *)

Module PageProps.
Import PyStr PyStrFacts Soup App Spec Page Examples Notions Scenarios.
Import StoreFacts SummaryFacts PageFacts.


(** X21. A run of [main] leaves the table as [init_db] gives it, or
    appends one row to it; it appends only when the button is pressed, the
    identifier and the URL are not empty and the portal answers with a
    status that is not between 400 and 599, and the row then has the
    identifier and the URL typed and the normalized body of the response
    with its fingerprint. *)
Theorem main_appends_one_row_at_most
    (BeautifulSoup : str -> soup) (requests_get : str -> Z -> outcome Response)
    (make_table : list str -> list str -> str) (utcnow : datetime)
    (file : option db) (s : session) :
  let d := init_db file in
  let d' := database (snd (main BeautifulSoup requests_get make_table utcnow file s)) in
  d' = d
  \/ (button_capturar s = true /\ input_norma_id s <> [] /\ input_norma_url s <> []
      /\ exists response h,
           requests_get (input_norma_url s) 30 = Return response
           /\ ~ (400 <= status_code response < 600)
           /\ hash_content (extract_norma_text BeautifulSoup (text response)) = Ok h
           /\ d' = with_version d
                     (new_version d utcnow (input_norma_id s) (input_norma_url s)
                        (extract_norma_text BeautifulSoup (text response)) h)).
Proof.
  cbv zeta.
  destruct (main_after_capture BeautifulSoup requests_get make_table utcnow file s) as [-> _].
  destruct (button_capturar s); [|now left].
  pose proof (capture_cases BeautifulSoup requests_get utcnow
                (input_norma_id s) (input_norma_url s)
                {| database := init_db file; page := heading |}) as Hc.
  cbv zeta in Hc. cbn [database page] in Hc.
  destruct (input_norma_id s) as [|c i] eqn:Ei; [rewrite Hc; now left|].
  destruct (input_norma_url s) as [|c' u] eqn:Eu; [rewrite Hc; now left|].
  destruct (fetch_norma BeautifulSoup requests_get (c' :: u) 30)
    as [content|[message|e]] eqn:Ef; try (rewrite Hc; now left).
  assert (Hd : database (snd (capture BeautifulSoup requests_get utcnow (c :: i) (c' :: u)
                                {| database := init_db file; page := heading |}))
               = snd (save_if_changed (init_db file) utcnow (c :: i) (c' :: u) content)).
  { destruct (fst (save_if_changed (init_db file) utcnow (c :: i) (c' :: u) content))
      as [[ins h]|e]; [destruct Hc as [e Hc]|]; now rewrite Hc. }
  rewrite Hd.
  destruct (save_cases (init_db file) utcnow (c :: i) (c' :: u) content) as [E|(h & Hh & E)];
    [now left|right].
  destruct (fetch_norma_returns BeautifulSoup requests_get _ _ _ Ef) as (response & Hr & Hs & ->).
  repeat split; try discriminate. exists response, h. auto.
Qed.

(** X22. When the button is pressed with an identifier and a URL and the
    download raises a [RequestException], the run leaves the table as
    [init_db] gives it, writes the error with the text of the exception
    after the heading, and goes on. *)
Theorem failed_download_keeps_table
    (BeautifulSoup : str -> soup) (requests_get : str -> Z -> outcome Response)
    (make_table : list str -> list str -> str) (utcnow : datetime)
    (file : option db) (s : session) (message : str) :
  button_capturar s = true ->
  input_norma_id s <> [] ->
  input_norma_url s <> [] ->
  fetch_norma BeautifulSoup requests_get (input_norma_url s) 30
  = Raised (RequestException message) ->
  let w := snd (main BeautifulSoup requests_get make_table utcnow file s) in
  database w = init_db file
  /\ exists rest,
       page w = heading ++ error (lit "Error al descargar la norma: " ++ message) :: rest.
Proof.
  intros Hb Hi Hu Hf.
  destruct (main_after_capture BeautifulSoup requests_get make_table utcnow file s)
    as [Hd [rest Hp]].
  cbv zeta. rewrite Hd, Hp, Hb.
  pose proof (capture_cases BeautifulSoup requests_get utcnow
                (input_norma_id s) (input_norma_url s)
                {| database := init_db file; page := heading |}) as Hc.
  cbv zeta in Hc. cbn [database page] in Hc. rewrite Hf in Hc.
  destruct (input_norma_id s) as [|c i]; [contradiction|].
  destruct (input_norma_url s) as [|c' u]; [contradiction|].
  rewrite Hc. cbn [snd database page]. split; [reflexivity|].
  exists rest. now rewrite <- app_assoc.
Qed.

(** X22 at the example: the button pressed for LEY-1 when the portal does
    not answer. *)
Lemma portal_offline :
  let w := snd (main html_parser offline no_table noon None pressed) in
  database w = init_db None
  /\ exists rest,
       page w = heading ++ error (lit "Error al descargar la norma: " ++ lit "timed out")
                             :: rest.
Proof.
  apply (failed_download_keeps_table html_parser offline no_table noon None pressed
           (lit "timed out")).
  - reflexivity.
  - discriminate.
  - discriminate.
  - reflexivity.
Defined.

(** X23. The page shows every entry of the summary among the first 200,
    none left out: one element for each, green for an added line and red
    for a removed one, and a caption with the number of entries when there
    are more than 200. *)
Theorem summary_shows_entries (old_text new_text : str) :
  let changes := iter_changes old_text new_text in
  summary changes
  = markdown (lit "#### Cambios relevantes (resumen)") false
    :: match changes with
       | [] => [info (lit "No se detectaron cambios de texto.")]
       | _ :: _ =>
           map coloured (firstn 200 changes)
           ++ (if (200 <? length changes)%nat
               then [caption (lit "Se muestran 200 de " ++ str_of_nat (length changes)
                                ++ lit " cambios detectados.")]
               else [])
       end
  /\ length (flat_map change_elements (firstn 200 changes)) = Nat.min 200 (length changes).
Proof.
  intros changes.
  assert (H : flat_map change_elements (firstn 200 changes) = map coloured (firstn 200 changes)).
  { apply changes_coloured, Forall_firstn, iter_changes_marked. }
  split.
  - unfold summary. rewrite H. reflexivity.
  - rewrite H, length_map, length_firstn. reflexivity.
Qed.

(** X24. With two versions or more, whatever the select boxes hold, the
    comparator writes the error of the order, or compares a version with
    one that comes later in the list: it never reads the list of versions
    out of its bounds. *)
Theorem comparator_compares_earlier_with_later
    (make_table : list str -> list str -> str) (versions : list NormaVersion) (s : session) :
  (2 <= length versions)%nat ->
  comparator make_table versions s
  = [subheader (lit "Comparador");
     error (lit "La versi" ++ [243] ++ lit "n base debe ser anterior a la versi"
              ++ [243] ++ lit "n nueva.")]
  \/ exists old_idx new_idx old_version new_version,
       (old_idx < new_idx)%nat
       /\ nth_error versions old_idx = Some old_version
       /\ nth_error versions new_idx = Some new_version
       /\ comparator make_table versions s
          = subheader (lit "Comparador")
            :: summary (iter_changes (content_text old_version) (content_text new_version))
            ++ [markdown (lit "#### Vista detallada") false;
                components_html
                  (html_diff make_table (content_text old_version) (content_text new_version))
                  600 true].
Proof.
  intros Hlen. unfold comparator.
  pose proof (selectbox_bound (length versions) (length versions - 2) (select_old_idx s)
                ltac:(lia)) as Ho.
  pose proof (selectbox_bound (length versions) (length versions - 1) (select_new_idx s)
                ltac:(lia)) as Hn.
  set (old_idx := selectbox _ _ (select_old_idx s)) in *.
  set (new_idx := selectbox _ _ (select_new_idx s)) in *.
  destruct (new_idx <=? old_idx)%nat eqn:E; [now left|right].
  apply Nat.leb_gt in E.
  destruct (nth_error versions old_idx) as [old_version|] eqn:Eo;
    [|apply nth_error_None in Eo; lia].
  destruct (nth_error versions new_idx) as [new_version|] eqn:En;
    [|apply nth_error_None in En; lia].
  exists old_idx, new_idx, old_version, new_version. auto.
Qed.

(** X24 at the example: the two versions of LEY-1. *)
Lemma comparator_of_two_versions :
  comparator no_table [first_row; second_row] pressed
  = [subheader (lit "Comparador");
     error (lit "La versi" ++ [243] ++ lit "n base debe ser anterior a la versi"
              ++ [243] ++ lit "n nueva.")]
  \/ exists old_idx new_idx old_version new_version,
       (old_idx < new_idx)%nat
       /\ nth_error [first_row; second_row] old_idx = Some old_version
       /\ nth_error [first_row; second_row] new_idx = Some new_version
       /\ comparator no_table [first_row; second_row] pressed
          = subheader (lit "Comparador")
            :: summary (iter_changes (content_text old_version) (content_text new_version))
            ++ [markdown (lit "#### Vista detallada") false;
                components_html
                  (html_diff no_table (content_text old_version) (content_text new_version))
                  600 true].
Proof.
  apply (comparator_compares_earlier_with_later no_table [first_row; second_row] pressed).
  cbn [length]. lia.
Defined.

(** X25. When the user has touched neither select box, the comparator
    compares the last two versions of the list, the older of the two as
    the base. *)
Theorem comparator_default
    (make_table : list str -> list str -> str)
    (pre : list NormaVersion) (v1 v2 : NormaVersion) (s : session) :
  select_old_idx s = None ->
  select_new_idx s = None ->
  comparator make_table (pre ++ [v1; v2]) s
  = subheader (lit "Comparador")
    :: summary (iter_changes (content_text v1) (content_text v2))
    ++ [markdown (lit "#### Vista detallada") false;
        components_html (html_diff make_table (content_text v1) (content_text v2)) 600 true].
Proof.
  intros Ho Hn. unfold comparator. rewrite Ho, Hn. cbn [selectbox].
  rewrite length_app. cbn [length].
  replace (length pre + 2 - 2)%nat with (length pre) by lia.
  replace (length pre + 2 - 1)%nat with (S (length pre)) by lia.
  assert (E : (S (length pre) <=? length pre)%nat = false) by (apply Nat.leb_gt; lia).
  rewrite E.
  rewrite (nth_error_app2 pre) by lia. rewrite Nat.sub_diag.
  rewrite (nth_error_app2 pre) by lia.
  replace (S (length pre) - length pre)%nat with 1%nat by lia.
  reflexivity.
Qed.

(** X25 at the example. *)
Lemma comparator_default_example :
  comparator no_table ([] ++ [first_row; second_row]) pressed
  = subheader (lit "Comparador")
    :: summary (iter_changes (content_text first_row) (content_text second_row))
    ++ [markdown (lit "#### Vista detallada") false;
        components_html
          (html_diff no_table (content_text first_row) (content_text second_row)) 600 true].
Proof.
  apply (comparator_default no_table [] first_row second_row pressed); reflexivity.
Defined.

(** X26. No exception of the download ends a run of [main]: a run ends
    with its last element written, or with an exception of the store. *)
Theorem main_catches_request_exceptions
    (BeautifulSoup : str -> soup) (requests_get : str -> Z -> outcome Response)
    (make_table : list str -> list str -> str) (utcnow : datetime)
    (file : option db) (s : session) :
  download_caught (fst (main BeautifulSoup requests_get make_table utcnow file s)).
Proof.
  rewrite main_unfold.
  set (w0 := {| database := init_db file; page := heading |}).
  assert (Hb : download_caught
                 (fst ((if button_capturar s
                        then capture BeautifulSoup requests_get utcnow
                               (input_norma_id s) (input_norma_url s)
                        else ret tt) w0))).
  { destruct (button_capturar s); [|exact I].
    pose proof (capture_cases BeautifulSoup requests_get utcnow
                  (input_norma_id s) (input_norma_url s) w0) as Hc.
    cbv zeta in Hc.
    destruct (input_norma_id s) as [|c i]; [now rewrite Hc|].
    destruct (input_norma_url s) as [|c' u]; [now rewrite Hc|].
    destruct (fetch_norma BeautifulSoup requests_get (c' :: u) 30) as [content|[message|e]];
      try (now rewrite Hc).
    destruct (fst (save_if_changed (database w0) utcnow (c :: i) (c' :: u) content))
      as [[ins h]|e]; [destruct Hc as [e Hc]|]; now rewrite Hc. }
  set (button := (if button_capturar s
                  then capture BeautifulSoup requests_get utcnow
                         (input_norma_id s) (input_norma_url s)
                  else ret tt) w0) in *.
  destruct button as [[[]|e] w1]; [|exact Hb].
  destruct (input_norma_id s) as [|c i]; [exact I|].
  unfold query. destruct (list_versions (database w1) (c :: i)); exact I.
Qed.

(** X27. When the button is pressed with an identifier and a URL, the
    download returns a text and [save_if_changed] answers, the run of
    [main] ends with the table [save_if_changed] left, and its page is the
    heading, then the success with the first 12 digits of the fingerprint
    when a version was stored and the notice that nothing changed
    otherwise, then the history of the identifier as [list_versions] gives
    it after the capture. *)
Theorem main_shows_capture
    (BeautifulSoup : str -> soup) (requests_get : str -> Z -> outcome Response)
    (make_table : list str -> list str -> str) (utcnow : datetime)
    (file : option db) (s : session) (content h : str) (inserted : bool)
    (d' : db) (versions : list NormaVersion) :
  button_capturar s = true ->
  input_norma_id s <> [] ->
  input_norma_url s <> [] ->
  fetch_norma BeautifulSoup requests_get (input_norma_url s) 30 = Return content ->
  save_if_changed (init_db file) utcnow (input_norma_id s) (input_norma_url s) content
  = (Ok (inserted, h), d') ->
  list_versions d' (input_norma_id s) = Ok versions ->
  main BeautifulSoup requests_get make_table utcnow file s
  = (Return tt,
     {| database := d';
        page := heading
                ++ (if inserted
                    then success (lit "Nueva versi" ++ [243] ++ lit "n guardada. Hash: "
                                    ++ firstn 12 h)
                    else info (lit "No hubo cambios respecto de la " ++ [250]
                                 ++ lit "ltima versi" ++ [243] ++ lit "n guardada."))
                   :: versions_view make_table versions s |}).
Proof.
  intros Hb Hi Hu Hf Hs Hl. rewrite main_unfold, Hb.
  rewrite (capture_saved BeautifulSoup requests_get utcnow _ _ content h inserted
             {| database := init_db file; page := heading |} d' Hi Hu Hf Hs).
  destruct (input_norma_id s) as [|c i]; [contradiction|].
  unfold query. cbn [database]. rewrite Hl. cbn [of_result database page].
  now rewrite <- app_assoc.
Qed.

(** X27 at the example: LEY-1 captured from a portal that answers with
    the markup of the example. *)
Lemma hello_world_captured :
  main html_parser online no_table noon None pressed
  = (Return tt,
     {| database := with_version empty_db hello_row;
        page := heading
                ++ success (lit "Nueva versi" ++ [243] ++ lit "n guardada. Hash: "
                              ++ firstn 12 hello_hash)
                   :: versions_view no_table [hello_row] pressed |}).
Proof.
  apply (main_shows_capture html_parser online no_table noon None pressed
           (lit "Hello world") hello_hash true (with_version empty_db hello_row) [hello_row]).
  - reflexivity.
  - discriminate.
  - discriminate.
  - vm_compute. reflexivity.
  - vm_compute. reflexivity.
  - vm_compute. reflexivity.
Defined.

End PageProps.
